(** * Observer / publish-subscribe core of ObserverPattern.ts

    A shallow embedding of the three classes [EventEmitter],
    [ObservableStore] and [NewsPublisher], together with the part of the
    JavaScript run time they rest on: [Set] and [Map] objects with their
    insertion-ordered entry lists, and the live iteration performed by
    [Set.prototype.forEach] / [Map.prototype.forEach]. *)

From Stdlib Require Import ZArith Lia.
From stdpp Require Import base option list gmap strings.

Local Open Scope Z_scope.
Local Open Scope nat_scope.

(** ** Completions

    A JavaScript call either returns a value or throws.  In both cases the
    object it worked on is left in some state, which the completion
    carries. *)

Definition exn := string.

Inductive completion (S V : Type) : Type :=
  | Normal (v : V) (s : S)
  | Throws (e : exn) (s : S).
Arguments Normal {S V} v s.
Arguments Throws {S V} e s.

Definition state_of {S V} (c : completion S V) : S :=
  match c with
  | Normal _ s => s
  | Throws _ s => s
  end.

(** ** [Set] objects

    ECMAScript keeps the elements of a Set in the list [[SetData]], in
    insertion order.  [delete] does not shorten the list: it overwrites the
    entry with the marker "empty" ([None] here), so that a [forEach] in
    progress keeps its position.  [add] appends, unless the value is
    already there. *)

Definition SetData (A : Type) := list (option A).

(** The elements of an entry list, in insertion order. *)
Definition live {A} (d : list (option A)) : list A := omap id d.

Section set_data.
Context {A : Type} `{EqDecision A}.

Definition set_has (x : A) (d : SetData A) : bool :=
  bool_decide (Some x ∈ d).

Definition set_add (x : A) (d : SetData A) : SetData A :=
  if set_has x d then d else d ++ [Some x].

Definition set_delete (x : A) (d : SetData A) : SetData A :=
  (λ e, if decide (e = Some x) then None else e) <$> d.

Definition set_size (d : SetData A) : nat := length (live d).

(** A run of [delete] calls. *)
Definition delete_all (targets : list A) (d : SetData A) : SetData A :=
  foldl (λ d x, set_delete x d) d targets.

(** Every value occurs at most once among the entries. *)
Definition set_wf (d : SetData A) : Prop := NoDup (live d).
End set_data.

(** ** [Map] objects

    [[MapData]] is the same kind of list, of key/value records.  [set] on a
    key that is present overwrites the value in place (the entry keeps its
    position); on a new key it appends. *)

Definition MapData (K V : Type) := list (option (K * V)).

Section map_data.
Context {K V : Type} `{EqDecision K}.

Definition key_is (k : K) (e : option (K * V)) : bool :=
  match e with
  | Some (k', _) => bool_decide (k' = k)
  | None => false
  end.

Definition map_has (k : K) (d : MapData K V) : bool :=
  existsb (key_is k) d.

Definition map_set (k : K) (v : V) (d : MapData K V) : MapData K V :=
  if map_has k d
  then (λ e, if key_is k e then Some (k, v) else e) <$> d
  else d ++ [Some (k, v)].

Definition map_delete (k : K) (d : MapData K V) : MapData K V :=
  (λ e, if key_is k e then None else e) <$> d.

Definition map_size (d : MapData K V) : nat := length (live d).

(** A run of [delete] calls. *)
Definition map_delete_all (keys : list K) (d : MapData K V) : MapData K V :=
  foldl (λ d k, map_delete k d) d keys.

(** Every key occurs at most once among the entries. *)
Definition map_wf (d : MapData K V) : Prop := NoDup (fst <$> live d).
End map_data.

(** ** [forEach]

    Set.prototype.forEach and Map.prototype.forEach walk the entry list by
    index and read the list again after every callback:

      index := 0
      while index < number of entries:
        e := entries[index]; index := index + 1
        if e is not empty: call callbackfn(e)

    so an entry emptied before its turn is skipped, an entry appended
    during the walk is visited, and a throwing callback ends the walk.  The
    callback may change the object [R] that holds the entries.  Since a
    callback can keep appending, the walk needs fuel; [None] is "out of
    fuel".  Besides the completion the walk reports the elements the
    callback was called on, in order. *)

Section for_each.
Context {R A : Type}.
Variable entries : R → list (option A).
Variable visit : A → R → completion R unit.

Fixpoint forEach_from (fuel index : nat) (r : R)
    : option (list A * completion R unit) :=
  match fuel with
  | O => None
  | S fuel' =>
      match entries r !! index with
      | None => Some ([], Normal tt r)
      | Some None => forEach_from fuel' (S index) r
      | Some (Some e) =>
          match visit e r with
          | Normal _ r' =>
              match forEach_from fuel' (S index) r' with
              | Some (vs, c) => Some (e :: vs, c)
              | None => None
              end
          | Throws x r' => Some ([e], Throws x r')
          end
      end
  end.

Definition forEach (fuel : nat) (r : R) := forEach_from fuel 0 r.
End for_each.

(** [d'] is [d] with some of its entries emptied: what a run of [delete]
    calls does to an entry list. *)
Definition emptied {A} (d d' : list (option A)) : Prop :=
  Forall2 (λ e e', e' = e ∨ e' = None) d d'.

(** ** EventEmitter *)

Module EventEmitter.

(** A callback is a function object; the emitter only ever compares
    callbacks by identity, so a callback is represented by its identity
    and its body is looked up in [body] below.  ([once], which makes a new
    function object on every call, takes the identity of that object as
    an argument; see below.) *)
Definition EventCallback := nat.

(** [events : Map<string, Set<EventCallback>>].  The map holds references
    to Set objects: [sets] is the store of all Set objects created so far,
    addressed by position, and [events] maps an event name to an address.
    (The map itself is never iterated, so its order is irrelevant.) *)
Record emitter := {
  events : gmap string nat;
  sets : list (SetData EventCallback)
}.

Definition new : emitter := {| events := ∅; sets := [] |}.

(** The Set object behind an address; an address that was never allocated
    has no entries. *)
Definition set_at (l : nat) (em : emitter) : SetData EventCallback :=
  match sets em !! l with
  | Some d => d
  | None => []
  end.

Definition off (event : string) (callback : EventCallback) (em : emitter)
    : emitter :=
  match events em !! event with
  | Some l =>
      {| events := events em; sets := alter (set_delete callback) l (sets em) |}
  | None => em
  end.

(** [on] returns the unsubscribe closure [() => this.off(event, callback)]
    together with the updated emitter. *)
Definition on (event : string) (callback : EventCallback) (em : emitter)
    : (emitter → emitter) * emitter :=
  let em1 :=
    match events em !! event with
    | None =>
        {| events := <[event := length (sets em)]> (events em);
           sets := sets em ++ [[]] |}
    | Some _ => em
    end in
  let em2 :=
    match events em1 !! event with
    | Some l =>
        {| events := events em1;
           sets := alter (set_add callback) l (sets em1) |}
    | None => em1
    end in
  (off event callback, em2).

Definition listenerCount (event : string) (em : emitter) : nat :=
  match events em !! event with
  | Some l => set_size (set_at l em)
  | None => 0
  end.

(** The entry list of the Set registered for [event], if any. *)
Definition listeners (event : string) (em : emitter) : SetData EventCallback :=
  match events em !! event with
  | Some l => set_at l em
  | None => []
  end.

(** [removeAllListeners(event?)]: the test [if (event)] is also false for
    the empty string.  Deleting the map entry leaves the Set object
    itself alone. *)
Definition removeAllListeners (event : option string) (em : emitter)
    : emitter :=
  match event with
  | Some ev =>
      if decide (ev = EmptyString)
      then {| events := ∅; sets := sets em |}
      else {| events := delete ev (events em); sets := sets em |}
  | None => {| events := ∅; sets := sets em |}
  end.

(** A run of [off] calls, as a callback body may perform. *)
Definition off_all (targets : list (string * EventCallback)) (em : emitter)
    : emitter :=
  foldl (λ em t, off t.1 t.2 em) em targets.

Section emit.
(** [T] is the payload type; [body cb data] is the effect of calling
    callback [cb] on [data]: what it does to the emitter through [on],
    [off] and [removeAllListeners], and whether it throws.  Bodies that
    call [emit] again are not covered. *)
Context {T : Type}.
Variable body : EventCallback → T → emitter → completion emitter unit.

(** [emit] returns the calls it made, in order, and its completion. *)
Definition emit (fuel : nat) (event : string) (data : T) (em : emitter)
    : option (list (EventCallback * T) * completion emitter unit) :=
  match events em !! event with
  | Some l =>
      match forEach (set_at l) (λ callback, body callback data) fuel em with
      | Some (visited, c) => Some ((λ cb, (cb, data)) <$> visited, c)
      | None => None
      end
  | None => Some ([], Normal tt em)
  end.
End emit.

(** Every registered address holds a Set object without repetitions. *)
Definition emitter_wf (em : emitter) : Prop :=
  ∀ ev l, events em !! ev = Some l →
    ∃ d : SetData EventCallback, sets em !! l = Some d ∧ set_wf d.

(** Different events have different Set objects. *)
Definition emitter_inj (em : emitter) : Prop :=
  ∀ ev1 ev2 l, events em !! ev1 = Some l → events em !! ev2 = Some l → ev1 = ev2.

Section once.
(** [once(event, callback)] makes a new function object

      wrapper = (data) => { callback(data); this.off(event, wrapper); }

    and registers it.  [wrapper] is the identity of the new object;
    [wrapper_body] is the table of bodies with the new object's body
    added. *)
Context {T : Type}.
Variable body : EventCallback → T → emitter → completion emitter unit.

Definition wrapper_body (event : string) (callback wrapper : EventCallback)
    : EventCallback → T → emitter → completion emitter unit :=
  λ cb data em,
    if decide (cb = wrapper)
    then match body callback data em with
         | Normal _ em' => Normal tt (off event wrapper em')
         | Throws e em' => Throws e em'
         end
    else body cb data em.

Definition once (event : string) (callback wrapper : EventCallback) (em : emitter)
    : (emitter → emitter) * emitter :=
  on event wrapper em.
End once.

End EventEmitter.

(** ** Strict equality

    [strict_equal a b] is [a === b] on the values of a type.  For objects
    this is identity of reference, so a value that denotes an object is
    its reference.  It need not be reflexive: for numbers NaN is not
    [===] to itself. *)
Class StrictEquality (T : Type) := strict_equal : T → T → bool.

(** Whole numbers, references and strings. *)
#[global] Instance Z_strict_equal : StrictEquality Z := Z.eqb.
#[global] Instance nat_strict_equal : StrictEquality nat := Nat.eqb.
#[global] Instance string_strict_equal : StrictEquality string := String.eqb.

(** ** ObservableStore *)

Module ObservableStore.

(** An observer is an object with an [update] method, compared by
    identity; [update] below gives the method's body. *)
Definition Observer := nat.

(** A function of type [(prev: T) => T] either returns or throws. *)
Inductive result (V : Type) : Type :=
  | Returns (v : V)
  | Raises (e : exn).
Arguments Returns {V} v.
Arguments Raises {V} e.

Section store.
(** [T] is the state type, with its [===]. *)
Context {T : Type} `{StrictEquality T}.

Record store := {
  observers : SetData Observer;
  state : T
}.

Definition create (initialState : T) : store :=
  {| observers := []; state := initialState |}.

Definition getState (s : store) : T := state s.

(** The argument of [setState]: the run-time test
    [typeof newState === "function"] separates the two cases. *)
Inductive SetStateArg : Type :=
  | Literal (newState : T)
  | Producer (f : T → result T).

Definition unsubscribe (observer : Observer) (s : store) : store :=
  {| observers := set_delete observer (observers s); state := state s |}.

(** The value [setState] is about to store: the argument itself, or
    what the function makes of the previous state. *)
Definition next_state (newState : SetStateArg) (previousState : T) : result T :=
  match newState with
  | Producer f => f previousState
  | Literal v => Returns v
  end.

(** [update o data] is the effect of [o.update(data)] on the observer
    set (through [unsubscribe]) and whether it throws.  Bodies that call
    [setState], [subscribe] or [notify] again are not covered. *)
Variable update :
  Observer → T → SetData Observer → completion (SetData Observer) unit.

Definition with_observers (s : store) (c : completion (SetData Observer) unit)
    : completion store unit :=
  match c with
  | Normal v r => Normal v {| observers := r; state := state s |}
  | Throws e r => Throws e {| observers := r; state := state s |}
  end.

Definition notify (fuel : nat) (data : T) (s : store)
    : option (list (Observer * T) * completion store unit) :=
  match forEach id (λ observer, update observer data) fuel (observers s) with
  | Some (visited, c) =>
      Some ((λ o, (o, data)) <$> visited, with_observers s c)
  | None => None
  end.

Definition setState (fuel : nat) (newState : SetStateArg) (s : store)
    : option (list (Observer * T) * completion store unit) :=
  let previousState := state s in
  match next_state newState previousState with
  | Raises e => Some ([], Throws e s)
  | Returns v =>
      let s1 := {| observers := observers s; state := v |} in
      if negb (strict_equal (state s1) previousState)
      then notify fuel (state s1) s1
      else Some ([], Normal tt s1)
  end.

Definition subscribe (observer : Observer) (s : store)
    : list (Observer * T) * completion store unit :=
  let s1 := {| observers := set_add observer (observers s); state := state s |} in
  ([(observer, state s1)], with_observers s1 (update observer (state s1) (observers s1))).
End store.
Arguments store T : clear implicits.
Arguments SetStateArg T : clear implicits.

(** *** Object states

    For a store whose state is an object, [T] is the type of references
    and the objects themselves live in a heap that callers read and write
    through the references they hold.  The store never looks inside its
    state. *)
Definition ref := nat.
Inductive jsvalue : Type :=
  | JNum (n : Z)
  | JStr (s : string)
  | JRef (r : ref).
Definition heap := gmap ref (gmap string jsvalue).

(** [r.k] *)
Definition read_field (r : ref) (k : string) (h : heap) : option jsvalue :=
  h !! r ≫= (λ o, o !! k).

(** [r.k = v] *)
Definition write_field (r : ref) (k : string) (v : jsvalue) (h : heap) : heap :=
  alter (λ o, <[k := v]> o) r h.

End ObservableStore.

(** ** NewsPublisher *)

Module NewsArticle.
(** [publishedAt] is a Date, kept as its time value. *)
Record t := mk {
  id : Z;
  title : string;
  category : string;
  content : string;
  publishedAt : Z
}.
End NewsArticle.

(** [Omit<NewsArticle, "id" | "publishedAt">], the argument of [publish]. *)
Module ArticleInput.
Record t := mk {
  title : string;
  category : string;
  content : string
}.
End ArticleInput.

Module NewsSubscriber.
(** [onNews] is a function object, held by identity; its body is looked
    up in [onNews_body] below. *)
Record t := mk {
  id : string;
  name : string;
  categories : list string;
  onNews : nat
}.
End NewsSubscriber.

Module NewsPublisher.

(** The log is an unbounded list and the counter an unbounded integer: the
    limits of array length and of exact number arithmetic are out of
    reach of a publisher that fits in memory. *)
Record publisher := {
  subscribers : MapData string NewsSubscriber.t;
  articles : list NewsArticle.t;
  articleIdCounter : Z
}.

Definition new : publisher :=
  {| subscribers := []; articles := []; articleIdCounter := 0%Z |}.

Definition unsubscribe (subscriberId : string) (p : publisher) : publisher :=
  {| subscribers := map_delete subscriberId (subscribers p);
     articles := articles p;
     articleIdCounter := articleIdCounter p |}.

(** [subscribe] returns the unsubscribe closure and the updated
    publisher. *)
Definition subscribe (subscriber : NewsSubscriber.t) (p : publisher)
    : (publisher → publisher) * publisher :=
  (unsubscribe (NewsSubscriber.id subscriber),
   {| subscribers := map_set (NewsSubscriber.id subscriber) subscriber (subscribers p);
      articles := articles p;
      articleIdCounter := articleIdCounter p |}).

(** [categories.includes("all") || categories.includes(category)] *)
Definition interested (subscriber : NewsSubscriber.t) (category : string) : bool :=
  bool_decide ("all" ∈ NewsSubscriber.categories subscriber)
  || bool_decide (category ∈ NewsSubscriber.categories subscriber).

Definition getArticles (p : publisher) : list NewsArticle.t := articles p.

Definition getSubscriberCount (p : publisher) : nat := map_size (subscribers p).

(** The article [publish] builds: the input's fields, the next id and
    the current time [now]. *)
Definition newArticle (article : ArticleInput.t) (now : Z) (p : publisher)
    : NewsArticle.t :=
  NewsArticle.mk (articleIdCounter p + 1)%Z
    (ArticleInput.title article) (ArticleInput.category article)
    (ArticleInput.content article) now.

(** The publisher once [publish] has pushed the new article and advanced
    the counter, with subscriber map [r]. *)
Definition logged (article : ArticleInput.t) (now : Z) (p : publisher)
    (r : MapData string NewsSubscriber.t) : publisher :=
  {| subscribers := r;
     articles := articles p ++ [newArticle article now p];
     articleIdCounter := (articleIdCounter p + 1)%Z |}.

(** One [onNews] call for each interested subscriber of a list of
    entries. *)
Definition calls_for (article : ArticleInput.t) (a : NewsArticle.t)
    (visited : list (string * NewsSubscriber.t))
    : list (NewsSubscriber.t * NewsArticle.t) :=
  (λ e : string * NewsSubscriber.t, (e.2, a))
    <$> filter (λ e : string * NewsSubscriber.t,
                  interested e.2 (ArticleInput.category article) = true) visited.

Section publish.
(** [onNews_body f article] is the effect of calling the function [f]
    on [article]: what it does to the subscriber map (through
    [subscribe] and [unsubscribe]) and whether it throws.  Bodies that
    call [publish] again are not covered. *)
Variable onNews_body :
  nat → NewsArticle.t → MapData string NewsSubscriber.t →
  completion (MapData string NewsSubscriber.t) unit.

(** The walk of [publish] works on the subscriber map and on the list of
    the [onNews] calls made so far (subscriber and argument). *)
Definition delivery : Type :=
  MapData string NewsSubscriber.t * list (NewsSubscriber.t * NewsArticle.t).

(** The arrow function handed to [subscribers.forEach]: for an interested
    subscriber it calls [onNews], which is recorded as a call whether it
    returns or throws; for the others it does nothing. *)
Definition deliver (article : ArticleInput.t) (a : NewsArticle.t)
    (entry : string * NewsSubscriber.t) (r : delivery)
    : completion delivery unit :=
  if interested entry.2 (ArticleInput.category article)
  then
    let calls := r.2 ++ [(entry.2, a)] in
    match onNews_body (NewsSubscriber.onNews entry.2) a r.1 with
    | Normal _ r' => Normal tt (r', calls)
    | Throws e r' => Throws e (r', calls)
    end
  else Normal tt r.

(** [publish] returns the [onNews] calls it made, in order, and its
    completion; [now] is the value of [new Date()]. *)
Definition publish (fuel : nat) (now : Z) (article : ArticleInput.t)
    (p : publisher)
    : option (list (NewsSubscriber.t * NewsArticle.t)
              * completion publisher NewsArticle.t) :=
  let a := newArticle article now p in
  let p1 := {| subscribers := subscribers p;
               articles := articles p ++ [a];
               articleIdCounter := (articleIdCounter p + 1)%Z |} in
  match forEach fst (deliver article a) fuel (subscribers p1, []) with
  | Some (_, c) =>
      let p2 r := {| subscribers := r;
                     articles := articles p1;
                     articleIdCounter := articleIdCounter p1 |} in
      Some ((state_of c).2,
            match c with
            | Normal _ r => Normal a (p2 r.1)
            | Throws e r => Throws e (p2 r.1)
            end)
  | None => None
  end.

(** A client of the publisher: a sequence of calls, each made after the
    previous one has completed; a client that gets an exception from
    [publish] catches it and goes on. *)
Inductive call : Type :=
  | CallSubscribe (subscriber : NewsSubscriber.t)
  | CallUnsubscribe (subscriberId : string)
  | CallPublish (article : ArticleInput.t) (now : Z).

Fixpoint run_calls (fuel : nat) (cs : list call) (p : publisher)
    : option publisher :=
  match cs with
  | [] => Some p
  | CallSubscribe s :: cs' => run_calls fuel cs' (subscribe s p).2
  | CallUnsubscribe i :: cs' => run_calls fuel cs' (unsubscribe i p)
  | CallPublish a now :: cs' =>
      match publish fuel now a p with
      | Some (_, c) => run_calls fuel cs' (state_of c)
      | None => None
      end
  end.
End publish.

(** The inputs of the [publish] calls of a client, in order. *)
Definition published (cs : list call) : list (ArticleInput.t * Z) :=
  omap (λ c, match c with CallPublish a now => Some (a, now) | _ => None end) cs.

(** The log these publications make on a fresh publisher. *)
Definition expected_log (ps : list (ArticleInput.t * Z)) : list NewsArticle.t :=
  imap (λ i p, NewsArticle.mk (Z.of_nat i + 1)
                 (ArticleInput.title p.1) (ArticleInput.category p.1)
                 (ArticleInput.content p.1) p.2) ps.

(** Keys are unique and every subscriber is filed under its own id. *)
Definition publisher_wf (p : publisher) : Prop :=
  map_wf (subscribers p)
  ∧ ∀ k s, Some (k, s) ∈ subscribers p → NewsSubscriber.id s = k.

End NewsPublisher.

(** * Scenarios

    Concrete callbacks, stores and publishers used to instantiate the
    properties below. *)

Module Scenario.
Import ObservableStore.

(** An [update] that only records its argument elsewhere: it returns and
    leaves the observer set alone. *)
Definition quiet_update (o : Observer) (data : Z) (r : SetData Observer)
    : completion (SetData Observer) unit := Normal tt r.

(** A counter store with observers 1 and 2. *)
Definition counter_store : store Z :=
  {| observers := [Some 1; Some 2]; state := 0%Z |}.

(** [s => s + 1] *)
Definition increment (prev : Z) : result Z := Returns (prev + 1)%Z.

(** A store whose state is the object [{count: 0}], at reference 0. *)
Definition object_heap : heap := {[ 0 := {[ "count" := JNum 0 ]} ]}.
Definition object_store : store ref := create 0.

Import EventEmitter.

(** Callbacks that return and leave the emitter alone. *)
Definition quiet_body (cb : EventCallback) (data : Z) (em : emitter)
    : completion emitter unit := Normal tt em.

(** Callback 1 throws; every other callback is quiet. *)
Definition throwing_body (cb : EventCallback) (data : Z) (em : emitter)
    : completion emitter unit :=
  if decide (cb = 1) then Throws "boom" em else Normal tt em.

(** Callback 1 unsubscribes callback 2 from "test"; every other callback
    is quiet. *)
Definition unsubscribing_targets (cb : EventCallback) : list (string * EventCallback) :=
  if decide (cb = 1) then [("test", 2)] else [].
Definition unsubscribing_body (cb : EventCallback) (data : Z) (em : emitter)
    : completion emitter unit :=
  Normal tt (off_all (unsubscribing_targets cb) em).

(** Callback 1 calls [removeAllListeners("test")]; callback 2 registers
    callback 4 for "test"; every other callback is quiet. *)
Definition rewiring_body (cb : EventCallback) (data : Z) (em : emitter)
    : completion emitter unit :=
  if decide (cb = 1) then Normal tt (removeAllListeners (Some "test") em)
  else if decide (cb = 2) then Normal tt (on "test" 4 em).2
  else Normal tt em.

(** [emitter.on("test", 1); emitter.on("test", 2); emitter.on("test", 3)] *)
Definition two_listeners : emitter := (on "test" 2 (on "test" 1 new).2).2.
Definition three_listeners : emitter := (on "test" 3 two_listeners).2.

Import NewsPublisher.

(** [onNews] functions that return and leave the subscriber map alone. *)
Definition quiet_onNews (f : nat) (a : NewsArticle.t)
    (r : MapData string NewsSubscriber.t)
    : completion (MapData string NewsSubscriber.t) unit := Normal tt r.

(** The function 1 throws; every other one is quiet. *)
Definition throwing_onNews (f : nat) (a : NewsArticle.t)
    (r : MapData string NewsSubscriber.t)
    : completion (MapData string NewsSubscriber.t) unit :=
  if decide (f = 1) then Throws "boom" r else Normal tt r.

Definition alice : NewsSubscriber.t := NewsSubscriber.mk "a" "Alice" ["tech"] 1.
Definition bob : NewsSubscriber.t := NewsSubscriber.mk "b" "Bob" ["all"] 2.
(** A second subscriber object with Alice's id. *)
Definition alice2 : NewsSubscriber.t := NewsSubscriber.mk "a" "Alice" ["sports"] 3.

(** [publisher.subscribe(alice); publisher.subscribe(bob)] *)
Definition alice_and_bob : publisher := (subscribe bob (subscribe alice new).2).2.

Definition sports_news : ArticleInput.t :=
  ArticleInput.mk "Championship Finals Results" "sports" "...".
Definition tech_news : ArticleInput.t :=
  ArticleInput.mk "New AI Breakthrough Announced" "tech" "...".

(** A client: two subscriptions and three publications, the first two of
    which reach the throwing [onNews] of Alice. *)
Definition three_publications : list call :=
  [CallSubscribe alice; CallPublish tech_news 100; CallSubscribe bob;
   CallPublish tech_news 200; CallPublish sports_news 300].
End Scenario.

(** ** [Map.prototype.get] *)

Section map_get.
Context {K V : Type} `{EqDecision K}.

(** The value of the entry with key [k], if there is one. *)
Definition map_get (k : K) (d : MapData K V) : option V :=
  snd <$> head (filter (λ e : K * V, e.1 = k) (live d)).
End map_get.

(** ** StockTicker *)

Module StockTicker.

(** An observer is a function object, held by identity. *)
Definition StockObserver := nat.

(** The Set of a symbol in [observers]; the ticker never removes or
    replaces the Set of a symbol once it is there. *)
Definition watchers (symbol : string) (m : gmap string (SetData StockObserver))
    : SetData StockObserver :=
  match m !! symbol with
  | Some d => d
  | None => []
  end.

Section ticker.
(** Prices are JavaScript numbers.  The ticker does one piece of
    arithmetic on them, the subtraction [price - previousPrice.price],
    and uses the literal [0]: [number] stands for the numbers, [minus] for
    their subtraction and [zero] for 0.  [timestamp] is a Date, kept as
    its time value. *)
Context {number : Type}.
Variable minus : number → number → number.
Variable zero : number.

Record StockPrice := {
  symbol : string;
  price : number;
  change : number;
  timestamp : Z
}.

Record ticker := {
  observers : gmap string (SetData StockObserver);
  prices : MapData string StockPrice
}.

Definition new : ticker := {| observers := ∅; prices := [] |}.

Definition getPrice (symbol : string) (t : ticker) : option StockPrice :=
  map_get symbol (prices t).

(** [new Map(this.prices)]: a new Map with the entries of [prices]. *)
Definition getAllPrices (t : ticker) : MapData string StockPrice :=
  Some <$> live (prices t).

Definition unwatch (symbol : string) (observer : StockObserver) (t : ticker)
    : ticker :=
  match observers t !! symbol with
  | Some d =>
      {| observers := <[symbol := set_delete observer d]> (observers t);
         prices := prices t |}
  | None => t
  end.

(** [observer_body o stock] is the effect of calling the observer [o] on
    [stock]: what it does to [observers] (through [watch] and [unwatch])
    and whether it throws.  Bodies that call [updatePrice], or [watch] for
    a symbol that has a price, are not covered. *)
Variable observer_body :
  StockObserver → StockPrice → gmap string (SetData StockObserver) →
  completion (gmap string (SetData StockObserver)) unit.

Definition with_prices {V} (ps : MapData string StockPrice) (v : V)
    (c : completion (gmap string (SetData StockObserver)) unit)
    : completion ticker V :=
  match c with
  | Normal _ m => Normal v {| observers := m; prices := ps |}
  | Throws e m => Throws e {| observers := m; prices := ps |}
  end.

(** [watch] returns the call it made, if any, and its completion; the value
    returned is the closure [() => this.unwatch(symbol, observer)]. *)
Definition watch (symbol : string) (observer : StockObserver) (t : ticker)
    : list (StockObserver * StockPrice) * completion ticker (ticker → ticker) :=
  let m1 :=
    match observers t !! symbol with
    | None => <[symbol := []]> (observers t)
    | Some _ => observers t
    end in
  let m2 := <[symbol := set_add observer (watchers symbol m1)]> m1 in
  match map_get symbol (prices t) with
  | Some currentPrice =>
      ([(observer, currentPrice)],
       with_prices (prices t) (unwatch symbol observer)
         (observer_body observer currentPrice m2))
  | None =>
      ([], Normal (unwatch symbol observer) {| observers := m2; prices := prices t |})
  end.

(** [updatePrice] returns the calls it made and its completion; [now] is
    the value of [new Date()]. *)
Definition updatePrice (fuel : nat) (now : Z) (symbol : string) (newPrice : number)
    (t : ticker)
    : option (list (StockObserver * StockPrice) * completion ticker unit) :=
  let previousPrice := map_get symbol (prices t) in
  let change :=
    match previousPrice with
    | Some previous => minus newPrice (price previous)
    | None => zero
    end in
  let stockPrice :=
    {| symbol := symbol; price := newPrice; change := change; timestamp := now |} in
  let ps := map_set symbol stockPrice (prices t) in
  match observers t !! symbol with
  | Some _ =>
      match forEach (watchers symbol) (λ observer, observer_body observer stockPrice)
              fuel (observers t) with
      | Some (visited, c) =>
          Some ((λ o, (o, stockPrice)) <$> visited, with_prices ps tt c)
      | None => None
      end
  | None => Some ([], Normal tt {| observers := observers t; prices := ps |})
  end.
End ticker.
Arguments StockPrice number : clear implicits.
Arguments ticker number : clear implicits.

End StockTicker.

(** ** FormValidator *)

Module ValidationResult.
Record t := mk {
  field : string;
  isValid : bool;
  errors : list string
}.
End ValidationResult.

(** [values] and [validations] are plain objects used as records keyed by
    field name; the maps below hold their own properties, which is what
    [Object.keys], [Object.values] and the spread read.

    [assign k v o] is what [o[k] = v] makes of the own properties.  The
    assignment makes or overwrites an own property, except under the key
    "__proto__" of an object that has no own property of that name: there
    it goes to the accessor inherited from [Object.prototype], which
    makes no own property.  (An own property "__proto__" comes into being
    only by a spread of an object that has one.) *)
Definition assign {V} (k : string) (v : V) (o : gmap string V) : gmap string V :=
  if decide (k = "__proto__")
  then match o !! k with
       | Some _ => <[k := v]> o
       | None => o
       end
  else <[k := v]> o.

Module FormState.
Record t := mk {
  values : gmap string string;
  validations : gmap string ValidationResult.t;
  isValid : bool;
  isDirty : bool
}.
End FormState.

Module FormValidator.

(** An observer is a function object, held by identity. *)
Definition FormObserver := nat.

(** A validator is a function [(value: string) => string[]] that
    returns. *)
Definition Validator := string → list string.

(** The state object is updated in place; [state] is what it holds at the
    moment, and the states handed to observers and returned by [getState]
    are what it held at the time of the call. *)
Record form := {
  observers : SetData FormObserver;
  state : FormState.t;
  validators : gmap string (list Validator)
}.

Definition create (initialValues : gmap string string) : form :=
  {| observers := [];
     state := FormState.mk initialValues ∅ true false;
     validators := ∅ |}.

(** [this.validators.get(field) || []] *)
Definition field_validators (field : string) (f : form) : list Validator :=
  match validators f !! field with
  | Some vs => vs
  | None => []
  end.

Definition addValidator (field : string) (validator : Validator) (f : form) : form :=
  {| observers := observers f;
     state := state f;
     validators := <[field := field_validators field f ++ [validator]]> (validators f) |}.

(** [validateField] is private: it is called for a field that [setValue]
    has just assigned or that [validateAll] found among the keys of
    [values], so the value it reads is an own property of [values].
    The exception is [setValue("__proto__", ...)] on values without an
    own property of that name: there the validators registered under
    "__proto__", if there are any, are handed [Object.prototype] rather
    than a string, and the record made of what they return is not filed
    (see [assign]). *)
Definition validateField (field : string) (f : form) : form :=
  let vs := field_validators field f in
  let value :=
    match FormState.values (state f) !! field with
    | Some v => v
    | None => EmptyString
    end in
  let errors := mjoin ((λ validator : Validator, validator value) <$> vs) in
  {| observers := observers f;
     state :=
       FormState.mk (FormState.values (state f))
         (assign field
            (ValidationResult.mk field
               (match errors with [] => true | _ => false end) errors)
            (FormState.validations (state f)))
         (FormState.isValid (state f)) (FormState.isDirty (state f));
     validators := validators f |}.

Definition updateFormValidity (f : form) : form :=
  {| observers := observers f;
     state :=
       FormState.mk (FormState.values (state f)) (FormState.validations (state f))
         (bool_decide (map_Forall (λ _ v, ValidationResult.isValid v = true)
                         (FormState.validations (state f))))
         (FormState.isDirty (state f));
     validators := validators f |}.

Definition unsubscribe (observer : FormObserver) (f : form) : form :=
  {| observers := set_delete observer (observers f);
     state := state f;
     validators := validators f |}.

Definition getState (f : form) : FormState.t := state f.

Section notify.
(** [observer_body o state] is the effect of calling the observer [o] on
    [state]: what it does to the observer set (through [unsubscribe]) and
    whether it throws.  Bodies that call back into the form's other
    methods are not covered. *)
Variable observer_body :
  FormObserver → FormState.t → SetData FormObserver →
  completion (SetData FormObserver) unit.

Definition with_observers {V} (f : form) (v : V)
    (c : completion (SetData FormObserver) unit) : completion form V :=
  match c with
  | Normal _ r => Normal v {| observers := r; state := state f; validators := validators f |}
  | Throws e r => Throws e {| observers := r; state := state f; validators := validators f |}
  end.

Definition notifyObservers (fuel : nat) (f : form)
    : option (list (FormObserver * FormState.t) * completion form unit) :=
  match forEach id (λ observer, observer_body observer (state f)) fuel (observers f) with
  | Some (visited, c) => Some ((λ o, (o, state f)) <$> visited, with_observers f tt c)
  | None => None
  end.

Definition setValue (fuel : nat) (field value : string) (f : form)
    : option (list (FormObserver * FormState.t) * completion form unit) :=
  let f1 :=
    {| observers := observers f;
       state :=
         FormState.mk (assign field value (FormState.values (state f)))
           (FormState.validations (state f)) (FormState.isValid (state f)) true;
       validators := validators f |} in
  notifyObservers fuel (updateFormValidity (validateField field f1)).

(** [Object.keys(this.state.values).forEach(...)]: the order of the keys
    does not matter for the result (see [validate_fields_perm]). *)
Definition validate_fields (fields : list string) (f : form) : form :=
  foldl (λ f field, validateField field f) f fields.

Definition validateAll (fuel : nat) (f : form)
    : option (list (FormObserver * FormState.t) * completion form unit) :=
  notifyObservers fuel
    (updateFormValidity
       (validate_fields (map_to_list (FormState.values (state f))).*1 f)).

Definition subscribe (observer : FormObserver) (f : form)
    : list (FormObserver * FormState.t) * completion form (form → form) :=
  let f1 := {| observers := set_add observer (observers f);
               state := state f;
               validators := validators f |} in
  ([(observer, state f1)],
   with_observers f1 (unsubscribe observer)
     (observer_body observer (state f1) (observers f1))).

Definition reset (fuel : nat) (values : gmap string string) (f : form)
    : option (list (FormObserver * FormState.t) * completion form unit) :=
  notifyObservers fuel
    {| observers := observers f;
       state := FormState.mk values ∅ true false;
       validators := validators f |}.

(** A client of the form: a sequence of calls, each made after the
    previous one has completed; a client that gets an exception from an
    observer catches it and goes on. *)
Inductive call : Type :=
  | CallAddValidator (field : string) (validator : Validator)
  | CallSetValue (field value : string)
  | CallValidateAll
  | CallReset (values : gmap string string)
  | CallSubscribe (observer : FormObserver)
  | CallUnsubscribe (observer : FormObserver).

Fixpoint run_calls (fuel : nat) (cs : list call) (f : form) : option form :=
  match cs with
  | [] => Some f
  | c :: cs' =>
      match c with
      | CallAddValidator field v => run_calls fuel cs' (addValidator field v f)
      | CallSetValue field value =>
          r ← setValue fuel field value f; run_calls fuel cs' (state_of r.2)
      | CallValidateAll =>
          r ← validateAll fuel f; run_calls fuel cs' (state_of r.2)
      | CallReset values =>
          r ← reset fuel values f; run_calls fuel cs' (state_of r.2)
      | CallSubscribe o => run_calls fuel cs' (state_of (subscribe o f).2)
      | CallUnsubscribe o => run_calls fuel cs' (unsubscribe o f)
      end
  end.
End notify.

(** The record [validateField] files for a field whose value is [value]. *)
Definition validation_of (field value : string) (f : form) : ValidationResult.t :=
  let errors := mjoin ((λ validator : Validator, validator value)
                         <$> field_validators field f) in
  ValidationResult.mk field (match errors with [] => true | _ => false end) errors.

(** What the form keeps true of its state: every validation record is
    filed under its own field and is valid exactly when it has no
    errors, and the form is valid exactly when every record is. *)
Definition state_ok (st : FormState.t) : Prop :=
  (∀ g r, FormState.validations st !! g = Some r →
     ValidationResult.field r = g
     ∧ (ValidationResult.isValid r = true ↔ ValidationResult.errors r = []))
  ∧ (FormState.isValid st = true
     ↔ ∀ g r, FormState.validations st !! g = Some r → ValidationResult.errors r = []).

(** *** The common validators

    Strings are taken over code units below 256, one [ascii] each. *)

(** White space and line terminators, as [trim] and [\s] see them. *)
Definition is_space (a : Ascii.ascii) : bool :=
  let n := Ascii.nat_of_ascii a in
  ((9 <=? n) && (n <=? 13)) || (n =? 32) || (n =? 160).

Fixpoint trimStart (s : string) : string :=
  match s with
  | EmptyString => EmptyString
  | String a s' => if is_space a then trimStart s' else s
  end.

Fixpoint trimEnd (s : string) : string :=
  match s with
  | EmptyString => EmptyString
  | String a s' =>
      match trimEnd s' with
      | EmptyString => if is_space a then EmptyString else String a EmptyString
      | r => String a r
      end
  end.

(** [String.prototype.trim] *)
Definition trim (s : string) : string := trimEnd (trimStart s).

(** [validators.required]: [value.trim() ? [] : [...]]. *)
Definition required (fieldName : string) : Validator :=
  λ value,
    match trim value with
    | EmptyString => [fieldName +:+ " is required"]
    | _ => []
    end.

End FormValidator.

(** ** Regular expressions

    The fragment of JavaScript regular expressions that the email
    validator uses: character classes, concatenation and [+], between
    the anchors [^] and [$] (so the whole string has to match).  [test]
    is decided with derivatives: [deriv a r] matches what is left of a
    match of [r] after the character [a]. *)

Module RegExp.

Inductive regex : Type :=
  | Never
  | Eps
  | Class (p : Ascii.ascii → bool)
  | Cat (r1 r2 : regex)
  | Alt (r1 r2 : regex)
  | Star (r : regex).

(** [r+] *)
Definition Plus (r : regex) : regex := Cat r (Star r).

Fixpoint nullable (r : regex) : bool :=
  match r with
  | Never => false
  | Eps => true
  | Class _ => false
  | Cat r1 r2 => nullable r1 && nullable r2
  | Alt r1 r2 => nullable r1 || nullable r2
  | Star _ => true
  end.

Fixpoint deriv (a : Ascii.ascii) (r : regex) : regex :=
  match r with
  | Never => Never
  | Eps => Never
  | Class p => if p a then Eps else Never
  | Cat r1 r2 =>
      if nullable r1
      then Alt (Cat (deriv a r1) r2) (deriv a r2)
      else Cat (deriv a r1) r2
  | Alt r1 r2 => Alt (deriv a r1) (deriv a r2)
  | Star r => Cat (deriv a r) (Star r)
  end.

(** [/^r$/.test(s)] *)
Fixpoint test (r : regex) (s : string) : bool :=
  match s with
  | EmptyString => nullable r
  | String a s' => test (deriv a r) s'
  end.

(** The strings of a regular expression. *)
Inductive lang : regex → list Ascii.ascii → Prop :=
  | lang_eps : lang Eps []
  | lang_class p a : p a = true → lang (Class p) [a]
  | lang_cat r1 r2 s1 s2 : lang r1 s1 → lang r2 s2 → lang (Cat r1 r2) (s1 ++ s2)
  | lang_alt_l r1 r2 s : lang r1 s → lang (Alt r1 r2) s
  | lang_alt_r r1 r2 s : lang r2 s → lang (Alt r1 r2) s
  | lang_star_nil r : lang (Star r) []
  | lang_star_cons r s1 s2 : lang r s1 → lang (Star r) s2 → lang (Star r) (s1 ++ s2).

End RegExp.

Module Validators.

(** The first character of a string literal. *)
Definition char (s : string) : Ascii.ascii :=
  match s with
  | String a _ => a
  | EmptyString => Ascii.zero
  end.

(** [[^\s@]]: any character but white space and the at sign. *)
Definition plain (a : Ascii.ascii) : bool :=
  negb (FormValidator.is_space a) && negb (Ascii.eqb a (char "@")).

(** [/^[^\s@]+@[^\s@]+\.[^\s@]+$/] *)
Definition emailRegex : RegExp.regex :=
  RegExp.Cat (RegExp.Plus (RegExp.Class plain))
    (RegExp.Cat (RegExp.Class (λ a, Ascii.eqb a (char "@")))
       (RegExp.Cat (RegExp.Plus (RegExp.Class plain))
          (RegExp.Cat (RegExp.Class (λ a, Ascii.eqb a (char ".")))
             (RegExp.Plus (RegExp.Class plain))))).

(** [validators.email] *)
Definition email : FormValidator.Validator :=
  λ value, if RegExp.test emailRegex value then [] else ["Invalid email format"].

End Validators.

(** * The singletons of SingletonPattern.ts

    [ConfigurationManager], [Logger] and [CacheManager] each keep their one
    object in a static field; the definitions below are the methods of
    that object.  The clock ([new Date()], [Date.now()]) is an argument,
    in whole milliseconds. *)

(** [Map.prototype.clear] empties every entry; the list keeps its length. *)
Definition map_clear {K V} (d : MapData K V) : MapData K V :=
  replicate (length d) None.

Module ConfigurationManager.
Section config.
Context {unknown : Type}.
(** How a string and a number literal are stored as [unknown]. *)
Variable str : string → unknown.
Variable num : Z → unknown.

Record manager := { config : MapData string unknown }.

Definition create : manager :=
  {| config :=
       map_set "language" (str "en")
         (map_set "theme" (str "light")
            (map_set "maxRetries" (num 3)
               (map_set "timeout" (num 5000)
                  (map_set "apiUrl" (str "https://api.example.com") [])))) |}.

Definition get (key : string) (m : manager) : option unknown :=
  map_get key (config m).

Definition set (key : string) (value : unknown) (m : manager) : manager :=
  {| config := map_set key value (config m) |}.

(** [Object.fromEntries]: one property per entry, a later entry
    overwriting an earlier one of the same key. *)
Definition getAll (m : manager) : gmap string unknown :=
  foldl (λ o e, <[e.1 := e.2]> o) ∅ (live (config m)).

Definition reset (m : manager) : manager :=
  {| config :=
       map_set "maxRetries" (num 3)
         (map_set "timeout" (num 5000)
            (map_set "apiUrl" (str "https://api.example.com")
               (map_clear (config m)))) |}.
End config.
Arguments manager unknown : clear implicits.
End ConfigurationManager.

Module LogLevel.
Inductive t := debug | info | warn | error.

Definition eqb (a b : t) : bool :=
  match a, b with
  | debug, debug | info, info | warn, warn | error, error => true
  | _, _ => false
  end.

Definition toUpperCase (level : t) : string :=
  match level with
  | debug => "DEBUG"
  | info => "INFO"
  | warn => "WARN"
  | error => "ERROR"
  end.
End LogLevel.

Module LogEntry.
Record t := mk {
  level : LogLevel.t;
  message : string;
  timestamp : Z;
  context : option string
}.
End LogEntry.

(** [array.slice(-n)]: the last [n] elements; [slice(-0)] is [slice(0)],
    the whole array. *)
Definition slice_from_end {A} (n : nat) (l : list A) : list A :=
  match n with
  | O => l
  | S _ => drop (length l - n) l
  end.

Module Logger.

Definition maxLogs : nat := 1000.

Record logger := {
  logs : list LogEntry.t;
  level : LogLevel.t
}.

Definition new : logger := {| logs := []; level := LogLevel.info |}.

Definition setLevel (lvl : LogLevel.t) (l : logger) : logger :=
  {| logs := logs l; level := lvl |}.

Definition getLevel (l : logger) : LogLevel.t := level l.

Definition levelPriority (lvl : LogLevel.t) : nat :=
  match lvl with
  | LogLevel.debug => 0
  | LogLevel.info => 1
  | LogLevel.warn => 2
  | LogLevel.error => 3
  end.

Definition shouldLog (lvl : LogLevel.t) (l : logger) : bool :=
  levelPriority (level l) <=? levelPriority lvl.

(** A call of [console.debug], [console.info], [console.warn] or
    [console.error]: the method and the text. *)
Definition ConsoleCall : Type := LogLevel.t * string.

Section log.
(** [Date.prototype.toISOString] *)
Variable toISOString : Z → string.

Definition formattedMessage (lvl : LogLevel.t) (message : string)
    (context : option string) (now : Z) : string :=
  "[" +:+ toISOString now +:+ "] [" +:+ LogLevel.toUpperCase lvl +:+ "]"
  +:+ match context with
      | Some c => if bool_decide (c = "") then "" else " [" +:+ c +:+ "]"
      | None => ""
      end
  +:+ " " +:+ message.

(** [log] returns the console calls it made and the logger. *)
Definition log (lvl : LogLevel.t) (message : string) (context : option string)
    (now : Z) (l : logger) : list ConsoleCall * logger :=
  if negb (shouldLog lvl l) then ([], l)
  else
    let entry := LogEntry.mk lvl message now context in
    let logs1 := logs l ++ [entry] in
    let logs2 :=
      if maxLogs <? length logs1 then slice_from_end maxLogs logs1 else logs1 in
    ([(lvl, formattedMessage lvl message context now)],
     {| logs := logs2; level := level l |}).

Definition debug := log LogLevel.debug.
Definition info := log LogLevel.info.
Definition warn := log LogLevel.warn.
Definition error := log LogLevel.error.

(** What a client does with the logger, one call after the other. *)
Inductive call :=
  | CallSetLevel (lvl : LogLevel.t)
  | CallLog (lvl : LogLevel.t) (message : string) (context : option string) (now : Z)
  | CallClearLogs.

Definition clearLogs (l : logger) : logger :=
  {| logs := []; level := level l |}.

Fixpoint run_calls (calls : list call) (l : logger) : list ConsoleCall * logger :=
  match calls with
  | [] => ([], l)
  | CallSetLevel lvl :: calls => run_calls calls (setLevel lvl l)
  | CallLog lvl message context now :: calls =>
      let (out, l1) := log lvl message context now l in
      let (outs, l2) := run_calls calls l1 in
      (out ++ outs, l2)
  | CallClearLogs :: calls => run_calls calls (clearLogs l)
  end.
End log.

(** The filter argument of [getLogs]: absent, or an object whose [level]
    and [context] may each be absent. *)
Definition LogFilter : Type := option (option LogLevel.t * option string).

Definition getLogs (filter : LogFilter) (l : logger) : list LogEntry.t :=
  let filtered := logs l in
  let filtered :=
    match filter with
    | Some (Some lvl, _) =>
        List.filter (λ log, LogLevel.eqb (LogEntry.level log) lvl) filtered
    | _ => filtered
    end in
  match filter with
  | Some (_, Some context) =>
      if bool_decide (context = "") then filtered
      else List.filter (λ log, bool_decide (LogEntry.context log = Some context)) filtered
  | _ => filtered
  end.

(** The entries a run of calls asks to keep: those logged at or above the
    level in force at the time, since the last [clearLogs], oldest
    first. *)
Fixpoint accepted (calls : list call) (threshold : LogLevel.t)
    (sofar : list LogEntry.t) : list LogEntry.t :=
  match calls with
  | [] => sofar
  | CallSetLevel lvl :: calls => accepted calls lvl sofar
  | CallLog lvl message context now :: calls =>
      accepted calls threshold
        (if levelPriority threshold <=? levelPriority lvl
         then sofar ++ [LogEntry.mk lvl message now context]
         else sofar)
  | CallClearLogs :: calls => accepted calls threshold []
  end.

End Logger.

Module CacheEntry.
Record t (T : Type) := mk { value : T; expiresAt : Z }.
Arguments mk {T} value expiresAt.
Arguments value {T} _.
Arguments expiresAt {T} _.
End CacheEntry.

Module CacheManager.
Section cache.
Context {unknown : Type}.

(** Times and lifetimes are whole milliseconds.  (The constructor also
    starts a timer that calls [cleanup] once a minute; here [cleanup] is
    called by whoever plays the timer.) *)
Record manager := {
  cache : MapData string (CacheEntry.t unknown);
  defaultTTL : Z
}.

Definition create : manager := {| cache := []; defaultTTL := (5 * 60 * 1000)%Z |}.

(** [ttl || this.defaultTTL]: an absent [ttl] and a [ttl] of 0 both give
    the default. *)
Definition set (key : string) (value : unknown) (ttl : option Z) (now : Z)
    (m : manager) : manager :=
  let lifetime :=
    match ttl with
    | Some t => if (t =? 0)%Z then defaultTTL m else t
    | None => defaultTTL m
    end in
  let expiresAt := (now + lifetime)%Z in
  {| cache := map_set key (CacheEntry.mk value expiresAt) (cache m);
     defaultTTL := defaultTTL m |}.

Definition delete (key : string) (m : manager) : bool * manager :=
  (map_has key (cache m),
   {| cache := map_delete key (cache m); defaultTTL := defaultTTL m |}).

Definition get (key : string) (now : Z) (m : manager) : option unknown * manager :=
  match map_get key (cache m) with
  | None => (None, m)
  | Some entry =>
      if (CacheEntry.expiresAt entry <? now)%Z then (None, (delete key m).2)
      else (Some (CacheEntry.value entry), m)
  end.

Definition has (key : string) (now : Z) (m : manager) : bool * manager :=
  match map_get key (cache m) with
  | None => (false, m)
  | Some entry =>
      if (CacheEntry.expiresAt entry <? now)%Z then (false, (delete key m).2)
      else (true, m)
  end.

Definition clear (m : manager) : manager :=
  {| cache := map_clear (cache m); defaultTTL := defaultTTL m |}.

(** The loop body of [cleanup], for one entry. *)
Definition drop_expired (now : Z) (e : string * CacheEntry.t unknown)
    (d : MapData string (CacheEntry.t unknown))
    : completion (MapData string (CacheEntry.t unknown)) unit :=
  Normal tt (if (CacheEntry.expiresAt e.2 <? now)%Z then map_delete e.1 d else d).

(** [for (const [key, entry] of this.cache.entries())] walks the entry
    list like [forEach]. *)
Definition cleanup (fuel : nat) (now : Z) (m : manager) : option manager :=
  match forEach (λ d, d) (drop_expired now) fuel (cache m) with
  | Some (_, c) => Some {| cache := state_of c; defaultTTL := defaultTTL m |}
  | None => None
  end.

(** What [cleanup] is to make of one entry: an expired entry is emptied. *)
Definition swept (now : Z) (e : option (string * CacheEntry.t unknown))
    : option (string * CacheEntry.t unknown) :=
  match e with
  | Some (k, entry) => if (CacheEntry.expiresAt entry <? now)%Z then None else e
  | None => None
  end.

(** [size] and [keys] *)
Definition getStats (m : manager) : nat * list string :=
  (map_size (cache m), (live (cache m)).*1).

Definition setDefaultTTL (ttl : Z) (m : manager) : manager :=
  {| cache := cache m; defaultTTL := ttl |}.
End cache.
Arguments manager unknown : clear implicits.
End CacheManager.

(** * More scenarios *)

Module Fixture.
Import EventEmitter.

(** [emitter.on("test", 1); emitter.on("other", 5)] *)
Definition two_events : emitter := (on "other" 5 (on "test" 1 new).2).2.

(** Callback 9 throws; every other callback is quiet. *)
Definition nine_throws (cb : EventCallback) (data : Z) (em : emitter)
    : completion emitter unit :=
  if decide (cb = 9) then Throws "boom" em else Normal tt em.

(** Callback 1 registers callback 4 for "test"; every other callback is
    quiet. *)
Definition one_adds_four (cb : EventCallback) (data : Z) (em : emitter)
    : completion emitter unit :=
  if decide (cb = 1) then Normal tt (on "test" 4 em).2 else Normal tt em.

(** A third subscriber, interested in sports. *)
Definition carol : NewsSubscriber.t := NewsSubscriber.mk "c" "Carol" ["sports"] 4.

(** Form observers that return and leave the observer set alone. *)
Definition quiet_form_observer (o : FormValidator.FormObserver) (st : FormState.t)
    (r : SetData FormValidator.FormObserver)
    : completion (SetData FormValidator.FormObserver) unit := Normal tt r.

(** A form without values, with [required] on the field "email". *)
Definition login_form : FormValidator.form :=
  FormValidator.addValidator "email" (FormValidator.required "Email")
    (FormValidator.create ∅).

(** Stock observers that return and leave [observers] alone; prices in
    whole cents. *)
Definition quiet_observer (o : StockTicker.StockObserver) (stock : StockTicker.StockPrice Z)
    (m : gmap string (SetData StockTicker.StockObserver))
    : completion (gmap string (SetData StockTicker.StockObserver)) unit :=
  Normal tt m.

(** [ticker.watch("AAPL", 1); ticker.watch("MSFT", 2)] *)
Definition two_watchers : StockTicker.ticker Z :=
  state_of (StockTicker.watch quiet_observer "MSFT" 2
              (state_of (StockTicker.watch quiet_observer "AAPL" 1
                           StockTicker.new).2)).2.
(** An [update] that returns and leaves the observer set alone. *)
Definition silent_update {T} (o : ObservableStore.Observer) (data : T)
    (r : SetData ObservableStore.Observer)
    : completion (SetData ObservableStore.Observer) unit := Normal tt r.

(** Observer 1 throws; every other observer is quiet. *)
Definition throwing_update {T} (o : ObservableStore.Observer) (data : T)
    (r : SetData ObservableStore.Observer)
    : completion (SetData ObservableStore.Observer) unit :=
  if decide (o = 1) then Throws "boom" r else Normal tt r.

(** Observer 1 unsubscribes observer 2; every other observer is quiet. *)
Definition unsubscribing_update {T} (o : ObservableStore.Observer) (data : T)
    (r : SetData ObservableStore.Observer)
    : completion (SetData ObservableStore.Observer) unit :=
  Normal tt (delete_all (if decide (o = 1) then [2] else []) r).

(** Numbers: whole numbers and NaN, which is not [===] to itself. *)
Inductive number := Finite (n : Z) | NaN.
#[global] Instance number_strict_equal : StrictEquality number :=
  λ a b, match a, b with
         | Finite x, Finite y => Z.eqb x y
         | _, _ => false
         end.

(** A store that holds NaN, with observers 1 and 2. *)
Definition nan_store : ObservableStore.store number :=
  {| ObservableStore.observers := [Some 1; Some 2]; ObservableStore.state := NaN |}.

(** The function 1, Alice's [onNews], unsubscribes "b"; every other
    function is quiet. *)
Definition unsubscribing_onNews (f : nat) (a : NewsArticle.t)
    (r : MapData string NewsSubscriber.t)
    : completion (MapData string NewsSubscriber.t) unit :=
  Normal tt (map_delete_all (if decide (f = 1) then ["b"] else []) r).

(** Configuration values: strings and whole numbers. *)
Inductive setting := Text (s : string) | Number (n : Z).

(** [config.set("theme", "dark")] on a fresh manager. *)
Definition dark_config : ConfigurationManager.manager setting :=
  ConfigurationManager.set "theme" (Text "dark")
    (ConfigurationManager.create Text Number).

(** At time 0: [cache.set("a", "one", 10); cache.set("b", "two", 50)]. *)
Definition small_cache : CacheManager.manager string :=
  CacheManager.set "b" "two" (Some 50%Z) 0%Z
    (CacheManager.set "a" "one" (Some 10%Z) 0%Z CacheManager.create).
End Fixture.

(** * Properties *)

(** ** Entry lists *)

Lemma live_app {A} (d1 d2 : list (option A)) : live (d1 ++ d2) = live d1 ++ live d2.
Proof. apply omap_app. Qed.

Lemma elem_of_live {A} (a : A) (d : list (option A)) : a ∈ live d ↔ Some a ∈ d.
Proof.
  unfold live. rewrite list_elem_of_omap. split.
  - intros ([x|] & Hin & Hx); simplify_eq/=. done.
  - intros Hin. exists (Some a). done.
Qed.

Lemma emptied_refl {A} (d : list (option A)) : emptied d d.
Proof. apply Forall2_same_length_lookup. split; [done|]. intros i x y ? ?. left. congruence. Qed.

Lemma emptied_trans {A} (d1 d2 d3 : list (option A)) :
  emptied d1 d2 → emptied d2 d3 → emptied d1 d3.
Proof.
  unfold emptied. intros H12. revert d3.
  induction H12 as [|x y l k Hxy _ IH]; intros d3 H23.
  - by inversion H23.
  - inversion H23 as [|? z ? k' Hyz Hk]; subst.
    constructor; [|by apply IH].
    destruct Hxy as [->| ->], Hyz as [->| ->]; auto.
Qed.

Lemma emptied_length {A} (d d' : list (option A)) : emptied d d' → length d = length d'.
Proof. apply Forall2_length. Qed.

Lemma emptied_drop {A} (d d' : list (option A)) k :
  emptied d d' → emptied (drop k d) (drop k d').
Proof. apply Forall2_drop. Qed.

Lemma emptied_lookup {A} (d d' : list (option A)) i e :
  emptied d d' → d !! i = Some e → d' !! i = Some e ∨ d' !! i = Some None.
Proof.
  intros H Hi. destruct (Forall2_lookup_l _ _ _ _ _ H Hi) as (e' & He' & [->| ->]); auto.
Qed.

Lemma emptied_live {A} (d d' : list (option A)) :
  emptied d d' → live d' `sublist_of` live d.
Proof.
  induction 1 as [|x y l k [->| ->] _ IH]; simpl.
  - done.
  - destruct x; simpl; [by apply sublist_skip | done].
  - destruct x; simpl; [by apply sublist_cons | done].
Qed.

Lemma emptied_elem_of {A} (d d' : list (option A)) (a : A) :
  emptied d d' → Some a ∈ d' → Some a ∈ d.
Proof.
  intros H Hin. apply elem_of_live. apply elem_of_live in Hin.
  eapply elem_of_sublist; [done | by apply emptied_live].
Qed.

(** ** The walk of [forEach] *)

Section for_each_facts.
Context {R A : Type}.
Variable entries : R → list (option A).
Variable visit : A → R → completion R unit.

(** More fuel does not change a walk that has finished. *)
Lemma forEach_from_more_fuel fuel fuel' i r x :
  forEach_from entries visit fuel i r = Some x → fuel ≤ fuel' →
  forEach_from entries visit fuel' i r = Some x.
Proof.
  revert fuel' i r x. induction fuel as [|fuel IH]; intros fuel' i r x; [done|].
  intros Hw Hle. destruct fuel' as [|fuel']; [lia|]. simpl in *.
  destruct (entries r !! i) as [[e|]|]; [| |done].
  - destruct (visit e r) as [[] r'|]; [|done].
    destruct (forEach_from entries visit fuel (S i) r') as [[vs c]|] eqn:Hrec; [|done].
    by rewrite (IH fuel' (S i) r' (vs, c) Hrec) by lia.
  - apply IH; [done | lia].
Qed.

(** A stretch of entries whose callbacks return without touching [r] is
    simply walked through. *)
Lemma forEach_from_through pre : ∀ pre0 rest r fuel,
  entries r = pre0 ++ pre ++ rest →
  (∀ a, a ∈ live pre → visit a r = Normal tt r) →
  forEach_from entries visit (length pre + fuel) (length pre0) r
  = (λ x, (live pre ++ x.1, x.2))
      <$> forEach_from entries visit fuel (length pre0 + length pre) r.
Proof.
  induction pre as [|e pre IH]; intros pre0 rest r fuel Hd Hin.
  - simpl. rewrite Nat.add_0_r.
    by destruct (forEach_from entries visit fuel (length pre0) r) as [[]|].
  - assert (Hi : entries r !! length pre0 = Some e).
    { rewrite Hd. simpl. by rewrite list_lookup_middle. }
    assert (Hrec : forEach_from entries visit (length pre + fuel) (S (length pre0)) r
      = (λ x, (live pre ++ x.1, x.2))
          <$> forEach_from entries visit fuel (length pre0 + length (e :: pre)) r).
    { replace (S (length pre0)) with (length (pre0 ++ [e])) by (rewrite length_app; simpl; lia).
      replace (length pre0 + length (e :: pre)) with (length (pre0 ++ [e]) + length pre)
        by (rewrite length_app; simpl; lia).
      apply (IH (pre0 ++ [e]) rest).
      - by rewrite <- app_assoc.
      - intros a Ha. apply Hin. destruct e; simpl; [by right | done]. }
    simpl length at 1. simpl. rewrite Hi. destruct e as [a|].
    + rewrite (Hin a) by (simpl; by left). rewrite Hrec.
      by destruct (forEach_from entries visit fuel _ r) as [[]|].
    + by rewrite Hrec.
Qed.

(** If no callback touches [r] or throws, every element is visited, in
    insertion order. *)
Lemma forEach_quiet r fuel :
  (∀ a, Some a ∈ entries r → visit a r = Normal tt r) →
  length (entries r) < fuel →
  forEach entries visit fuel r = Some (live (entries r), Normal tt r).
Proof.
  intros Hq Hfuel. unfold forEach.
  replace fuel with (length (entries r) + (fuel - length (entries r))) by lia.
  rewrite (forEach_from_through (entries r) [] [] r); simpl.
  - destruct (fuel - length (entries r)) as [|k] eqn:Hk; [lia|]. simpl.
    rewrite lookup_ge_None_2 by lia. simpl. by rewrite app_nil_r.
  - by rewrite app_nil_r.
  - intros a Ha. apply Hq. by apply elem_of_live.
Qed.

(** The walk ends at the first callback that throws. *)
Lemma forEach_throw pre c post r e r' fuel :
  entries r = pre ++ Some c :: post →
  (∀ a, Some a ∈ pre → visit a r = Normal tt r) →
  visit c r = Throws e r' →
  length pre < fuel →
  forEach entries visit fuel r = Some (live pre ++ [c], Throws e r').
Proof.
  intros Hd Hq Hc Hfuel. unfold forEach.
  replace fuel with (length pre + (fuel - length pre)) by lia.
  rewrite (forEach_from_through pre [] (Some c :: post) r); simpl; [|done|].
  - destruct (fuel - length pre) as [|k] eqn:Hk; [lia|]. simpl.
    rewrite Hd, list_lookup_middle by done. by rewrite Hc.
  - intros a Ha. apply Hq. by apply elem_of_live.
Qed.

(** If callbacks never lengthen the entry list, the walk is over after at
    most one step per entry. *)
Lemma forEach_from_finishes fuel : ∀ i r,
  (∀ a r, length (entries (state_of (visit a r))) ≤ length (entries r)) →
  length (entries r) - i < fuel →
  is_Some (forEach_from entries visit fuel i r).
Proof.
  induction fuel as [|fuel IH]; intros i r Hlen Hfuel; simpl.
  - lia.
  - destruct (entries r !! i) as [[e|]|] eqn:Hi; [| |done].
    + pose proof (Hlen e r) as Hle. apply lookup_lt_Some in Hi.
      destruct (visit e r) as [[] r1|]; [|done]. simpl in Hle.
      destruct (IH (S i) r1 Hlen) as [[vs c] ->]; [lia | done].
    + apply lookup_lt_Some in Hi. apply IH; [done | lia].
Qed.

(** Callbacks that only empty entries: the walk finishes normally, visits
    no element twice, and visits every element that is still there at
    the end. *)
Lemma forEach_from_emptying fuel : ∀ i r,
  (∀ a r, ∃ r', visit a r = Normal tt r' ∧ emptied (entries r) (entries r')) →
  length (entries r) - i < fuel →
  ∃ vs r', forEach_from entries visit fuel i r = Some (vs, Normal tt r')
    ∧ emptied (entries r) (entries r')
    ∧ vs `sublist_of` live (drop i (entries r))
    ∧ ∀ a, Some a ∈ drop i (entries r') → a ∈ vs.
Proof.
  induction fuel as [|fuel IH]; intros i r Hvisit Hfuel; simpl.
  - lia.
  - destruct (entries r !! i) as [[e|]|] eqn:Hi.
    + destruct (Hvisit e r) as (r1 & -> & He1).
      destruct (IH (S i) r1 Hvisit) as (vs & r' & -> & He2 & Hsub & Hall).
      { rewrite <- (emptied_length _ _ He1). apply lookup_lt_Some in Hi. lia. }
      exists (e :: vs), r'. split_and!; [done | by eapply emptied_trans | |].
      * rewrite (drop_S _ _ _ Hi). simpl. apply sublist_skip.
        etrans; [exact Hsub|]. apply emptied_live. by apply emptied_drop.
      * intros a Ha.
        assert (Hi' : entries r' !! i = Some (Some e) ∨ entries r' !! i = Some None).
        { apply (emptied_lookup (entries r) (entries r') i (Some e)); [|done].
          by apply (emptied_trans _ (entries r1)). }
        destruct Hi' as [Hi'|Hi']; rewrite (drop_S _ _ _ Hi') in Ha;
          apply elem_of_cons in Ha as [Ha|Ha]; simplify_eq;
          first [by left | right; by apply Hall].
    + destruct (IH (S i) r Hvisit) as (vs & r' & -> & He2 & Hsub & Hall).
      { apply lookup_lt_Some in Hi. lia. }
      exists vs, r'. split_and!; [done | done | |].
      * by rewrite (drop_S _ _ _ Hi).
      * intros a Ha.
        destruct (emptied_lookup _ _ _ _ He2 Hi) as [Hi'|Hi'];
          rewrite (drop_S _ _ _ Hi') in Ha;
          apply elem_of_cons in Ha as [Ha|Ha]; simplify_eq; by apply Hall.
    + exists [], r. split_and!; [done | apply emptied_refl | apply sublist_nil_l |].
      intros a Ha. rewrite drop_ge in Ha by (by apply lookup_ge_None).
      by apply elem_of_nil in Ha.
Qed.
End for_each_facts.

(** ** Sets *)

Section set_facts.
Context {A : Type} `{EqDecision A}.
Implicit Types (d : SetData A) (x : A).

Lemma set_has_true x d : set_has x d = true ↔ Some x ∈ d.
Proof. unfold set_has. by rewrite bool_decide_eq_true. Qed.

Lemma set_add_elem x d : Some x ∈ set_add x d.
Proof.
  unfold set_add. destruct (set_has x d) eqn:Hhas.
  - by apply set_has_true.
  - apply elem_of_app. right. by apply list_elem_of_singleton.
Qed.

Lemma set_add_idemp x d : set_add x (set_add x d) = set_add x d.
Proof.
  unfold set_add at 1.
  by rewrite (proj2 (set_has_true x (set_add x d)) (set_add_elem x d)).
Qed.

Lemma set_add_wf x d : set_wf d → set_wf (set_add x d).
Proof.
  unfold set_wf, set_add. intros Hwf. destruct (set_has x d) eqn:Hhas; [done|].
  rewrite live_app. simpl. apply NoDup_app. split_and!; [done | | apply NoDup_singleton].
  intros y Hy Hy'. apply list_elem_of_singleton in Hy' as ->.
  apply elem_of_live in Hy. apply set_has_true in Hy. congruence.
Qed.

Lemma set_delete_emptied x d : emptied d (set_delete x d).
Proof.
  unfold emptied, set_delete. induction d as [|e d IH]; simpl; constructor; [|done].
  case_decide; auto.
Qed.

Lemma delete_all_emptied targets : ∀ d, emptied d (delete_all targets d).
Proof.
  induction targets as [|x targets IH]; intros d; simpl.
  - apply emptied_refl.
  - eapply emptied_trans; [apply (set_delete_emptied x) | apply IH].
Qed.

Lemma emptied_wf d d' : emptied d d' → set_wf d → set_wf d'.
Proof. intros He Hwf. apply (sublist_NoDup _ (live d)); [done | by apply emptied_live]. Qed.

(** In a list without repetitions, the calls made to one element are one
    call. *)
Lemma calls_once {T} (data : T) (vs : list A) x :
  NoDup vs → x ∈ vs →
  filter (λ c : A * T, c.1 = x) ((λ y, (y, data)) <$> vs) = [(x, data)].
Proof.
  induction 1 as [|y vs Hy Hnd IH]; intros Hin; [by apply elem_of_nil in Hin|].
  simpl. rewrite filter_cons. simpl. case_decide as Hyx.
  - subst y. f_equal. clear IH Hin. induction vs as [|z vs IH]; [done|].
    simpl. rewrite filter_cons. simpl. apply not_elem_of_cons in Hy as [Hne Hy].
    apply NoDup_cons in Hnd as [_ Hnd]. case_decide; [congruence | by apply IH].
  - apply elem_of_cons in Hin as [->|Hin]; [done | by apply IH].
Qed.
End set_facts.

(** In a list without repetitions, what comes after an entry is not
    among the entries up to it. *)
Lemma later_not_among_earlier {A} (pre post : list (option A)) (c c' : A) :
  NoDup (live (pre ++ Some c :: post)) → Some c' ∈ post → c' ∉ live pre ++ [c].
Proof.
  rewrite live_app. simpl. rewrite cons_middle, (assoc_L (++)).
  intros Hnd Hin Hin'. apply NoDup_app in Hnd as (_ & Hdisj & _).
  apply (Hdisj c' Hin'). by apply elem_of_live.
Qed.

(** ** ObservableStore *)

Section store_facts.
Import ObservableStore.
Context {T : Type}.
Implicit Types (s : store T) (o : Observer).

Lemma notify_quiet update fuel data s :
  (∀ o, Some o ∈ observers s → update o data (observers s) = Normal tt (observers s)) →
  length (observers s) < fuel →
  notify update fuel data s = Some ((λ o, (o, data)) <$> live (observers s), Normal tt s).
Proof.
  intros Hq Hfuel. unfold notify.
  rewrite (forEach_quiet id (λ o, update o data) (observers s) fuel Hq Hfuel).
  simpl. by destruct s.
Qed.
End store_facts.

(** C8: [subscribe] calls the new observer's [update] exactly once, with the
    current state, as part of the [subscribe] call itself: the calls made by
    [subscribe] are the single call [observer.update(getState())], whatever
    the observer set was and whatever [update] does; the observer is in the
    set when it is called, and the state is not changed. *)
Theorem subscribe_replays_current_state {T : Type}
    (update : ObservableStore.Observer → T → SetData ObservableStore.Observer →
              completion (SetData ObservableStore.Observer) unit)
    (observer : ObservableStore.Observer) (s : ObservableStore.store T) :
  (ObservableStore.subscribe update observer s).1 = [(observer, ObservableStore.getState s)]
  ∧ (ObservableStore.subscribe update observer s).2
    = ObservableStore.with_observers s
        (update observer (ObservableStore.getState s)
           (set_add observer (ObservableStore.observers s)))
  ∧ Some observer ∈ set_add observer (ObservableStore.observers s)
  ∧ ObservableStore.getState (state_of (ObservableStore.subscribe update observer s).2)
    = ObservableStore.getState s.
Proof.
  unfold ObservableStore.subscribe, ObservableStore.getState. simpl.
  split_and!; [done | done | apply set_add_elem |].
  by destruct (update _ _ _).
Qed.

(** C4: when the function passed to [setState] throws, [setState] throws the
    same exception, makes no call to any observer and leaves the store (state
    and observer set) as it was. *)
Theorem setState_producer_throws {T : Type} `{StrictEquality T}
    (update : ObservableStore.Observer → T → SetData ObservableStore.Observer →
              completion (SetData ObservableStore.Observer) unit)
    (fuel : nat) (f : T → ObservableStore.result T)
    (s : ObservableStore.store T) (e : exn) :
  f (ObservableStore.state s) = ObservableStore.Raises e →
  ObservableStore.setState update fuel (ObservableStore.Producer f) s
  = Some ([], Throws e s).
Proof. intros Hf. unfold ObservableStore.setState. simpl. by rewrite Hf. Qed.

Lemma setState_producer_throws_witness :
  ObservableStore.setState Scenario.quiet_update 0
    (ObservableStore.Producer (λ _, ObservableStore.Raises "boom"))
    Scenario.counter_store
  = Some ([], Throws "boom" Scenario.counter_store).
Proof. apply setState_producer_throws. reflexivity. Defined.

(** C3, as stated, fails in its second half: a change of state does not
    reach every registered observer when one of them throws.  In the
    counter store, with observers 1 and 2 registered in this order and
    observer 1 throwing, [setState(1)] stores the new state and calls
    observer 1; observer 2 is registered and is not called. *)
Lemma setState_every_subscriber_counterexample :
  strict_equal 1%Z (ObservableStore.state Scenario.counter_store) = false
  ∧ ObservableStore.observers Scenario.counter_store = [Some 1; Some 2]
  ∧ ObservableStore.setState Fixture.throwing_update 3 (ObservableStore.Literal 1%Z)
      Scenario.counter_store
    = Some ([(1, 1%Z)],
            Throws "boom" {| ObservableStore.observers := [Some 1; Some 2];
                             ObservableStore.state := 1%Z |}).
Proof. split_and!; reflexivity. Qed.

(** C3, amended: [setState] notifies exactly when the value it stores is
    not [===] to the previous state (NaN is not [===] to itself, so
    storing NaN over NaN notifies).  If the computed value is [===] to the
    previous state, it is stored and no [update] is called.  If it is
    not, the new value is stored and the observer set is walked in
    insertion order, [update] being called with the new value and with
    nothing else: when every [update] returns and leaves the observer set
    alone, [update] is called on every registered observer, on each
    exactly once; an [update] that throws ends the pass with its
    exception, so that the observers after it are not called. *)
Theorem setState_notifies_iff_changed {T : Type} `{StrictEquality T}
    (update : ObservableStore.Observer → T → SetData ObservableStore.Observer →
              completion (SetData ObservableStore.Observer) unit)
    (fuel : nat) (newState : ObservableStore.SetStateArg T)
    (s : ObservableStore.store T) (v : T) :
  ObservableStore.next_state newState (ObservableStore.state s) = ObservableStore.Returns v →
  let s' := {| ObservableStore.observers := ObservableStore.observers s;
               ObservableStore.state := v |} in
  let calls := (λ o, (o, v)) <$> live (ObservableStore.observers s) in
  (strict_equal v (ObservableStore.state s) = true →
     ObservableStore.setState update fuel newState s = Some ([], Normal tt s'))
  ∧ (strict_equal v (ObservableStore.state s) = false →
     (∀ made c,
        ObservableStore.setState update fuel newState s = Some (made, c) →
        ObservableStore.getState (state_of c) = v
        ∧ ∀ o d, (o, d) ∈ made → d = v)
     ∧ ((∀ o, Some o ∈ ObservableStore.observers s →
           update o v (ObservableStore.observers s) = Normal tt (ObservableStore.observers s)) →
        length (ObservableStore.observers s) < fuel →
        ObservableStore.setState update fuel newState s = Some (calls, Normal tt s')
        ∧ (set_wf (ObservableStore.observers s) →
           ∀ o, Some o ∈ ObservableStore.observers s →
             filter (λ c : ObservableStore.Observer * T, c.1 = o) calls = [(o, v)]))
     ∧ (∀ pre o post e r',
          ObservableStore.observers s = pre ++ Some o :: post →
          (∀ o', Some o' ∈ pre →
             update o' v (ObservableStore.observers s)
             = Normal tt (ObservableStore.observers s)) →
          update o v (ObservableStore.observers s) = Throws e r' →
          length pre < fuel →
          ObservableStore.setState update fuel newState s
          = Some ((λ o, (o, v)) <$> (live pre ++ [o]),
                  Throws e {| ObservableStore.observers := r';
                              ObservableStore.state := v |})
          ∧ (set_wf (ObservableStore.observers s) →
             ∀ o', Some o' ∈ post → o' ∉ live pre ++ [o]))).
Proof.
  intros Hv s' calls. unfold ObservableStore.setState. rewrite Hv.
  cbn [ObservableStore.state ObservableStore.observers]. fold s'. split.
  - by intros ->.
  - intros ->. cbn [negb]. split_and!.
    + intros made c. unfold ObservableStore.notify.
      destruct (forEach _ _ _ _) as [[vs c0]|]; [|done].
      intros Hn. simplify_eq. split.
      * by destruct c0.
      * intros o d Hin. apply list_elem_of_fmap in Hin as (o' & Heq & _).
        by simplify_eq.
    + intros Hq Hfuel. split.
      * by rewrite (notify_quiet update fuel v s').
      * intros Hwf o Ho. apply calls_once; [done | by apply elem_of_live].
    + intros pre o post e r' Hd Hq Ho Hfuel. split.
      * unfold ObservableStore.notify.
        cbn [ObservableStore.state ObservableStore.observers s'].
        by rewrite (forEach_throw id (λ o, update o v) pre o post
                      (ObservableStore.observers s) e r' fuel Hd Hq Ho Hfuel).
      * rewrite Hd. intros Hwf o'. by apply later_not_among_earlier.
Qed.

Lemma setState_notifies_iff_changed_witness :
  ObservableStore.setState Fixture.silent_update 3
    (ObservableStore.Literal Fixture.NaN) Fixture.nan_store
  = Some ([(1, Fixture.NaN); (2, Fixture.NaN)], Normal tt Fixture.nan_store).
Proof.
  destruct (setState_notifies_iff_changed Fixture.silent_update 3
              (ObservableStore.Literal Fixture.NaN) Fixture.nan_store Fixture.NaN eq_refl)
    as [_ Hchanged].
  apply Hchanged; [reflexivity | reflexivity | simpl; lia].
Defined.

(** A state that is [===] to the one stored is stored without a
    notification; NaN is never that. *)
Example setState_same_value_example :
  ObservableStore.setState Scenario.quiet_update 3 (ObservableStore.Literal 0%Z)
    Scenario.counter_store
  = Some ([], Normal tt Scenario.counter_store)
  ∧ fst <$> ObservableStore.setState Fixture.silent_update 3
              (ObservableStore.Literal (Fixture.Finite 0)) Fixture.nan_store
    = Some [(1, Fixture.Finite 0); (2, Fixture.Finite 0)].
Proof. split; reflexivity. Qed.

(** C9, as stated, fails: [getState] hands out the stored reference itself.
    For the store created on the object [{count: 0}], the value returned is
    the state, and writing [count = 5] through it changes what the store's
    state holds. *)
Lemma getState_defensive_copy_counterexample :
  ObservableStore.getState Scenario.object_store
  = ObservableStore.state Scenario.object_store
  ∧ ObservableStore.read_field (ObservableStore.state Scenario.object_store)
      "count" Scenario.object_heap
    = Some (ObservableStore.JNum 0)
  ∧ ObservableStore.read_field (ObservableStore.state Scenario.object_store)
      "count"
      (ObservableStore.write_field
         (ObservableStore.getState Scenario.object_store) "count"
         (ObservableStore.JNum 5) Scenario.object_heap)
    = Some (ObservableStore.JNum 5).
Proof. split_and!; reflexivity. Qed.

(** C9, amended: [getState] returns the stored state value itself, with no
    copy: for an object state the result is the very reference the store
    holds, so a field written through the returned reference is read back
    through the store's state. *)
Theorem getState_returns_stored_state
    (s : ObservableStore.store ObservableStore.ref)
    (h : ObservableStore.heap) (k : string) (v : ObservableStore.jsvalue) :
  ObservableStore.getState s = ObservableStore.state s
  ∧ (is_Some (h !! ObservableStore.getState s) →
     ObservableStore.read_field (ObservableStore.state s) k
       (ObservableStore.write_field (ObservableStore.getState s) k v h)
     = Some v).
Proof.
  split; [done|]. intros [o Ho].
  unfold ObservableStore.read_field, ObservableStore.write_field,
    ObservableStore.getState, ObservableStore.heap, ObservableStore.ref in *.
  rewrite lookup_alter_eq, Ho. simpl. apply lookup_insert_eq.
Qed.

Lemma getState_returns_stored_state_witness :
  ObservableStore.read_field (ObservableStore.state Scenario.object_store) "count"
    (ObservableStore.write_field
       (ObservableStore.getState Scenario.object_store) "count"
       (ObservableStore.JNum 5) Scenario.object_heap)
  = Some (ObservableStore.JNum 5).
Proof.
  apply (getState_returns_stored_state Scenario.object_store Scenario.object_heap).
  vm_compute. eauto.
Defined.

(** ** EventEmitter *)

Section emitter_facts.
Import EventEmitter.
Implicit Types (em : emitter) (ev : string) (c : EventCallback).

Lemma listeners_wf ev em : emitter_wf em → set_wf (listeners ev em).
Proof.
  intros Hwf. unfold listeners, set_at.
  destruct (events em !! ev) as [l|] eqn:Hev; [|apply NoDup_nil_2].
  destruct (Hwf ev l Hev) as (d & -> & Hd). done.
Qed.

Lemma new_wf : emitter_wf new.
Proof. intros ev l Hev. simpl in Hev. by rewrite lookup_empty in Hev. Qed.

(** After [on], the Set of the event is the old one with the callback
    added, and the emitter is still well formed. *)
Lemma on_listeners ev c em :
  emitter_wf em →
  listeners ev (on ev c em).2 = set_add c (listeners ev em)
  ∧ emitter_wf (on ev c em).2.
Proof.
  intros Hwf. unfold on, listeners, set_at. simpl.
  destruct (events em !! ev) as [l|] eqn:Hev; simpl.
  - repeat (progress (rewrite ?Hev; simpl)). destruct (Hwf ev l Hev) as (d & Hl & Hd).
    rewrite list_lookup_alter_eq, Hl. split; [done|].
    intros ev' l' Hev'. simpl in *. rewrite list_lookup_alter. case_decide; subst.
    + rewrite Hl. simpl. eexists; split; [done|]. by apply set_add_wf.
    + by apply (Hwf ev').
  - repeat (progress (rewrite ?lookup_insert_eq; simpl)).
    rewrite list_lookup_alter_eq, list_lookup_middle by done. split; [done|].
    intros ev' l' Hev'. simpl in *. rewrite list_lookup_alter.
    apply lookup_insert_Some in Hev' as [[<- <-]|[Hne Hev']].
    + rewrite decide_True by done. rewrite list_lookup_middle by done. simpl.
      eexists; split; [done|]. apply set_add_wf, NoDup_nil_2.
    + destruct (Hwf ev' l' Hev') as (d & Hl & Hd).
      rewrite decide_False by (apply lookup_lt_Some in Hl; lia).
      rewrite lookup_app_l by (by eapply lookup_lt_Some). eauto.
Qed.

(** Registering again what was just registered changes nothing. *)
Lemma on_on ev c em : (on ev c (on ev c em).2).2 = (on ev c em).2.
Proof.
  assert (Hff : ∀ (l : nat) (L : list (SetData EventCallback)),
             alter (set_add c) l (alter (set_add c) l L) = alter (set_add c) l L).
  { intros l L. rewrite list_alter_alter_eq. apply list_alter_ext; [|done].
    intros d _. apply set_add_idemp. }
  unfold on. simpl. destruct (events em !! ev) as [l|] eqn:Hev; simpl.
  - repeat (progress (rewrite ?Hev; simpl)). by rewrite Hff.
  - repeat (progress (rewrite ?lookup_insert_eq; simpl)). by rewrite Hff.
Qed.

Lemma off_emptied l ev c em : emptied (set_at l em) (set_at l (off ev c em)).
Proof.
  unfold off, set_at. destruct (events em !! ev) as [l'|]; [|apply emptied_refl].
  simpl. rewrite list_lookup_alter. case_decide; [subst|apply emptied_refl].
  destruct (sets em !! l) as [d|]; simpl; [apply set_delete_emptied | apply emptied_refl].
Qed.

Lemma off_all_emptied l targets : ∀ em, emptied (set_at l em) (set_at l (off_all targets em)).
Proof.
  induction targets as [|t targets IH]; intros em; simpl.
  - apply emptied_refl.
  - eapply emptied_trans; [apply (off_emptied l t.1 t.2) | apply IH].
Qed.

Section with_body.
Context {T : Type}.
Variable body : EventCallback → T → emitter → completion emitter unit.

Lemma emit_quiet fuel ev (data : T) em :
  (∀ c, Some c ∈ listeners ev em → body c data em = Normal tt em) →
  length (listeners ev em) < fuel →
  emit body fuel ev data em
  = Some ((λ cb, (cb, data)) <$> live (listeners ev em), Normal tt em).
Proof.
  unfold emit, listeners. destruct (events em !! ev) as [l|]; [|done].
  intros Hq Hfuel.
  by rewrite (forEach_quiet (set_at l) (λ cb, body cb data) em fuel Hq Hfuel).
Qed.

Lemma emit_throw fuel ev (data : T) em pre c post e em' :
  listeners ev em = pre ++ Some c :: post →
  (∀ c', Some c' ∈ pre → body c' data em = Normal tt em) →
  body c data em = Throws e em' →
  length pre < fuel →
  emit body fuel ev data em
  = Some ((λ cb, (cb, data)) <$> (live pre ++ [c]), Throws e em').
Proof.
  unfold emit, listeners. destruct (events em !! ev) as [l|].
  - intros Hd Hq Hc Hfuel.
    by rewrite (forEach_throw (set_at l) (λ cb, body cb data)
                  pre c post em e em' fuel Hd Hq Hc Hfuel).
  - intros Hd. by destruct pre.
Qed.
End with_body.
End emitter_facts.

(** C7: registering the same callback a second time under the same event
    has no effect: the emitter is the same as after the first registration,
    so the listener count is the same and every [emit] behaves the same; and
    an [emit] on that event (with callbacks that return and leave the
    emitter alone) calls the callback exactly once. *)
Theorem on_twice_is_on_once {T : Type}
    (body : EventEmitter.EventCallback → T → EventEmitter.emitter →
            completion EventEmitter.emitter unit)
    (event : string) (callback : EventEmitter.EventCallback)
    (em : EventEmitter.emitter) :
  let once := (EventEmitter.on event callback em).2 in
  let twice := (EventEmitter.on event callback once).2 in
  twice = once
  ∧ EventEmitter.listenerCount event twice = EventEmitter.listenerCount event once
  ∧ (∀ fuel data, EventEmitter.emit body fuel event data twice
                  = EventEmitter.emit body fuel event data once)
  ∧ (EventEmitter.emitter_wf em → ∀ fuel data,
       (∀ c, Some c ∈ EventEmitter.listeners event twice →
             body c data twice = Normal tt twice) →
       length (EventEmitter.listeners event twice) < fuel →
       ∃ calls, EventEmitter.emit body fuel event data twice
                = Some (calls, Normal tt twice)
         ∧ filter (λ c : EventEmitter.EventCallback * T, c.1 = callback) calls
           = [(callback, data)]).
Proof.
  intros once twice.
  assert (Heq : twice = once) by apply on_on.
  split_and!; [done | by rewrite Heq | by rewrite Heq |].
  intros Hwf fuel data Hq Hfuel. eexists. split; [by apply emit_quiet|].
  rewrite Heq. destruct (on_listeners event callback em Hwf) as [Hl Hwf'].
  apply calls_once.
  - by apply listeners_wf.
  - apply elem_of_live. fold once. unfold once at 1. rewrite Hl. apply set_add_elem.
Qed.

Lemma on_twice_is_on_once_witness :
  ∃ calls,
    EventEmitter.emit Scenario.quiet_body 3 "test" 7%Z
      (EventEmitter.on "test" 2 Scenario.two_listeners).2
    = Some (calls, Normal tt (EventEmitter.on "test" 2 Scenario.two_listeners).2)
    ∧ filter (λ c : EventEmitter.EventCallback * Z, c.1 = 2) calls = [(2, 7%Z)].
Proof.
  apply (on_twice_is_on_once Scenario.quiet_body "test" 2
           (EventEmitter.on "test" 1 EventEmitter.new).2).
  - apply on_listeners, new_wf.
  - reflexivity.
  - vm_compute. lia.
Defined.

(** ** Unsubscribing during delivery *)

(** What every callback preserves still holds when the walk is over. *)
Lemma forEach_from_invariant {R A : Type} (entries : R → list (option A))
    (visit : A → R → completion R unit) (P : R → Prop) fuel : ∀ i r vs c,
  (∀ a r, P r → P (state_of (visit a r))) →
  P r →
  forEach_from entries visit fuel i r = Some (vs, c) →
  P (state_of c).
Proof.
  induction fuel as [|fuel IH]; intros i r vs c Hpres HP Hw; [done|]. simpl in Hw.
  destruct (entries r !! i) as [[e|]|].
  - pose proof (Hpres e r HP) as HP'.
    destruct (visit e r) as [[] r1|x r1]; simpl in HP'.
    + destruct (forEach_from entries visit fuel (S i) r1) as [[vs' c']|] eqn:Hrec; [|done].
      simplify_eq. by eapply IH.
    + by simplify_eq.
  - by eapply IH.
  - by simplify_eq.
Qed.

Lemma off_all_events targets : ∀ em,
  EventEmitter.events (EventEmitter.off_all targets em) = EventEmitter.events em.
Proof.
  induction targets as [|t targets IH]; intros em; simpl; [done|].
  rewrite IH. unfold EventEmitter.off. by destruct (EventEmitter.events em !! t.1).
Qed.

(** [emit] with callbacks that only unsubscribe. *)
Lemma emit_unsubscribing {T : Type}
    (body : EventEmitter.EventCallback → T → EventEmitter.emitter →
            completion EventEmitter.emitter unit)
    fuel ev (data : T) em :
  (∀ c d em, ∃ targets, body c d em = Normal tt (EventEmitter.off_all targets em)) →
  length (EventEmitter.listeners ev em) < fuel →
  ∃ visited em',
    EventEmitter.emit body fuel ev data em
    = Some ((λ cb, (cb, data)) <$> visited, Normal tt em')
    ∧ emptied (EventEmitter.listeners ev em) (EventEmitter.listeners ev em')
    ∧ visited `sublist_of` live (EventEmitter.listeners ev em)
    ∧ ∀ c, Some c ∈ EventEmitter.listeners ev em' → c ∈ visited.
Proof.
  intros Hbody Hfuel. unfold EventEmitter.emit, EventEmitter.listeners in *.
  destruct (EventEmitter.events em !! ev) as [l|] eqn:Hev.
  - destruct (forEach_from_emptying (EventEmitter.set_at l) (λ cb, body cb data) fuel 0 em)
      as (vs & em' & Hw & Hem & Hsub & Hall).
    { intros c em0. destruct (Hbody c data em0) as [targets ->].
      eexists; split; [done|]. apply off_all_emptied. }
    { lia. }
    assert (Hev' : EventEmitter.events em' = EventEmitter.events em).
    { apply (forEach_from_invariant (EventEmitter.set_at l) (λ cb, body cb data)
               (λ em0, EventEmitter.events em0 = EventEmitter.events em)
               fuel 0 em vs (Normal tt em')); [|done|done].
      intros c em0 H0. destruct (Hbody c data em0) as [targets ->]. simpl.
      by rewrite off_all_events. }
    unfold forEach. rewrite Hw. exists vs, em'. rewrite Hev', Hev. done.
  - exists [], em. rewrite Hev. split_and!; [done | apply emptied_refl | done |].
    intros c Hc. by apply elem_of_nil in Hc.
Qed.

(** [notify] with observers that only unsubscribe. *)
Lemma notify_unsubscribing {T : Type}
    (update : ObservableStore.Observer → T → SetData ObservableStore.Observer →
              completion (SetData ObservableStore.Observer) unit)
    fuel (data : T) (s : ObservableStore.store T) :
  (∀ o d r, ∃ targets, update o d r = Normal tt (delete_all targets r)) →
  length (ObservableStore.observers s) < fuel →
  ∃ visited s',
    ObservableStore.notify update fuel data s
    = Some ((λ o, (o, data)) <$> visited, Normal tt s')
    ∧ ObservableStore.state s' = ObservableStore.state s
    ∧ emptied (ObservableStore.observers s) (ObservableStore.observers s')
    ∧ visited `sublist_of` live (ObservableStore.observers s)
    ∧ ∀ o, Some o ∈ ObservableStore.observers s' → o ∈ visited.
Proof.
  intros Hupd Hfuel. unfold ObservableStore.notify.
  destruct (forEach_from_emptying id (λ o, update o data) fuel 0 (ObservableStore.observers s))
    as (vs & r' & Hw & Hem & Hsub & Hall).
  { intros o r. destruct (Hupd o data r) as [targets ->].
    eexists; split; [done|]. apply delete_all_emptied. }
  { simpl. lia. }
  unfold forEach. rewrite Hw. simpl.
  exists vs, {| ObservableStore.observers := r'; ObservableStore.state := ObservableStore.state s |}.
  done.
Qed.

(** Callback 1 unsubscribes callback 2 before its turn: 1 and 3 are
    called, 2 is not. *)
Example emit_unsubscribing_example :
  EventEmitter.emit Scenario.unsubscribing_body 4 "test" 7%Z Scenario.three_listeners
  = Some ([(1, 7%Z); (3, 7%Z)],
          Normal tt (EventEmitter.off "test" 2 Scenario.three_listeners)).
Proof. reflexivity. Qed.

(** The walk is over the Set object itself.  Callback 1 removes the event
    from the map while the Set is being walked: callbacks 2 and 3 are still
    called, and callback 4, which callback 2 registers for the event, lands
    in a new Set and is not called in this pass. *)
Example emit_rewiring_example :
  (λ r, (r.1, EventEmitter.listeners "test" (state_of r.2)))
    <$> EventEmitter.emit Scenario.rewiring_body 4 "test" 7%Z Scenario.three_listeners
  = Some ([(1, 7%Z); (2, 7%Z); (3, 7%Z)], [Some 4]).
Proof. reflexivity. Qed.

(** The store's life in short: subscribing replays the state, a change
    notifies, and after [unsubscribe] a change notifies nobody. *)
Example store_end_to_end_example :
  let s0 := ObservableStore.create 0%Z in
  let r1 := ObservableStore.subscribe Scenario.quiet_update 1 s0 in
  let r2 := ObservableStore.setState Scenario.quiet_update 2
              (ObservableStore.Producer Scenario.increment) (state_of r1.2) in
  let s3 := ObservableStore.unsubscribe 1 <$> (state_of <$> (snd <$> r2)) in
  let r4 := s3 ≫= ObservableStore.setState Scenario.quiet_update 2
                    (ObservableStore.Producer Scenario.increment) in
  r1.1 = [(1, 0%Z)]
  ∧ fst <$> r2 = Some [(1, 1%Z)]
  ∧ fst <$> r4 = Some []
  ∧ ObservableStore.getState <$> (state_of <$> (snd <$> r4)) = Some 2%Z.
Proof. split_and!; reflexivity. Qed.

(** ** NewsPublisher *)

Section publisher_facts.
Import NewsPublisher.
Variable onNews_body :
  nat → NewsArticle.t → MapData string NewsSubscriber.t →
  completion (MapData string NewsSubscriber.t) unit.
Implicit Types (p : publisher) (article : ArticleInput.t).

(** The walk of [publish], seen from the subscriber map: the calls it
    records are those to the interested subscribers among the entries it
    visits. *)
Lemma deliver_walk article a fuel :
  ∀ i (r : list (option (string * NewsSubscriber.t))) calls,
  forEach_from fst (deliver onNews_body article a) fuel i (r, calls)
  = (λ x : list (string * NewsSubscriber.t)
           * completion (MapData string NewsSubscriber.t) unit,
       (x.1,
        match x.2 with
        | Normal _ r' => Normal tt (r', calls ++ calls_for article a x.1)
        | Throws e r' => Throws e (r', calls ++ calls_for article a x.1)
        end))
    <$> forEach_from id (λ (entry : string * NewsSubscriber.t) (r : MapData string NewsSubscriber.t),
                 if interested entry.2 (ArticleInput.category article)
                 then onNews_body (NewsSubscriber.onNews entry.2) a r
                 else Normal tt r) fuel i r.
Proof.
  assert (Hyes : ∀ entry vs,
            interested entry.2 (ArticleInput.category article) = true →
            calls_for article a (entry :: vs) = (entry.2, a) :: calls_for article a vs).
  { intros entry vs Hint. unfold calls_for. rewrite filter_cons.
    by rewrite decide_True by done. }
  assert (Hno : ∀ entry vs,
            interested entry.2 (ArticleInput.category article) = false →
            calls_for article a (entry :: vs) = calls_for article a vs).
  { intros entry vs Hint. unfold calls_for. rewrite filter_cons.
    by rewrite decide_False by (rewrite Hint; discriminate). }
  induction fuel as [|fuel IH]; intros i r calls; [done|].
  cbn [forEach_from fst id].
  destruct (r !! i) as [[entry|]|] eqn:Hi; cbn [fmap option_fmap option_map].
  - unfold deliver. cbn [fst snd].
    destruct (interested entry.2 (ArticleInput.category article)) eqn:Hint.
    + destruct (onNews_body (NewsSubscriber.onNews entry.2) a r) as [[] r'|e r'].
      * rewrite IH.
        match goal with
        | |- context [forEach_from id ?v fuel (S i) r'] =>
            destruct (forEach_from id v fuel (S i) r') as [[vs c]|]; [|done]
        end.
        cbn [fmap option_fmap option_map fst snd].
        rewrite (Hyes entry vs Hint), <- (assoc_L (++)). by destruct c.
      * cbn [fmap option_fmap option_map fst snd]. by rewrite (Hyes entry [] Hint).
    + rewrite IH.
      match goal with
      | |- context [forEach_from id ?v fuel (S i) r] =>
          destruct (forEach_from id v fuel (S i) r) as [[vs c]|]; [|done]
      end.
      cbn [fmap option_fmap option_map fst snd].
      rewrite (Hno entry vs Hint). by destruct c.
  - apply IH.
  - cbn [fmap option_fmap option_map fst snd]. unfold calls_for.
    by rewrite filter_nil, app_nil_r.
Qed.

Lemma publish_unfold fuel now article p :
  publish onNews_body fuel now article p
  = match forEach id (λ (entry : string * NewsSubscriber.t) (r : MapData string NewsSubscriber.t),
                 if interested entry.2 (ArticleInput.category article)
                 then onNews_body (NewsSubscriber.onNews entry.2) (newArticle article now p) r
                 else Normal tt r) fuel (subscribers p) with
    | Some (visited, c) =>
        Some (calls_for article (newArticle article now p) visited,
              match c with
              | Normal _ r => Normal (newArticle article now p) (logged article now p r)
              | Throws e r => Throws e (logged article now p r)
              end)
    | None => None
    end.
Proof.
  unfold publish, forEach. cbn [subscribers articles articleIdCounter].
  rewrite deliver_walk.
  destruct (forEach_from id _ fuel 0 (subscribers p)) as [[vs [[] r|e r]]|]; done.
Qed.

(** Whatever the callbacks do, and whether or not one throws, the article
    is in the log and the counter has advanced when [publish] completes. *)
Lemma publish_log fuel now article p calls c :
  publish onNews_body fuel now article p = Some (calls, c) →
  ∃ r, c = Normal (newArticle article now p) (logged article now p r)
       ∨ ∃ e, c = Throws e (logged article now p r).
Proof.
  rewrite publish_unfold.
  destruct (forEach _ _ _ _) as [[vs [[] r|e r]]|]; intros Hp; simplify_eq;
    exists r; eauto.
Qed.

Lemma publish_quiet fuel now article p :
  (∀ k sub, Some (k, sub) ∈ subscribers p →
     interested sub (ArticleInput.category article) = true →
     onNews_body (NewsSubscriber.onNews sub) (newArticle article now p) (subscribers p)
     = Normal tt (subscribers p)) →
  length (subscribers p) < fuel →
  publish onNews_body fuel now article p
  = Some (calls_for article (newArticle article now p) (live (subscribers p)),
          Normal (newArticle article now p) (logged article now p (subscribers p))).
Proof.
  intros Hq Hfuel. rewrite publish_unfold.
  rewrite (forEach_quiet id (λ (entry : string * NewsSubscriber.t) (r : MapData string NewsSubscriber.t),
                 if interested entry.2 (ArticleInput.category article)
                 then onNews_body (NewsSubscriber.onNews entry.2) (newArticle article now p) r
                 else Normal tt r)
             (subscribers p) fuel); [done| |done].
  intros [k sub] Hin. simpl.
  destruct (interested sub _) eqn:Hint; [by eapply Hq | done].
Qed.

Lemma publish_throw fuel now article p pre k sub post e r' :
  subscribers p = pre ++ Some (k, sub) :: post →
  (∀ k' sub', Some (k', sub') ∈ pre →
     interested sub' (ArticleInput.category article) = true →
     onNews_body (NewsSubscriber.onNews sub') (newArticle article now p) (subscribers p)
     = Normal tt (subscribers p)) →
  interested sub (ArticleInput.category article) = true →
  onNews_body (NewsSubscriber.onNews sub) (newArticle article now p) (subscribers p)
  = Throws e r' →
  length pre < fuel →
  publish onNews_body fuel now article p
  = Some (calls_for article (newArticle article now p) (live pre)
            ++ [(sub, newArticle article now p)],
          Throws e (logged article now p r')).
Proof.
  intros Hd Hq Hint Hthrow Hfuel. rewrite publish_unfold.
  rewrite (forEach_throw id (λ (entry : string * NewsSubscriber.t) (r : MapData string NewsSubscriber.t),
                 if interested entry.2 (ArticleInput.category article)
                 then onNews_body (NewsSubscriber.onNews entry.2) (newArticle article now p) r
                 else Normal tt r)
             pre (k, sub) post (subscribers p) e r' fuel); [|done| | |done].
  - unfold calls_for. rewrite filter_app, fmap_app. f_equal.
    rewrite filter_cons. simpl. by rewrite decide_True.
  - intros [k' sub'] Hin. simpl.
    destruct (interested sub' _) eqn:Hint'; [by eapply Hq | done].
  - simpl. by rewrite Hint.
Qed.
End publisher_facts.

(** ** A throwing callback *)

(** C1, as stated, fails: nothing isolates the callbacks from one another.
    With callbacks 1 and 2 registered for "test", in this order, and
    callback 1 throwing, [emit] throws after the call to 1: callback 2 is
    registered and is not called. *)
Lemma throw_aborts_delivery_counterexample :
  EventEmitter.listenerCount "test" Scenario.two_listeners = 2
  ∧ EventEmitter.listeners "test" Scenario.two_listeners = [Some 1; Some 2]
  ∧ EventEmitter.emit Scenario.throwing_body 3 "test" 7%Z Scenario.two_listeners
    = Some ([(1, 7%Z)], Throws "boom" Scenario.two_listeners).
Proof. split_and!; reflexivity. Qed.

(** C1, amended: a callback that throws during delivery ends the pass, and
    the exception reaches the caller of [emit], [setState] or [publish].
    When the subscribers before it (in insertion order) have returned
    without touching the registry, the calls of the pass are the calls to
    them and to the throwing one; the subscribers after it are not called.
    The producer's state is not affected by the exception: the store holds
    the new state, and the publisher's log holds the new article and its
    counter has advanced. *)
Theorem throw_ends_delivery {T : Type} `{StrictEquality T}
    (body : EventEmitter.EventCallback → T → EventEmitter.emitter →
            completion EventEmitter.emitter unit)
    (update : ObservableStore.Observer → T → SetData ObservableStore.Observer →
              completion (SetData ObservableStore.Observer) unit)
    (onNews_body : nat → NewsArticle.t → MapData string NewsSubscriber.t →
                   completion (MapData string NewsSubscriber.t) unit)
    (fuel : nat) (e : exn) :
  (∀ event (data : T) em pre c post em',
     EventEmitter.listeners event em = pre ++ Some c :: post →
     (∀ c', Some c' ∈ pre → body c' data em = Normal tt em) →
     body c data em = Throws e em' →
     length pre < fuel →
     EventEmitter.emit body fuel event data em
     = Some ((λ cb, (cb, data)) <$> (live pre ++ [c]), Throws e em')
     ∧ (set_wf (EventEmitter.listeners event em) →
        ∀ c', Some c' ∈ post → c' ∉ live pre ++ [c]))
  ∧ (∀ newState (s : ObservableStore.store T) v pre o post r',
     ObservableStore.next_state newState (ObservableStore.state s)
     = ObservableStore.Returns v →
     strict_equal v (ObservableStore.state s) = false →
     ObservableStore.observers s = pre ++ Some o :: post →
     (∀ o', Some o' ∈ pre →
        update o' v (ObservableStore.observers s) = Normal tt (ObservableStore.observers s)) →
     update o v (ObservableStore.observers s) = Throws e r' →
     length pre < fuel →
     ObservableStore.setState update fuel newState s
     = Some ((λ o, (o, v)) <$> (live pre ++ [o]),
             Throws e {| ObservableStore.observers := r'; ObservableStore.state := v |})
     ∧ (set_wf (ObservableStore.observers s) →
        ∀ o', Some o' ∈ post → o' ∉ live pre ++ [o]))
  ∧ (∀ now article p pre k sub post r',
     NewsPublisher.subscribers p = pre ++ Some (k, sub) :: post →
     (∀ k' sub', Some (k', sub') ∈ pre →
        NewsPublisher.interested sub' (ArticleInput.category article) = true →
        onNews_body (NewsSubscriber.onNews sub')
          (NewsPublisher.newArticle article now p) (NewsPublisher.subscribers p)
        = Normal tt (NewsPublisher.subscribers p)) →
     NewsPublisher.interested sub (ArticleInput.category article) = true →
     onNews_body (NewsSubscriber.onNews sub)
       (NewsPublisher.newArticle article now p) (NewsPublisher.subscribers p)
     = Throws e r' →
     length pre < fuel →
     NewsPublisher.publish onNews_body fuel now article p
     = Some (NewsPublisher.calls_for article (NewsPublisher.newArticle article now p)
               (live pre ++ [(k, sub)]),
             Throws e
               {| NewsPublisher.subscribers := r';
                  NewsPublisher.articles :=
                    NewsPublisher.articles p ++ [NewsPublisher.newArticle article now p];
                  NewsPublisher.articleIdCounter :=
                    (NewsPublisher.articleIdCounter p + 1)%Z |})
     ∧ (map_wf (NewsPublisher.subscribers p) →
        ∀ entry, Some entry ∈ post → entry ∉ live pre ++ [(k, sub)])).
Proof.
  split_and!.
  - intros event data em pre c post em' Hd Hq Hc Hfuel. split.
    + by eapply emit_throw.
    + rewrite Hd. intros Hwf c'. by apply later_not_among_earlier.
  - intros newState s v pre o post r' Hv Hne Hd Hq Ho Hfuel. split.
    + unfold ObservableStore.setState. rewrite Hv.
      cbn [ObservableStore.state ObservableStore.observers].
      rewrite Hne. cbn [negb]. unfold ObservableStore.notify.
      cbn [ObservableStore.state ObservableStore.observers].
      by rewrite (forEach_throw id (λ o, update o v) pre o post
                    (ObservableStore.observers s) e r' fuel Hd Hq Ho Hfuel).
    + rewrite Hd. intros Hwf c'. by apply later_not_among_earlier.
  - intros now article p pre k sub post r' Hd Hq Hint Hthrow Hfuel. split.
    + rewrite (publish_throw onNews_body fuel now article p pre k sub post e r'
                 Hd Hq Hint Hthrow Hfuel).
      unfold NewsPublisher.calls_for, NewsPublisher.logged.
      rewrite filter_app, fmap_app, filter_cons. simpl. by rewrite decide_True.
    + rewrite Hd. intros Hwf c'. apply later_not_among_earlier.
      by apply (NoDup_fmap_1 fst).
Qed.

Lemma throw_ends_delivery_witness :
  EventEmitter.emit Scenario.throwing_body 3 "test" 7%Z Scenario.two_listeners
  = Some ((λ cb, (cb, 7%Z)) <$> (live [] ++ [1]), Throws "boom" Scenario.two_listeners)
  ∧ (set_wf (EventEmitter.listeners "test" Scenario.two_listeners) →
     ∀ c', Some c' ∈ [Some 2] → c' ∉ live [] ++ [1]).
Proof.
  apply (proj1 (throw_ends_delivery Scenario.throwing_body Scenario.quiet_update
                  Scenario.quiet_onNews 3 "boom")
           "test" 7%Z Scenario.two_listeners [] 1 [Some 2] Scenario.two_listeners).
  - reflexivity.
  - intros c' Hc'. by apply elem_of_nil in Hc'.
  - reflexivity.
  - simpl. lia.
Defined.

(** ** Maps *)

Section map_facts.
Context {K V : Type} `{EqDecision K}.
Implicit Types (d : MapData K V) (k : K) (v : V).

Lemma map_has_true k d : map_has k d = true ↔ ∃ v, Some (k, v) ∈ d.
Proof.
  unfold map_has. rewrite existsb_exists. split.
  - intros ([[k' v]|] & Hin & Hk); [|done]. simpl in Hk.
    apply bool_decide_eq_true in Hk as ->. exists v. by apply list_elem_of_In.
  - intros [v Hin]. exists (Some (k, v)). split; [by apply list_elem_of_In|].
    simpl. by apply bool_decide_eq_true.
Qed.

(** [set] on a key that is present: the entries of that key now hold the
    new value, the others are as before. *)
Lemma map_set_present k v d k' v' :
  map_has k d = true →
  Some (k', v') ∈ map_set k v d
  ↔ (k' = k ∧ v' = v) ∨ (k' ≠ k ∧ Some (k', v') ∈ d).
Proof.
  intros Hhas. unfold map_set. rewrite Hhas, list_elem_of_fmap. split.
  - intros ([[k0 v0]|] & Heq & Hin); simpl in Heq; [|done].
    case_bool_decide; simplify_eq; [by left | right; done].
  - intros [[-> ->]|[Hne Hin]].
    + apply map_has_true in Hhas as [v0 Hin]. exists (Some (k, v0)).
      simpl. by rewrite bool_decide_eq_true_2.
    + exists (Some (k', v')). simpl. by rewrite bool_decide_eq_false_2.
Qed.

Lemma map_set_present_keys k v d :
  map_has k d = true → (live (map_set k v d)).*1 = (live d).*1.
Proof.
  intros Hhas. unfold map_set. rewrite Hhas. clear Hhas.
  induction d as [|[[k0 v0]|] d IH]; simpl; [done | | done].
  case_bool_decide; simpl; subst; by f_equal.
Qed.

Lemma map_set_present_size k v d :
  map_has k d = true → map_size (map_set k v d) = map_size d.
Proof.
  intros Hhas. unfold map_size.
  rewrite <- (length_fmap fst (live (map_set k v d))), <- (length_fmap fst (live d)).
  by rewrite map_set_present_keys.
Qed.
End map_facts.

Lemma interested_true sub category :
  NewsPublisher.interested sub category = true
  ↔ "all" ∈ NewsSubscriber.categories sub ∨ category ∈ NewsSubscriber.categories sub.
Proof.
  unfold NewsPublisher.interested.
  rewrite orb_true_iff, !bool_decide_eq_true. done.
Qed.

Lemma elem_of_calls_for article a visited sub a' :
  (sub, a') ∈ NewsPublisher.calls_for article a visited
  ↔ a' = a
    ∧ NewsPublisher.interested sub (ArticleInput.category article) = true
    ∧ ∃ k, (k, sub) ∈ visited.
Proof.
  unfold NewsPublisher.calls_for. rewrite list_elem_of_fmap. split.
  - intros ([k s] & Heq & Hin). simpl in Heq. simplify_eq.
    apply list_elem_of_filter in Hin as [Hint Hin]. eauto.
  - intros (-> & Hint & k & Hin). exists (k, sub). split; [done|].
    by apply list_elem_of_filter.
Qed.

(** C10: [subscribe] with the id of a registered subscriber replaces that
    registration.  The subscriber count is unchanged, the new subscriber is
    registered under the id, and the replaced one is registered nowhere; so
    a following [publish] (with [onNews] functions that return and leave
    the map alone) makes no call to the replaced subscriber, and calls the
    new one exactly when it is interested in the article's category. *)
Theorem subscribe_same_id_replaces
    (onNews_body : nat → NewsArticle.t → MapData string NewsSubscriber.t →
                   completion (MapData string NewsSubscriber.t) unit)
    (p : NewsPublisher.publisher) (old replacement : NewsSubscriber.t) :
  NewsPublisher.publisher_wf p →
  Some (NewsSubscriber.id replacement, old) ∈ NewsPublisher.subscribers p →
  old ≠ replacement →
  let p' := (NewsPublisher.subscribe replacement p).2 in
  NewsPublisher.getSubscriberCount p' = NewsPublisher.getSubscriberCount p
  ∧ Some (NewsSubscriber.id replacement, replacement) ∈ NewsPublisher.subscribers p'
  ∧ (∀ k, Some (k, old) ∉ NewsPublisher.subscribers p')
  ∧ ∀ fuel now article,
      (∀ k sub, Some (k, sub) ∈ NewsPublisher.subscribers p' →
         NewsPublisher.interested sub (ArticleInput.category article) = true →
         onNews_body (NewsSubscriber.onNews sub)
           (NewsPublisher.newArticle article now p') (NewsPublisher.subscribers p')
         = Normal tt (NewsPublisher.subscribers p')) →
      length (NewsPublisher.subscribers p') < fuel →
      ∃ calls p'',
        NewsPublisher.publish onNews_body fuel now article p'
        = Some (calls, Normal (NewsPublisher.newArticle article now p') p'')
        ∧ (∀ a, (old, a) ∉ calls)
        ∧ ((replacement, NewsPublisher.newArticle article now p') ∈ calls
           ↔ NewsPublisher.interested replacement (ArticleInput.category article) = true).
Proof.
  intros [Hkeys Hid] Hold Hne p'.
  assert (Hhas : map_has (NewsSubscriber.id replacement) (NewsPublisher.subscribers p) = true).
  { apply map_has_true. by exists old. }
  assert (Hnew : Some (NewsSubscriber.id replacement, replacement)
                 ∈ NewsPublisher.subscribers p').
  { apply map_set_present; [done | by left]. }
  assert (Hgone : ∀ k, Some (k, old) ∉ NewsPublisher.subscribers p').
  { intros k Hin. unfold p' in Hin. simpl in Hin.
    apply (map_set_present _ _ _ _ _ Hhas) in Hin as [[_ Heq]|[Hk Hin]].
    - by apply Hne.
    - apply Hk. rewrite <- (Hid _ _ Hin). by apply Hid. }
  split_and!; [by apply map_set_present_size | done | done |].
  intros fuel now article Hq Hfuel. eexists _, _. split; [by apply publish_quiet|]. split.
  - intros a Hin. apply elem_of_calls_for in Hin as (_ & _ & k & Hin).
    apply elem_of_live in Hin. by apply (Hgone k).
  - rewrite elem_of_calls_for. split.
    + by intros (_ & Hint & _).
    + intros Hint. split_and!; [done | done |].
      exists (NewsSubscriber.id replacement). by apply elem_of_live.
Qed.

Lemma subscribe_same_id_replaces_witness :
  NewsPublisher.getSubscriberCount
    (NewsPublisher.subscribe Scenario.alice2 Scenario.alice_and_bob).2
  = NewsPublisher.getSubscriberCount Scenario.alice_and_bob
  ∧ Some ("a", Scenario.alice2)
    ∈ NewsPublisher.subscribers
        (NewsPublisher.subscribe Scenario.alice2 Scenario.alice_and_bob).2
  ∧ ∀ k, Some (k, Scenario.alice)
         ∉ NewsPublisher.subscribers
             (NewsPublisher.subscribe Scenario.alice2 Scenario.alice_and_bob).2.
Proof.
  destruct (subscribe_same_id_replaces Scenario.quiet_onNews Scenario.alice_and_bob
              Scenario.alice Scenario.alice2)
    as (Hcount & Hnew & Hgone & _).
  - split.
    + vm_compute. repeat constructor; intros Hin; repeat (inversion Hin; subst; clear Hin;
        match goal with H : _ ∈ _ |- _ => rename H into Hin | _ => idtac end).
    + intros k s Hin. vm_compute in Hin.
      repeat (apply elem_of_cons in Hin as [Hin|Hin]; [by simplify_eq|]).
      by apply elem_of_nil in Hin.
  - vm_compute. repeat constructor.
  - discriminate.
  - split_and!; [exact Hcount | exact Hnew | exact Hgone].
Defined.

(** ** The log of a publisher *)

Lemma expected_log_snoc ps article now :
  NewsPublisher.expected_log (ps ++ [(article, now)])
  = NewsPublisher.expected_log ps
    ++ [NewsArticle.mk (Z.of_nat (length ps) + 1) (ArticleInput.title article)
          (ArticleInput.category article) (ArticleInput.content article) now].
Proof.
  unfold NewsPublisher.expected_log. rewrite imap_app. simpl.
  by rewrite Nat.add_0_r.
Qed.

Lemma expected_log_ids ps :
  NewsArticle.id <$> NewsPublisher.expected_log ps
  = Z.of_nat <$> seq 1 (length ps).
Proof.
  induction ps as [|[article now] ps IH] using rev_ind; [done|].
  rewrite expected_log_snoc, fmap_app, IH, length_app, seq_app, fmap_app. simpl.
  do 2 f_equal. lia.
Qed.

Section log_facts.
Import NewsPublisher.
Variable onNews_body :
  nat → NewsArticle.t → MapData string NewsSubscriber.t →
  completion (MapData string NewsSubscriber.t) unit.

(** The log of a client run: what was there, then the publications of the
    run, numbered on from the counter. *)
Lemma run_calls_log fuel cs : ∀ p ps p',
  articles p = expected_log ps →
  articleIdCounter p = Z.of_nat (length ps) →
  run_calls onNews_body fuel cs p = Some p' →
  articles p' = expected_log (ps ++ published cs)
  ∧ articleIdCounter p' = Z.of_nat (length (ps ++ published cs)).
Proof.
  induction cs as [|[s|i|article now] cs IH]; intros p ps p' Hlog Hctr Hrun; simpl in *.
  - simplify_eq. by rewrite app_nil_r.
  - eapply IH; [| |exact Hrun]; done.
  - eapply IH; [| |exact Hrun]; done.
  - destruct (publish onNews_body fuel now article p) as [[calls c]|] eqn:Hpub; [|done].
    rewrite cons_middle, (assoc_L (++)).
    apply (IH (state_of c)); [| |done];
      destruct (publish_log _ _ _ _ _ _ _ Hpub) as [r [->|[e ->]]]; simpl;
      unfold newArticle; rewrite ?expected_log_snoc, ?length_app, ?Hlog, ?Hctr;
      simpl; first [done | lia].
Qed.

(** With callbacks that never lengthen the subscriber map, a walk over
    at most [n] entries ends with at most [n] entries. *)
Lemma publish_finishes fuel now article p n :
  (∀ f a r, length (state_of (onNews_body f a r)) ≤ length r) →
  length (subscribers p) ≤ n → n < fuel →
  ∃ calls c, publish onNews_body fuel now article p = Some (calls, c)
             ∧ length (subscribers (state_of c)) ≤ n.
Proof.
  intros Hlen Hn Hfuel. rewrite publish_unfold.
  set (a := newArticle article now p).
  match goal with |- context [forEach id ?v _ _] => set (visit := v) end.
  assert (Hvisit : ∀ e r, length (state_of (visit e r)) ≤ length r).
  { intros e r. unfold visit. destruct (interested _ _); [apply Hlen | done]. }
  destruct (forEach_from_finishes id visit fuel 0 (subscribers p))
    as [[vs c] Hw]; [done | simpl; lia |].
  unfold forEach. rewrite Hw.
  pose proof (forEach_from_invariant id visit
                (λ r, length r ≤ n) fuel 0 (subscribers p) vs c) as Hinv.
  simpl in Hinv. eexists _, _. split; [done|].
  destruct c as [[] r|e r]; simpl in *; apply Hinv; try done;
    intros e' r' Hr'; (etrans; [apply Hvisit | done]).
Qed.

Lemma run_calls_finishes fuel cs : ∀ p,
  (∀ f a r, length (state_of (onNews_body f a r)) ≤ length r) →
  length (subscribers p) + length cs < fuel →
  is_Some (run_calls onNews_body fuel cs p).
Proof.
  induction cs as [|[s|i|article now] cs IH]; intros p Hlen Hfuel; simpl in *.
  - done.
  - apply IH; [done|]. simpl. unfold map_set.
    destruct (map_has _ _); rewrite ?length_fmap, ?length_app; simpl; lia.
  - apply IH; [done|]. simpl. unfold map_delete. rewrite length_fmap. lia.
  - destruct (publish_finishes fuel now article p (length (subscribers p)))
      as (calls & c & -> & Hc); [done | done | lia |].
    apply IH; [done | lia].
Qed.
End log_facts.

(** C5: the identifiers of a publisher are 1, 2, 3, ... in the order of
    publication.  For a fresh publisher and any client (subscriptions,
    unsubscriptions and publications in any order, with callbacks that may
    change the subscriber map or throw), the log read by [getArticles] after
    the run holds exactly the published articles, oldest first, with the
    identifiers 1 to n, and the counter is n.  The run does complete when
    the callbacks never lengthen the subscriber map (throwing or not).
    Every completed [publish], throwing or not, has appended one article to
    the log and has given it the counter's next value, so a list obtained
    from [getArticles] before is a prefix of the log, not affected by what
    is published later. *)
Theorem published_ids_are_consecutive
    (onNews_body : nat → NewsArticle.t → MapData string NewsSubscriber.t →
                   completion (MapData string NewsSubscriber.t) unit)
    (fuel : nat) (cs : list NewsPublisher.call) :
  (∀ p', NewsPublisher.run_calls onNews_body fuel cs NewsPublisher.new = Some p' →
     NewsPublisher.getArticles p'
     = NewsPublisher.expected_log (NewsPublisher.published cs)
     ∧ NewsArticle.id <$> NewsPublisher.getArticles p'
       = Z.of_nat <$> seq 1 (length (NewsPublisher.published cs))
     ∧ NewsPublisher.articleIdCounter p'
       = Z.of_nat (length (NewsPublisher.published cs)))
  ∧ ((∀ f a r, length (state_of (onNews_body f a r)) ≤ length r) →
     length cs < fuel →
     is_Some (NewsPublisher.run_calls onNews_body fuel cs NewsPublisher.new))
  ∧ (∀ p now article calls c,
       NewsPublisher.publish onNews_body fuel now article p = Some (calls, c) →
       NewsPublisher.getArticles (state_of c)
       = NewsPublisher.getArticles p ++ [NewsPublisher.newArticle article now p]
       ∧ NewsArticle.id (NewsPublisher.newArticle article now p)
         = (NewsPublisher.articleIdCounter p + 1)%Z
       ∧ NewsPublisher.articleIdCounter (state_of c)
         = (NewsPublisher.articleIdCounter p + 1)%Z).
Proof.
  split_and!.
  - intros p' Hrun.
    destruct (run_calls_log onNews_body fuel cs NewsPublisher.new [] p')
      as [Hlog Hctr]; [done | done | done |].
    simpl in Hlog, Hctr. unfold NewsPublisher.getArticles.
    split_and!; [done | | done]. rewrite Hlog. apply expected_log_ids.
  - intros Hlen Hfuel. apply run_calls_finishes; [done | simpl; lia].
  - intros p now article calls c Hpub.
    destruct (publish_log _ _ _ _ _ _ _ Hpub) as [r [->|[e ->]]]; done.
Qed.

Lemma published_ids_are_consecutive_witness :
  ∃ p', NewsPublisher.run_calls Scenario.throwing_onNews 6
          Scenario.three_publications NewsPublisher.new = Some p'
    ∧ NewsArticle.id <$> NewsPublisher.getArticles p' = [1; 2; 3]%Z.
Proof.
  destruct (published_ids_are_consecutive Scenario.throwing_onNews 6
              Scenario.three_publications)
    as (Hlog & Hfin & _).
  destruct Hfin as [p' Hrun].
  - intros f a r. unfold Scenario.throwing_onNews. by case_decide.
  - simpl. lia.
  - exists p'. split; [exact Hrun|]. by destruct (Hlog p' Hrun) as (_ & -> & _).
Defined.

(** ** Well-formedness is kept *)

Lemma map_has_false_keys {K V : Type} `{EqDecision K} (k : K) (d : MapData K V) :
  map_has k d = false → k ∉ (live d).*1.
Proof.
  intros Hhas Hin. apply list_elem_of_fmap in Hin as ([k' v] & -> & Hin).
  apply elem_of_live in Hin. simpl in Hhas.
  assert (map_has k' d = true) as Htrue by (apply map_has_true; eauto).
  congruence.
Qed.

Lemma map_delete_emptied {K V : Type} `{EqDecision K} (k : K) (d : MapData K V) :
  emptied d (map_delete k d).
Proof.
  unfold emptied, map_delete. induction d as [|e d IH]; simpl; constructor; [|done].
  destruct (key_is k e); auto.
Qed.

Lemma new_publisher_wf : NewsPublisher.publisher_wf NewsPublisher.new.
Proof.
  split; [apply NoDup_nil_2|]. intros k s Hin. by apply elem_of_nil in Hin.
Qed.

Lemma subscribe_wf s p :
  NewsPublisher.publisher_wf p →
  NewsPublisher.publisher_wf (NewsPublisher.subscribe s p).2.
Proof.
  intros [Hkeys Hid]. unfold NewsPublisher.publisher_wf, map_wf. simpl.
  destruct (map_has (NewsSubscriber.id s) (NewsPublisher.subscribers p)) eqn:Hhas.
  - split; [by rewrite map_set_present_keys|].
    intros k s' Hin. apply (map_set_present _ _ _ _ _ Hhas) in Hin as [[-> ->]|[_ Hin]];
      [done | by apply Hid].
  - unfold map_set. rewrite Hhas, live_app, fmap_app. simpl. split.
    + apply NoDup_app. split_and!; [done | | apply NoDup_singleton].
      intros k Hk Hk'. apply list_elem_of_singleton in Hk' as ->.
      by apply (map_has_false_keys _ _ Hhas).
    + intros k s' Hin. apply elem_of_app in Hin as [Hin|Hin]; [by apply Hid|].
      apply list_elem_of_singleton in Hin. by simplify_eq.
Qed.

Lemma unsubscribe_wf i p :
  NewsPublisher.publisher_wf p →
  NewsPublisher.publisher_wf (NewsPublisher.unsubscribe i p).
Proof.
  intros [Hkeys Hid].
  pose proof (map_delete_emptied i (NewsPublisher.subscribers p)) as Hem.
  split; simpl.
  - unfold map_wf in *. eapply sublist_NoDup; [exact Hkeys|].
    apply fmap_sublist. by apply emptied_live.
  - intros k s Hin. apply Hid. by eapply emptied_elem_of.
Qed.

(** ** Unsubscribing during delivery, continued *)

(** [off] of another callback leaves a listener where it is. *)
Lemma off_keeps ev ev' c x em :
  x ≠ c →
  Some x ∈ EventEmitter.listeners ev em →
  Some x ∈ EventEmitter.listeners ev (EventEmitter.off ev' c em).
Proof.
  intros Hne. unfold EventEmitter.off, EventEmitter.listeners, EventEmitter.set_at.
  destruct (EventEmitter.events em !! ev') as [l'|]; [|done]. simpl.
  destruct (EventEmitter.events em !! ev) as [l|]; [|done].
  rewrite list_lookup_alter. case_decide; [subst|done].
  destruct (EventEmitter.sets em !! l) as [d|]; simpl; [|done].
  intros Hin. unfold set_delete. apply list_elem_of_fmap.
  exists (Some x). split; [|done]. rewrite decide_False; [done|]. congruence.
Qed.

Lemma map_delete_all_emptied {K V : Type} `{EqDecision K} (keys : list K) :
  ∀ d : MapData K V, emptied d (map_delete_all keys d).
Proof.
  induction keys as [|k keys IH]; intros d; simpl.
  - apply emptied_refl.
  - eapply emptied_trans; [apply (map_delete_emptied k) | apply IH].
Qed.

(** In a well-formed publisher no subscriber is filed twice. *)
Lemma publisher_wf_subscribers p :
  NewsPublisher.publisher_wf p → NoDup (live (NewsPublisher.subscribers p)).*2.
Proof.
  intros [Hkeys Hid]. apply NoDup_fmap_2_strong; [|by apply (NoDup_fmap_1 fst)].
  intros [k1 s1] [k2 s2] H1 H2 Heq. simpl in Heq. subst s2.
  apply elem_of_live in H1, H2. f_equal.
  by rewrite <- (Hid _ _ H1), <- (Hid _ _ H2).
Qed.

(** The calls of a walk that went through the entries [vs] of a
    well-formed map. *)
Lemma calls_for_NoDup article a (vs all : list (string * NewsSubscriber.t)) :
  vs `sublist_of` all → NoDup all.*2 →
  NoDup (NewsPublisher.calls_for article a vs).*1.
Proof.
  intros Hsub Hnd. unfold NewsPublisher.calls_for. rewrite <- list_fmap_compose.
  apply (sublist_NoDup _ all.*2); [done|].
  apply fmap_sublist. etrans; [apply sublist_filter | done].
Qed.

(** The calls for a list of entries, with the test of [deliver] written
    out. *)
Lemma calls_for_spec article a (visited : list (string * NewsSubscriber.t)) :
  NewsPublisher.calls_for article a visited
  = (λ e : string * NewsSubscriber.t, (e.2, a))
      <$> filter (λ e : string * NewsSubscriber.t,
                    "all" ∈ NewsSubscriber.categories e.2
                    ∨ ArticleInput.category article ∈ NewsSubscriber.categories e.2)
                 visited.
Proof.
  unfold NewsPublisher.calls_for. f_equal. apply list_filter_iff.
  intros e. apply interested_true.
Qed.

(** C6, as stated, fails when an [onNews] throws: an interested
    subscriber after the throwing one is not called.  With Alice
    (categories ["tech"], an [onNews] that throws) registered before Bob
    (categories ["all"]), a "tech" article is delivered to Alice only. *)
Lemma category_filtering_counterexample :
  NewsPublisher.subscribers Scenario.alice_and_bob
  = [Some ("a", Scenario.alice); Some ("b", Scenario.bob)]
  ∧ "all" ∈ NewsSubscriber.categories Scenario.bob
  ∧ NewsPublisher.publish Scenario.throwing_onNews 3 100 Scenario.tech_news
      Scenario.alice_and_bob
    = Some ([(Scenario.alice,
              NewsPublisher.newArticle Scenario.tech_news 100 Scenario.alice_and_bob)],
            Throws "boom"
              (NewsPublisher.logged Scenario.tech_news 100 Scenario.alice_and_bob
                 (NewsPublisher.subscribers Scenario.alice_and_bob))).
Proof. split_and!; [reflexivity | by left | reflexivity]. Qed.

(** C6, amended: [publish] calls [onNews] only for subscribers whose
    categories contain "all" or the article's category, and with the new
    article, whatever the callbacks do.  When the [onNews] functions
    return and leave the subscriber map alone, it calls, in insertion
    order and once each, exactly the registered subscribers whose
    categories contain "all" or the article's category; in particular, if
    A is registered for ["tech"] and B for ["all"], a "sports" article is
    delivered to B and not to A.  An [onNews] that throws ends the pass:
    the calls are those to the interested subscribers before it and to
    it, and no subscriber registered after it is called. *)
Theorem category_filtering
    (onNews_body : nat → NewsArticle.t → MapData string NewsSubscriber.t →
                   completion (MapData string NewsSubscriber.t) unit)
    (fuel : nat) (now : Z) (article : ArticleInput.t)
    (p : NewsPublisher.publisher) :
  let a := NewsPublisher.newArticle article now p in
  (∀ calls c,
     NewsPublisher.publish onNews_body fuel now article p = Some (calls, c) →
     ∀ sub a', (sub, a') ∈ calls →
       a' = a
       ∧ ("all" ∈ NewsSubscriber.categories sub
          ∨ ArticleInput.category article ∈ NewsSubscriber.categories sub))
  ∧ ((∀ k sub, Some (k, sub) ∈ NewsPublisher.subscribers p →
        "all" ∈ NewsSubscriber.categories sub
        ∨ ArticleInput.category article ∈ NewsSubscriber.categories sub →
        onNews_body (NewsSubscriber.onNews sub) a (NewsPublisher.subscribers p)
        = Normal tt (NewsPublisher.subscribers p)) →
     length (NewsPublisher.subscribers p) < fuel →
     ∃ calls p',
       NewsPublisher.publish onNews_body fuel now article p = Some (calls, Normal a p')
       ∧ calls
         = (λ e : string * NewsSubscriber.t, (e.2, a))
             <$> filter (λ e : string * NewsSubscriber.t,
                           "all" ∈ NewsSubscriber.categories e.2
                           ∨ ArticleInput.category article
                             ∈ NewsSubscriber.categories e.2)
                        (live (NewsPublisher.subscribers p))
       ∧ (∀ sub a',
            (sub, a') ∈ calls
            ↔ a' = a
              ∧ (∃ k, Some (k, sub) ∈ NewsPublisher.subscribers p)
              ∧ ("all" ∈ NewsSubscriber.categories sub
                 ∨ ArticleInput.category article ∈ NewsSubscriber.categories sub))
       ∧ (NewsPublisher.publisher_wf p → NoDup calls.*1)
       ∧ (∀ ka A kb B,
            Some (ka, A) ∈ NewsPublisher.subscribers p →
            Some (kb, B) ∈ NewsPublisher.subscribers p →
            NewsSubscriber.categories A = ["tech"] →
            NewsSubscriber.categories B = ["all"] →
            ArticleInput.category article = "sports" →
            (B, a) ∈ calls ∧ (A, a) ∉ calls))
  ∧ (∀ pre k sub post e r',
       NewsPublisher.subscribers p = pre ++ Some (k, sub) :: post →
       (∀ k' sub', Some (k', sub') ∈ pre →
          "all" ∈ NewsSubscriber.categories sub'
          ∨ ArticleInput.category article ∈ NewsSubscriber.categories sub' →
          onNews_body (NewsSubscriber.onNews sub') a (NewsPublisher.subscribers p)
          = Normal tt (NewsPublisher.subscribers p)) →
       "all" ∈ NewsSubscriber.categories sub
       ∨ ArticleInput.category article ∈ NewsSubscriber.categories sub →
       onNews_body (NewsSubscriber.onNews sub) a (NewsPublisher.subscribers p)
       = Throws e r' →
       length pre < fuel →
       ∃ calls p',
         NewsPublisher.publish onNews_body fuel now article p = Some (calls, Throws e p')
         ∧ calls
           = ((λ e : string * NewsSubscriber.t, (e.2, a))
                <$> filter (λ e : string * NewsSubscriber.t,
                              "all" ∈ NewsSubscriber.categories e.2
                              ∨ ArticleInput.category article
                                ∈ NewsSubscriber.categories e.2)
                           (live pre))
             ++ [(sub, a)]
         ∧ (NewsPublisher.publisher_wf p →
            ∀ k' sub', Some (k', sub') ∈ post → ∀ a', (sub', a') ∉ calls)).
Proof.
  intros a. split_and!.
  - intros calls c Hpub sub a' Hin. rewrite publish_unfold in Hpub.
    destruct (forEach _ _ _ _) as [[vs c0]|]; [|done]. simplify_eq.
    apply elem_of_calls_for in Hin as (-> & Hint & _).
    split; [done | by apply interested_true].
  - intros Hq Hfuel.
    assert (Hiff : ∀ sub a',
      (sub, a') ∈ NewsPublisher.calls_for article a (live (NewsPublisher.subscribers p))
      ↔ a' = a
        ∧ (∃ k, Some (k, sub) ∈ NewsPublisher.subscribers p)
        ∧ ("all" ∈ NewsSubscriber.categories sub
           ∨ ArticleInput.category article ∈ NewsSubscriber.categories sub)).
    { intros sub a'. rewrite elem_of_calls_for, interested_true. split.
      - intros (-> & Hint & k & Hin). apply elem_of_live in Hin. eauto.
      - intros (-> & [k Hin] & Hint). apply elem_of_live in Hin. eauto. }
    eexists _, _. split.
    { apply publish_quiet; [|done]. intros k sub Hin Hint. apply (Hq k sub Hin).
      by apply interested_true. }
    rewrite <- calls_for_spec. split_and!; [done | done | |].
    + intros Hwf. apply (calls_for_NoDup article a _ (live (NewsPublisher.subscribers p)));
        [done | by apply publisher_wf_subscribers].
    + intros ka A kb B HA HB HcA HcB Hcat. split.
      * apply Hiff. split_and!; [done | by eexists |]. left. rewrite HcB.
        by apply list_elem_of_singleton.
      * intros Hin. apply Hiff in Hin as (_ & _ & Hint). rewrite HcA, Hcat in Hint.
        destruct Hint as [Hint|Hint]; apply list_elem_of_singleton in Hint; discriminate.
  - intros pre k sub post e r' Hd Hq Hint Hthrow Hfuel. eexists _, _. split.
    { apply (publish_throw onNews_body fuel now article p pre k sub post e r' Hd);
        [|by apply interested_true|done|done].
      intros k' sub' Hin Hint'. apply (Hq k' sub' Hin). by apply interested_true. }
    rewrite <- calls_for_spec. split; [done|].
    intros [Hkeys Hid] k' sub' Hin' a' Hcall.
    assert (Hearlier : ∃ k'', (k'', sub') ∈ live pre ++ [(k, sub)]).
    { apply elem_of_app in Hcall as [Hcall|Hcall].
      - apply elem_of_calls_for in Hcall as (_ & _ & k'' & Hk'').
        exists k''. apply elem_of_app. by left.
      - apply list_elem_of_singleton in Hcall. simplify_eq.
        exists k. apply elem_of_app. right. by left. }
    destruct Hearlier as [k'' Hearlier].
    assert (Hsame : k'' = k').
    { assert (H1 : Some (k'', sub') ∈ NewsPublisher.subscribers p).
      { rewrite Hd. apply elem_of_app in Hearlier as [Hpre|Hhere].
        - apply elem_of_app. left. by apply elem_of_live.
        - apply list_elem_of_singleton in Hhere. simplify_eq.
          apply elem_of_app. right. by left. }
      assert (H2 : Some (k', sub') ∈ NewsPublisher.subscribers p).
      { rewrite Hd. apply elem_of_app. right. by right. }
      by rewrite <- (Hid _ _ H1), <- (Hid _ _ H2). }
    subst k''. revert Hearlier.
    apply (later_not_among_earlier pre post (k, sub) (k', sub')); [|done].
    rewrite <- Hd. by apply (NoDup_fmap_1 fst).
Qed.

Lemma category_filtering_witness :
  ∃ calls p',
    NewsPublisher.publish Scenario.quiet_onNews 3 100 Scenario.sports_news
      Scenario.alice_and_bob
    = Some (calls, Normal (NewsPublisher.newArticle Scenario.sports_news 100
                             Scenario.alice_and_bob) p')
    ∧ (Scenario.bob, NewsPublisher.newArticle Scenario.sports_news 100
                       Scenario.alice_and_bob) ∈ calls
    ∧ (Scenario.alice, NewsPublisher.newArticle Scenario.sports_news 100
                         Scenario.alice_and_bob) ∉ calls.
Proof.
  destruct (proj1 (proj2 (category_filtering Scenario.quiet_onNews 3 100
                            Scenario.sports_news Scenario.alice_and_bob)))
    as (calls & p' & Hpub & _ & _ & _ & HAB).
  - reflexivity.
  - vm_compute. lia.
  - exists calls, p'. split; [exact Hpub|].
    apply (HAB "a" Scenario.alice "b" Scenario.bob);
      first [reflexivity | vm_compute; repeat constructor].
Defined.

(** C2: a callback that unsubscribes other subscribers during delivery.
    When the callbacks of an [emit], the observers of a [notify] or the
    [onNews] functions of a [publish] do nothing to the registry but
    unsubscribe, the call returns normally.  Nobody is called twice, and
    nobody is called who was not registered at the start; the calls are
    made in insertion order, with the payload.  Every subscriber
    registered at the start that no callback unsubscribes is still
    registered at the end and has been called exactly once (for
    [publish]: if it is interested in the article); and so has every
    subscriber that is still registered at the end. *)
Theorem unsubscribe_during_delivery {T : Type}
    (body : EventEmitter.EventCallback → T → EventEmitter.emitter →
            completion EventEmitter.emitter unit)
    (update : ObservableStore.Observer → T → SetData ObservableStore.Observer →
              completion (SetData ObservableStore.Observer) unit)
    (onNews_body : nat → NewsArticle.t → MapData string NewsSubscriber.t →
                   completion (MapData string NewsSubscriber.t) unit)
    (fuel : nat) (data : T) :
  (∀ event em,
     (∀ c d em, ∃ targets, body c d em = Normal tt (EventEmitter.off_all targets em)) →
     set_wf (EventEmitter.listeners event em) →
     length (EventEmitter.listeners event em) < fuel →
     ∃ calls em',
       EventEmitter.emit body fuel event data em = Some (calls, Normal tt em')
       ∧ NoDup calls.*1
       ∧ calls.*1 `sublist_of` live (EventEmitter.listeners event em)
       ∧ (∀ c d, (c, d) ∈ calls → Some c ∈ EventEmitter.listeners event em ∧ d = data)
       ∧ (∀ c, Some c ∈ EventEmitter.listeners event em →
            (∀ c' d em0, Some c ∈ EventEmitter.listeners event em0 →
               Some c ∈ EventEmitter.listeners event (state_of (body c' d em0))) →
            Some c ∈ EventEmitter.listeners event em'
            ∧ filter (λ x : EventEmitter.EventCallback * T, x.1 = c) calls = [(c, data)])
       ∧ (∀ c, Some c ∈ EventEmitter.listeners event em' →
            Some c ∈ EventEmitter.listeners event em
            ∧ filter (λ x : EventEmitter.EventCallback * T, x.1 = c) calls = [(c, data)]))
  ∧ (∀ s : ObservableStore.store T,
     (∀ o d r, ∃ targets, update o d r = Normal tt (delete_all targets r)) →
     set_wf (ObservableStore.observers s) →
     length (ObservableStore.observers s) < fuel →
     ∃ calls s',
       ObservableStore.notify update fuel data s = Some (calls, Normal tt s')
       ∧ NoDup calls.*1
       ∧ calls.*1 `sublist_of` live (ObservableStore.observers s)
       ∧ (∀ o d, (o, d) ∈ calls → Some o ∈ ObservableStore.observers s ∧ d = data)
       ∧ (∀ o, Some o ∈ ObservableStore.observers s →
            (∀ o' d r, Some o ∈ r → Some o ∈ state_of (update o' d r)) →
            Some o ∈ ObservableStore.observers s'
            ∧ filter (λ x : ObservableStore.Observer * T, x.1 = o) calls = [(o, data)])
       ∧ (∀ o, Some o ∈ ObservableStore.observers s' →
            Some o ∈ ObservableStore.observers s
            ∧ filter (λ x : ObservableStore.Observer * T, x.1 = o) calls = [(o, data)]))
  ∧ (∀ now article (p : NewsPublisher.publisher),
     (∀ f a r, ∃ ids, onNews_body f a r = Normal tt (map_delete_all ids r)) →
     NewsPublisher.publisher_wf p →
     length (NewsPublisher.subscribers p) < fuel →
     ∃ calls p',
       NewsPublisher.publish onNews_body fuel now article p
       = Some (calls, Normal (NewsPublisher.newArticle article now p) p')
       ∧ NoDup calls.*1
       ∧ calls.*1 `sublist_of` (live (NewsPublisher.subscribers p)).*2
       ∧ (∀ sub a, (sub, a) ∈ calls →
            a = NewsPublisher.newArticle article now p
            ∧ (∃ k, Some (k, sub) ∈ NewsPublisher.subscribers p)
            ∧ ("all" ∈ NewsSubscriber.categories sub
               ∨ ArticleInput.category article ∈ NewsSubscriber.categories sub))
       ∧ (∀ k sub, Some (k, sub) ∈ NewsPublisher.subscribers p →
            "all" ∈ NewsSubscriber.categories sub
            ∨ ArticleInput.category article ∈ NewsSubscriber.categories sub →
            (∀ f a r, Some (k, sub) ∈ r → Some (k, sub) ∈ state_of (onNews_body f a r)) →
            Some (k, sub) ∈ NewsPublisher.subscribers p'
            ∧ (sub, NewsPublisher.newArticle article now p) ∈ calls)
       ∧ (∀ k sub, Some (k, sub) ∈ NewsPublisher.subscribers p' →
            "all" ∈ NewsSubscriber.categories sub
            ∨ ArticleInput.category article ∈ NewsSubscriber.categories sub →
            Some (k, sub) ∈ NewsPublisher.subscribers p
            ∧ (sub, NewsPublisher.newArticle article now p) ∈ calls)).
Proof.
  assert (Hcalls : ∀ (vs : list nat) (d d' : list (option nat)),
    NoDup (live d) → vs `sublist_of` live d → emptied d d' →
    (∀ c, Some c ∈ d' → c ∈ vs) →
    let calls := (λ c, (c, data)) <$> vs in
    NoDup calls.*1
    ∧ calls.*1 `sublist_of` live d
    ∧ (∀ c x, (c, x) ∈ calls → Some c ∈ d ∧ x = data)
    ∧ (∀ c, Some c ∈ d' →
         Some c ∈ d ∧ filter (λ x : nat * T, x.1 = c) calls = [(c, data)])).
  { intros vs d d' Hwf Hsub Hem Hall calls.
    assert (Hfst : calls.*1 = vs).
    { unfold calls. rewrite <- list_fmap_compose. apply list_fmap_id. }
    assert (Hnd : NoDup vs) by (by eapply sublist_NoDup).
    split_and!.
    - by rewrite Hfst.
    - by rewrite Hfst.
    - intros c x Hin. apply list_elem_of_fmap in Hin as (c' & Heq & Hc'). simplify_eq.
      split; [|done]. apply elem_of_live. by eapply elem_of_sublist.
    - intros c Hc. split; [by eapply emptied_elem_of|].
      apply calls_once; [done | by apply Hall]. }
  split_and!.
  - intros event em Hbody Hwf Hfuel.
    destruct (emit_unsubscribing body fuel event data em Hbody Hfuel)
      as (vs & em' & Hemit & Hem & Hsub & Hall).
    exists ((λ c, (c, data)) <$> vs), em'.
    destruct (Hcalls vs _ _ Hwf Hsub Hem Hall) as (Hnd & Hord & Hreg & Hend).
    split_and!; [done | done | done | done | | done].
    intros c Hc Hkeep.
    assert (Hc' : Some c ∈ EventEmitter.listeners event em'); [|by split; [|apply Hend]].
    unfold EventEmitter.emit in Hemit.
    destruct (EventEmitter.events em !! event) as [l|] eqn:Hev; [|by simplify_eq].
    destruct (forEach (EventEmitter.set_at l) (λ callback, body callback data) fuel em)
      as [[vs0 c0]|] eqn:Hwalk; [|done].
    assert (c0 = Normal tt em') as -> by (by simplify_eq).
    apply (forEach_from_invariant (EventEmitter.set_at l) (λ cb, body cb data)
             (λ em0, EventEmitter.events em0 = EventEmitter.events em
                     ∧ Some c ∈ EventEmitter.listeners event em0)
             fuel 0 em vs0 (Normal tt em')); [|done|exact Hwalk].
    intros c' em0 [Hev0 Hin0]. split; [|by apply Hkeep].
    destruct (Hbody c' data em0) as [targets ->]. simpl. by rewrite off_all_events.
  - intros s Hupd Hwf Hfuel.
    destruct (notify_unsubscribing update fuel data s Hupd Hfuel)
      as (vs & s' & Hnotify & _ & Hem & Hsub & Hall).
    exists ((λ c, (c, data)) <$> vs), s'.
    destruct (Hcalls vs _ _ Hwf Hsub Hem Hall) as (Hnd & Hord & Hreg & Hend).
    split_and!; [done | done | done | done | | done].
    intros o Ho Hkeep.
    assert (Ho' : Some o ∈ ObservableStore.observers s'); [|by split; [|apply Hend]].
    unfold ObservableStore.notify in Hnotify.
    destruct (forEach id (λ observer, update observer data) fuel (ObservableStore.observers s))
      as [[vs0 c0]|] eqn:Hwalk; [|done].
    pose proof (forEach_from_invariant id (λ o', update o' data)
                  (λ r, Some o ∈ r) fuel 0 (ObservableStore.observers s) vs0 c0) as Hinv.
    simpl in Hinv. specialize (Hinv (λ o' r, Hkeep o' data r) Ho Hwalk).
    destruct c0 as [[] r|e r]; simpl in Hnotify; by simplify_eq.
  - intros now article p Hbody Hwf Hfuel.
    set (a := NewsPublisher.newArticle article now p).
    set (visit := λ (entry : string * NewsSubscriber.t) (r : MapData string NewsSubscriber.t),
                    if NewsPublisher.interested entry.2 (ArticleInput.category article)
                    then onNews_body (NewsSubscriber.onNews entry.2) a r
                    else Normal tt r).
    destruct (forEach_from_emptying id visit fuel 0 (NewsPublisher.subscribers p))
      as (vs & r' & Hwalk & Hem & Hsub & Hall).
    { intros entry r. unfold visit.
      destruct (NewsPublisher.interested _ _).
      - destruct (Hbody (NewsSubscriber.onNews entry.2) a r) as [ids ->].
        eexists; split; [done|]. apply map_delete_all_emptied.
      - eexists; split; [done|]. apply emptied_refl. }
    { simpl. lia. }
    simpl in Hem, Hsub, Hall. rewrite drop_0 in Hsub.
    exists (NewsPublisher.calls_for article a vs), (NewsPublisher.logged article now p r').
    split_and!.
    + rewrite publish_unfold. unfold forEach.
      by replace (forEach_from id _ fuel 0 (NewsPublisher.subscribers p))
        with (Some (vs, Normal (S := MapData string NewsSubscriber.t) tt r'))
        by (symmetry; exact Hwalk).
    + apply (calls_for_NoDup article a vs (live (NewsPublisher.subscribers p)));
        [done | by apply publisher_wf_subscribers].
    + unfold NewsPublisher.calls_for. rewrite <- list_fmap_compose.
      apply fmap_sublist. etrans; [apply sublist_filter | done].
    + intros sub a' Hin. apply elem_of_calls_for in Hin as (-> & Hint & k & Hin).
      split_and!; [done | | by apply interested_true].
      exists k. apply elem_of_live. by eapply elem_of_sublist.
    + intros k sub Hin Hint Hkeep.
      assert (Hin' : Some (k, sub) ∈ r').
      { apply (forEach_from_invariant id visit (λ r, Some (k, sub) ∈ r)
                 fuel 0 (NewsPublisher.subscribers p) vs (Normal tt r')); [|done|done].
        intros entry r Hr. unfold visit.
        destruct (NewsPublisher.interested _ _); [by apply Hkeep | done]. }
      split; [done|]. apply elem_of_calls_for.
      split_and!; [done | by apply interested_true |]. exists k. by apply Hall.
    + intros k sub Hin Hint. split; [by eapply emptied_elem_of|].
      apply elem_of_calls_for.
      split_and!; [done | by apply interested_true |]. exists k. by apply Hall.
Qed.

Lemma unsubscribe_during_delivery_witness :
  ∃ calls em',
    EventEmitter.emit Scenario.unsubscribing_body 4 "test" 7%Z Scenario.three_listeners
    = Some (calls, Normal tt em')
    ∧ NoDup calls.*1
    ∧ Some 3 ∈ EventEmitter.listeners "test" em'
    ∧ filter (λ x : EventEmitter.EventCallback * Z, x.1 = 3) calls = [(3, 7%Z)].
Proof.
  destruct (proj1 (unsubscribe_during_delivery Scenario.unsubscribing_body
                     Scenario.quiet_update Scenario.quiet_onNews 4 7%Z)
              "test" Scenario.three_listeners)
    as (calls & em' & Hemit & Hnd & _ & _ & Hkept & _).
  - intros c d em. exists (Scenario.unsubscribing_targets c). reflexivity.
  - apply listeners_wf. repeat apply on_listeners. apply new_wf.
  - vm_compute. lia.
  - exists calls, em'. split; [exact Hemit|]. split; [exact Hnd|].
    apply (Hkept 3).
    + vm_compute. repeat constructor.
    + intros c' d em0 Hin. unfold Scenario.unsubscribing_body, Scenario.unsubscribing_targets.
      case_decide; simpl; [|exact Hin]. by apply off_keeps.
Defined.

(** The same pass with the store and with the publisher: observer 1
    unsubscribes observer 2, and Alice's [onNews] unsubscribes Bob, before
    their turn. *)
Example unsubscribing_example :
  ObservableStore.notify Fixture.unsubscribing_update 4 7%Z
    {| ObservableStore.observers := [Some 1; Some 2; Some 3];
       ObservableStore.state := 0%Z |}
  = Some ([(1, 7%Z); (3, 7%Z)],
          Normal tt {| ObservableStore.observers := [Some 1; None; Some 3];
                       ObservableStore.state := 0%Z |})
  ∧ fst <$> NewsPublisher.publish Fixture.unsubscribing_onNews 3 100
              Scenario.tech_news Scenario.alice_and_bob
    = Some [(Scenario.alice,
             NewsPublisher.newArticle Scenario.tech_news 100 Scenario.alice_and_bob)].
Proof. split; reflexivity. Qed.

(** * Further properties *)

(** ** Sets, continued *)

Section more_set_facts.
Context {A : Type} `{EqDecision A}.
Implicit Types (d : SetData A) (x : A).

Lemma live_set_delete x d : live (set_delete x d) = filter (λ y, y ≠ x) (live d).
Proof.
  unfold set_delete. induction d as [|[y|] d IH]; simpl; [done | | done].
  rewrite filter_cons. destruct (decide (Some y = Some x)) as [Heq|Hne]; simpl.
  - simplify_eq. by rewrite decide_False by (intros H; by apply H).
  - rewrite decide_True by congruence. by f_equal.
Qed.

Lemma set_delete_absent x d : Some x ∉ d → set_delete x d = d.
Proof.
  unfold set_delete. induction d as [|e d IH]; intros Hnot; simpl; [done|].
  apply not_elem_of_cons in Hnot as [Hne Hnot].
  rewrite decide_False by done. f_equal. by apply IH.
Qed.

Lemma set_delete_not_elem x d : Some x ∉ set_delete x d.
Proof.
  unfold set_delete. intros Hin. apply list_elem_of_fmap in Hin as (e & He & _).
  by case_decide.
Qed.

Lemma set_delete_idemp x d : set_delete x (set_delete x d) = set_delete x d.
Proof. apply set_delete_absent, set_delete_not_elem. Qed.

Lemma live_set_add_new x d : Some x ∉ d → live (set_add x d) = live d ++ [x].
Proof.
  intros Hnot. unfold set_add.
  destruct (set_has x d) eqn:Hhas; [by apply set_has_true in Hhas|].
  by rewrite live_app.
Qed.

Lemma filter_ne_absent (l : list A) x : x ∉ l → filter (λ y, y ≠ x) l = l.
Proof.
  induction l as [|y l IH]; intros Hnot; [done|].
  apply not_elem_of_cons in Hnot as [Hne Hnot].
  rewrite filter_cons, decide_True by done. by rewrite IH.
Qed.

Lemma filter_ne_length (l : list A) x :
  NoDup l → x ∈ l → length (filter (λ y, y ≠ x) l) + 1 = length l.
Proof.
  induction 1 as [|y l Hy Hnd IH]; intros Hin; [by apply elem_of_nil in Hin|].
  rewrite filter_cons. destruct (decide (y = x)) as [->|Hne].
  - rewrite decide_False by (intros H; by apply H).
    rewrite filter_ne_absent by done. simpl. lia.
  - rewrite decide_True by done. simpl.
    apply elem_of_cons in Hin as [->|Hin]; [done|]. rewrite <- IH by done. lia.
Qed.

Lemma alter_fixed (f : A → A) (l : list A) i :
  (∀ y, l !! i = Some y → f y = y) → alter f i l = l.
Proof.
  intros Hf. apply list_eq. intros j. rewrite list_lookup_alter.
  case_decide; [subst|done]. destruct (l !! j) as [y|] eqn:Hj; simpl; [|done].
  by rewrite Hf.
Qed.
End more_set_facts.

(** ** The walk of [forEach], continued *)

(** One callback changes the entries, all the others are quiet: the walk
    goes on, after that callback, over the entries as it left them. *)
Lemma forEach_one_change {R A : Type} (entries : R → list (option A))
    (visit : A → R → completion R unit) pre c post r r' pre' rest' fuel :
  entries r = pre ++ Some c :: post →
  (∀ a, Some a ∈ pre → visit a r = Normal tt r) →
  visit c r = Normal tt r' →
  entries r' = pre' ++ rest' →
  length pre' = S (length pre) →
  (∀ a, Some a ∈ rest' → visit a r' = Normal tt r') →
  length pre + S (length rest') < fuel →
  forEach entries visit fuel r = Some (live pre ++ c :: live rest', Normal tt r').
Proof.
  intros Hd Hq Hc Hd' Hlen Hq' Hfuel. unfold forEach.
  replace fuel with (length pre + S (length rest' + (fuel - length pre - S (length rest'))))
    by lia.
  rewrite (forEach_from_through entries visit pre [] (Some c :: post) r); simpl; [|done|].
  - rewrite Hd, list_lookup_middle by done. rewrite Hc.
    rewrite <- Hlen.
    rewrite (forEach_from_through entries visit rest' pre' [] r'); simpl.
    + destruct (fuel - length pre - S (length rest')) as [|k] eqn:Hk; [lia|]. simpl.
      rewrite lookup_ge_None_2 by (rewrite Hd', length_app; lia). simpl.
      by rewrite app_nil_r.
    + by rewrite app_nil_r.
    + intros a Ha. apply Hq'. by apply elem_of_live.
  - intros a Ha. apply Hq. by apply elem_of_live.
Qed.

(** ** EventEmitter, continued *)

Section more_emitter_facts.
Import EventEmitter.
Implicit Types (em : emitter) (ev : string) (c : EventCallback).

Lemma listenerCount_listeners ev em : listenerCount ev em = set_size (listeners ev em).
Proof. unfold listenerCount, listeners. by destruct (events em !! ev). Qed.

Lemma listeners_off ev c em : listeners ev (off ev c em) = set_delete c (listeners ev em).
Proof.
  unfold off, listeners, set_at. destruct (events em !! ev) as [l|] eqn:Hev; simpl.
  - rewrite Hev, list_lookup_alter_eq. by destruct (sets em !! l).
  - by rewrite Hev.
Qed.

Lemma off_absent ev c em : Some c ∉ listeners ev em → off ev c em = em.
Proof.
  unfold off, listeners, set_at. destruct (events em !! ev) as [l|]; [|done].
  intros Hnot. rewrite alter_fixed; [by destruct em|].
  intros d Hd. rewrite Hd in Hnot. by apply set_delete_absent.
Qed.

Lemma off_off ev c em : off ev c (off ev c em) = off ev c em.
Proof. apply off_absent. rewrite listeners_off. apply set_delete_not_elem. Qed.

Lemma off_wf ev c em : emitter_wf em → emitter_wf (off ev c em).
Proof.
  intros Hwf ev' l' Hev'. unfold off in *.
  destruct (events em !! ev) as [l|]; simpl in *; [|by apply (Hwf ev')].
  destruct (Hwf ev' l' Hev') as (d & Hd & Hnd). rewrite list_lookup_alter.
  case_decide; subst; rewrite Hd; simpl; eexists; split; try done.
  eapply emptied_wf; [apply set_delete_emptied | done].
Qed.

Lemma new_inj : emitter_inj new.
Proof. intros ev1 ev2 l H1. simpl in H1. by rewrite lookup_empty in H1. Qed.

Lemma on_inj ev c em : emitter_wf em → emitter_inj em → emitter_inj (on ev c em).2.
Proof.
  intros Hwf Hinj. unfold on. simpl.
  destruct (events em !! ev) as [l|] eqn:Hev; simpl.
  - repeat (progress (rewrite ?Hev; simpl)). done.
  - repeat (progress (rewrite ?lookup_insert_eq; simpl)).
    intros ev1 ev2 l H1 H2. simpl in H1, H2.
    apply lookup_insert_Some in H1 as [[<- <-]|[Hne1 H1]];
      apply lookup_insert_Some in H2 as [[<- Heq]|[Hne2 H2]]; try done.
    + destruct (Hwf ev2 _ H2) as (d & Hd & _). apply lookup_lt_Some in Hd. lia.
    + subst l. destruct (Hwf ev1 _ H1) as (d & Hd & _). apply lookup_lt_Some in Hd. lia.
    + by apply (Hinj ev1 ev2 l).
Qed.

Lemma off_inj ev c em : emitter_inj em → emitter_inj (off ev c em).
Proof.
  intros Hinj. unfold off. by destruct (events em !! ev).
Qed.

(** Other events keep their Set objects, untouched. *)
Lemma listeners_off_other ev ev' c em :
  emitter_inj em → ev' ≠ ev → listeners ev' (off ev c em) = listeners ev' em.
Proof.
  intros Hinj Hne. unfold off, listeners, set_at.
  destruct (events em !! ev) as [l|] eqn:Hev; [|done]. simpl.
  destruct (events em !! ev') as [l'|] eqn:Hev'; [|done].
  rewrite list_lookup_alter_ne; [done|]. intros ->. by apply Hne, (Hinj ev' ev l').
Qed.

Lemma listeners_on_other ev ev' c em :
  emitter_wf em → emitter_inj em → ev' ≠ ev →
  listeners ev' (on ev c em).2 = listeners ev' em.
Proof.
  intros Hwf Hinj Hne. unfold on, listeners, set_at. simpl.
  destruct (events em !! ev) as [l|] eqn:Hev; simpl.
  - repeat (progress (rewrite ?Hev; simpl)).
    destruct (events em !! ev') as [l'|] eqn:Hev'; [|done].
    rewrite list_lookup_alter_ne; [done|]. intros ->. by apply Hne, (Hinj ev' ev l').
  - repeat (progress (rewrite ?lookup_insert_eq; simpl)).
    rewrite lookup_insert_ne by done.
    destruct (events em !! ev') as [l'|] eqn:Hev'; [|done].
    destruct (Hwf ev' l' Hev') as (d & Hd & _).
    rewrite list_lookup_alter_ne by (apply lookup_lt_Some in Hd; lia).
    by rewrite lookup_app_l by (by eapply lookup_lt_Some).
Qed.
End more_emitter_facts.

Section emit_change.
Import EventEmitter.
Context {T : Type}.
Variable body : EventCallback → T → emitter → completion emitter unit.

Lemma off_events ev c em : events (off ev c em) = events em.
Proof. unfold off. by destruct (events em !! ev). Qed.

Lemma on_events_present ev c em :
  is_Some (events em !! ev) → events (on ev c em).2 = events em.
Proof.
  intros [l Hev]. unfold on. simpl. repeat (progress (rewrite ?Hev; simpl)). done.
Qed.

Lemma listeners_nonempty ev em e d1 d2 :
  listeners ev em = d1 ++ e :: d2 → is_Some (events em !! ev).
Proof.
  unfold listeners. destruct (events em !! ev); [done|]. intros Hd. by destruct d1.
Qed.

(** [emit] when one callback changes the registry and all others are
    quiet. *)
Lemma emit_one_change fuel ev (data : T) em pre c post em' pre' rest' :
  listeners ev em = pre ++ Some c :: post →
  (∀ c', Some c' ∈ pre → body c' data em = Normal tt em) →
  body c data em = Normal tt em' →
  events em' = events em →
  listeners ev em' = pre' ++ rest' →
  length pre' = S (length pre) →
  (∀ c', Some c' ∈ rest' → body c' data em' = Normal tt em') →
  length pre + S (length rest') < fuel →
  emit body fuel ev data em
  = Some ((λ cb, (cb, data)) <$> (live pre ++ c :: live rest'), Normal tt em').
Proof.
  intros Hd Hq Hc Hev' Hd' Hlen Hq' Hfuel.
  destruct (listeners_nonempty _ _ _ _ _ Hd) as [l Hev].
  unfold emit, listeners in *. rewrite Hev' in Hd'. rewrite Hev in *.
  by rewrite (forEach_one_change (set_at l) (λ cb, body cb data)
                pre c post em em' pre' rest' fuel Hd Hq Hc Hd' Hlen Hq' Hfuel).
Qed.
End emit_change.

(** X1: [off] removes exactly the given callback from the event's
    listeners: the callback is gone, the other listeners keep their order,
    and the listener count drops by one. *)
Theorem off_removes_callback (event : string) (callback : EventEmitter.EventCallback)
    (em : EventEmitter.emitter) :
  EventEmitter.emitter_wf em →
  Some callback ∈ EventEmitter.listeners event em →
  (Some callback ∉ EventEmitter.listeners event (EventEmitter.off event callback em))
  ∧ live (EventEmitter.listeners event (EventEmitter.off event callback em))
    = filter (λ c, c ≠ callback) (live (EventEmitter.listeners event em))
  ∧ S (EventEmitter.listenerCount event (EventEmitter.off event callback em))
    = EventEmitter.listenerCount event em.
Proof.
  intros Hwf Hin. rewrite !listenerCount_listeners, listeners_off. split_and!.
  - apply set_delete_not_elem.
  - apply live_set_delete.
  - unfold set_size. rewrite live_set_delete, <- Nat.add_1_r. apply filter_ne_length.
    + by apply listeners_wf.
    + by apply elem_of_live.
Qed.

Lemma off_removes_callback_witness :
  S (EventEmitter.listenerCount "test"
       (EventEmitter.off "test" 2 Scenario.three_listeners))
  = EventEmitter.listenerCount "test" Scenario.three_listeners.
Proof.
  apply (off_removes_callback "test" 2 Scenario.three_listeners).
  - repeat apply on_listeners. apply new_wf.
  - vm_compute. repeat constructor.
Defined.

(** X2: [off] with nothing to remove is not an error and changes nothing:
    when the callback is not registered for the event (in particular when
    the event is unknown) the emitter is left as it is, and a second [off]
    after a first changes nothing more. *)
Theorem off_without_registration (event : string)
    (callback : EventEmitter.EventCallback) (em : EventEmitter.emitter) :
  (Some callback ∉ EventEmitter.listeners event em →
   EventEmitter.off event callback em = em)
  ∧ (EventEmitter.events em !! event = None →
     EventEmitter.off event callback em = em)
  ∧ EventEmitter.off event callback (EventEmitter.off event callback em)
    = EventEmitter.off event callback em.
Proof.
  split_and!; [apply off_absent | | apply off_off].
  intros Hev. unfold EventEmitter.off. by rewrite Hev.
Qed.

Lemma off_without_registration_witness :
  EventEmitter.off "test" 7 Scenario.three_listeners = Scenario.three_listeners
  ∧ EventEmitter.off "unknown" 1 Scenario.three_listeners = Scenario.three_listeners.
Proof.
  split.
  - apply (proj1 (off_without_registration "test" 7 Scenario.three_listeners)).
    vm_compute. intros Hin.
    repeat (apply elem_of_cons in Hin as [Hin|Hin]; [discriminate|]).
    by apply elem_of_nil in Hin.
  - apply (proj1 (proj2 (off_without_registration "unknown" 1 Scenario.three_listeners))).
    reflexivity.
Defined.

(** X3: the function returned by [on] unsubscribes the callback.  After it
    has run the callback is not among the event's listeners (also when the
    callback had been registered before this [on]); when the callback was
    new, the listener count is back to what it was; running it again
    changes nothing; and an [emit] (with callbacks that return and leave
    the emitter alone) calls the remaining listeners and not the
    callback. *)
Theorem on_handle_unsubscribes {T : Type}
    (body : EventEmitter.EventCallback → T → EventEmitter.emitter →
            completion EventEmitter.emitter unit)
    (event : string) (callback : EventEmitter.EventCallback)
    (em : EventEmitter.emitter) :
  EventEmitter.emitter_wf em →
  let handle := (EventEmitter.on event callback em).1 in
  let after := handle (EventEmitter.on event callback em).2 in
  live (EventEmitter.listeners event after)
  = filter (λ c, c ≠ callback) (live (EventEmitter.listeners event em))
  ∧ (Some callback ∉ EventEmitter.listeners event em →
     EventEmitter.listenerCount event after = EventEmitter.listenerCount event em)
  ∧ handle after = after
  ∧ ∀ fuel data,
      (∀ c, Some c ∈ EventEmitter.listeners event after →
            body c data after = Normal tt after) →
      length (EventEmitter.listeners event after) < fuel →
      EventEmitter.emit body fuel event data after
      = Some ((λ cb, (cb, data))
                <$> filter (λ c, c ≠ callback) (live (EventEmitter.listeners event em)),
              Normal tt after).
Proof.
  intros Hwf handle after.
  destruct (on_listeners event callback em Hwf) as [Hl Hwf'].
  assert (Hlive : live (EventEmitter.listeners event after)
                  = filter (λ c, c ≠ callback) (live (EventEmitter.listeners event em))).
  { unfold after, handle.
    change (EventEmitter.on event callback em).1 with (EventEmitter.off event callback).
    rewrite listeners_off, Hl, live_set_delete.
    unfold set_add. destruct (set_has callback _) eqn:Hhas; [done|].
    rewrite live_app, filter_app. simpl. rewrite filter_cons, decide_False, filter_nil.
    - by rewrite app_nil_r.
    - intros Hne. by apply Hne. }
  split_and!; [done | | apply off_off |].
  - intros Hnot. rewrite !listenerCount_listeners. unfold set_size. rewrite Hlive.
    rewrite filter_ne_absent; [done|]. intros Hin. by apply Hnot, elem_of_live.
  - intros fuel data Hq Hfuel. rewrite <- Hlive. by apply emit_quiet.
Qed.

Lemma on_handle_unsubscribes_witness :
  EventEmitter.emit Scenario.quiet_body 4 "test" 7%Z
    ((EventEmitter.on "test" 3 Scenario.two_listeners).1
       (EventEmitter.on "test" 3 Scenario.two_listeners).2)
  = Some ([(1, 7%Z); (2, 7%Z)],
          Normal tt ((EventEmitter.on "test" 3 Scenario.two_listeners).1
                       (EventEmitter.on "test" 3 Scenario.two_listeners).2)).
Proof.
  apply (on_handle_unsubscribes Scenario.quiet_body "test" 3 Scenario.two_listeners).
  - repeat apply on_listeners. apply new_wf.
  - reflexivity.
  - vm_compute. lia.
Defined.

(** X4: [on] with a callback that is not yet registered for the event adds
    it at the end: the listener count grows by one, and an [emit] (with
    callbacks that return and leave the emitter alone) calls the earlier
    listeners in their order and then the new callback, each with the
    payload. *)
Theorem on_appends_listener {T : Type}
    (body : EventEmitter.EventCallback → T → EventEmitter.emitter →
            completion EventEmitter.emitter unit)
    (event : string) (callback : EventEmitter.EventCallback)
    (em : EventEmitter.emitter) :
  EventEmitter.emitter_wf em →
  Some callback ∉ EventEmitter.listeners event em →
  let em1 := (EventEmitter.on event callback em).2 in
  EventEmitter.listenerCount event em1 = S (EventEmitter.listenerCount event em)
  ∧ live (EventEmitter.listeners event em1)
    = live (EventEmitter.listeners event em) ++ [callback]
  ∧ ∀ fuel data,
      (∀ c, Some c ∈ EventEmitter.listeners event em1 → body c data em1 = Normal tt em1) →
      length (EventEmitter.listeners event em1) < fuel →
      EventEmitter.emit body fuel event data em1
      = Some ((λ cb, (cb, data)) <$> (live (EventEmitter.listeners event em) ++ [callback]),
              Normal tt em1).
Proof.
  intros Hwf Hnot em1.
  destruct (on_listeners event callback em Hwf) as [Hl Hwf'].
  assert (Hlive : live (EventEmitter.listeners event em1)
                  = live (EventEmitter.listeners event em) ++ [callback]).
  { unfold em1. rewrite Hl. by apply live_set_add_new. }
  split_and!; [| done |].
  - rewrite !listenerCount_listeners. unfold set_size.
    rewrite Hlive, length_app. simpl. lia.
  - intros fuel data Hq Hfuel. rewrite <- Hlive. by apply emit_quiet.
Qed.

Lemma on_appends_listener_witness :
  EventEmitter.listenerCount "test" (EventEmitter.on "test" 3 Scenario.two_listeners).2
  = S (EventEmitter.listenerCount "test" Scenario.two_listeners).
Proof.
  apply (on_appends_listener Scenario.quiet_body "test" 3 Scenario.two_listeners).
  - repeat apply on_listeners. apply new_wf.
  - vm_compute. intros Hin.
    repeat (apply elem_of_cons in Hin as [Hin|Hin]; [discriminate|]).
    by apply elem_of_nil in Hin.
Defined.

(** X5: [removeAllListeners(event)] leaves the event without listeners (the
    count is 0 and [emit] calls nobody) and leaves the listeners of every
    other event as they were; without an argument, and also with the
    empty string as event (which the test [if (event)] takes for no
    argument), it leaves no event with listeners. *)
Theorem removeAllListeners_clears {T : Type}
    (body : EventEmitter.EventCallback → T → EventEmitter.emitter →
            completion EventEmitter.emitter unit)
    (em : EventEmitter.emitter) :
  (∀ event, event ≠ EmptyString →
     let em' := EventEmitter.removeAllListeners (Some event) em in
     EventEmitter.listenerCount event em' = 0
     ∧ (∀ fuel data, EventEmitter.emit body fuel event data em' = Some ([], Normal tt em'))
     ∧ (∀ other, other ≠ event →
          EventEmitter.listeners other em' = EventEmitter.listeners other em))
  ∧ (∀ arg event, arg = None ∨ arg = Some EmptyString →
       let em' := EventEmitter.removeAllListeners arg em in
       EventEmitter.listenerCount event em' = 0
       ∧ ∀ fuel data, EventEmitter.emit body fuel event data em' = Some ([], Normal tt em')).
Proof.
  split.
  - intros event Hne em'. unfold em', EventEmitter.removeAllListeners.
    rewrite decide_False by done.
    unfold EventEmitter.listenerCount, EventEmitter.emit, EventEmitter.listeners. simpl.
    rewrite lookup_delete_eq. split_and!; [done | done |].
    intros other Hother. by rewrite lookup_delete_ne.
  - intros arg event Harg em'.
    assert (Hem' : em' = {| EventEmitter.events := ∅;
                            EventEmitter.sets := EventEmitter.sets em |}).
    { unfold em', EventEmitter.removeAllListeners. by destruct Harg as [->| ->]. }
    rewrite Hem'. unfold EventEmitter.listenerCount, EventEmitter.emit. simpl.
    by rewrite lookup_empty.
Qed.

Lemma removeAllListeners_clears_witness :
  EventEmitter.listenerCount "test"
    (EventEmitter.removeAllListeners (Some "test") Fixture.two_events) = 0
  ∧ EventEmitter.listeners "other"
      (EventEmitter.removeAllListeners (Some "test") Fixture.two_events)
    = EventEmitter.listeners "other" Fixture.two_events
  ∧ EventEmitter.listenerCount "other"
      (EventEmitter.removeAllListeners (Some "") Fixture.two_events) = 0.
Proof.
  destruct (removeAllListeners_clears Scenario.quiet_body Fixture.two_events)
    as [Hone Hall].
  destruct (Hone "test") as (Hcount & _ & Hother); [discriminate|].
  split_and!.
  - exact Hcount.
  - apply Hother. discriminate.
  - apply (Hall (Some "") "other"). by right.
Defined.

(** X6: events do not interfere.  Registering or removing a callback for
    one event leaves the listeners, and so the listener count, of every
    other event as they were; this rests on two facts that [on] and [off]
    keep: registered Set objects have no repeated callback, and different
    events have different Set objects. *)
Theorem events_are_independent (event other : string)
    (callback : EventEmitter.EventCallback) (em : EventEmitter.emitter) :
  EventEmitter.emitter_wf em →
  EventEmitter.emitter_inj em →
  other ≠ event →
  EventEmitter.listeners other (EventEmitter.on event callback em).2
  = EventEmitter.listeners other em
  ∧ EventEmitter.listeners other (EventEmitter.off event callback em)
    = EventEmitter.listeners other em
  ∧ EventEmitter.listenerCount other (EventEmitter.on event callback em).2
    = EventEmitter.listenerCount other em
  ∧ EventEmitter.listenerCount other (EventEmitter.off event callback em)
    = EventEmitter.listenerCount other em
  ∧ EventEmitter.emitter_wf (EventEmitter.on event callback em).2
  ∧ EventEmitter.emitter_inj (EventEmitter.on event callback em).2
  ∧ EventEmitter.emitter_wf (EventEmitter.off event callback em)
  ∧ EventEmitter.emitter_inj (EventEmitter.off event callback em).
Proof.
  intros Hwf Hinj Hne. rewrite !listenerCount_listeners.
  rewrite listeners_on_other, listeners_off_other by done.
  split_and!; try done.
  - by apply on_listeners.
  - by apply on_inj.
  - by apply off_wf.
  - by apply off_inj.
Qed.

Lemma events_are_independent_witness :
  EventEmitter.listeners "other" (EventEmitter.on "test" 2 Fixture.two_events).2
  = EventEmitter.listeners "other" Fixture.two_events
  ∧ EventEmitter.listeners "other" (EventEmitter.off "test" 1 Fixture.two_events)
    = EventEmitter.listeners "other" Fixture.two_events.
Proof.
  destruct (events_are_independent "test" "other" 2 Fixture.two_events)
    as (Hon & _); [| | discriminate |].
  - repeat apply on_listeners. apply new_wf.
  - apply on_inj; [apply on_listeners, new_wf|]. apply on_inj; [apply new_wf | apply new_inj].
  - split; [exact Hon|].
    apply (events_are_independent "test" "other" 1 Fixture.two_events); [| | discriminate].
    + repeat apply on_listeners. apply new_wf.
    + apply on_inj; [apply on_listeners, new_wf|].
      apply on_inj; [apply new_wf | apply new_inj].
Defined.

(** X7: a [once] registration fires once.  With the new function object
    registered by [once] (and the callback and the other listeners
    returning without touching the emitter), the first [emit] calls the
    earlier listeners and then the new object, which runs the callback and
    unregisters itself; the listener count is then what it was before
    [once], and a second [emit] calls the earlier listeners only. *)
Theorem once_fires_once {T : Type}
    (body : EventEmitter.EventCallback → T → EventEmitter.emitter →
            completion EventEmitter.emitter unit)
    (event : string) (callback wrapper : EventEmitter.EventCallback)
    (em : EventEmitter.emitter) (fuel : nat) (data : T) :
  EventEmitter.emitter_wf em →
  Some wrapper ∉ EventEmitter.listeners event em →
  (∀ c em0, Some c ∈ EventEmitter.listeners event em → body c data em0 = Normal tt em0) →
  (∀ em0, body callback data em0 = Normal tt em0) →
  S (length (EventEmitter.listeners event em)) < fuel →
  let body' := EventEmitter.wrapper_body body event callback wrapper in
  let em1 := (EventEmitter.once event callback wrapper em).2 in
  let em2 := EventEmitter.off event wrapper em1 in
  EventEmitter.emit body' fuel event data em1
  = Some ((λ cb, (cb, data)) <$> (live (EventEmitter.listeners event em) ++ [wrapper]),
          Normal tt em2)
  ∧ EventEmitter.listenerCount event em2 = EventEmitter.listenerCount event em
  ∧ EventEmitter.emit body' fuel event data em2
    = Some ((λ cb, (cb, data)) <$> live (EventEmitter.listeners event em), Normal tt em2).
Proof.
  intros Hwf Hnew Hq Hcb Hfuel body' em1 em2.
  destruct (on_listeners event wrapper em Hwf) as [Hl Hwf1].
  assert (Hl1 : EventEmitter.listeners event em1
                = EventEmitter.listeners event em ++ [Some wrapper]).
  { unfold em1, EventEmitter.once. rewrite Hl. unfold set_add.
    destruct (set_has wrapper _) eqn:Hhas; [by apply set_has_true in Hhas | done]. }
  assert (Hl2 : EventEmitter.listeners event em2
                = EventEmitter.listeners event em ++ [None]).
  { unfold em2. rewrite listeners_off, Hl1. unfold set_delete. rewrite fmap_app.
    simpl. rewrite decide_True by done. f_equal.
    by apply (set_delete_absent wrapper). }
  assert (Hq' : ∀ c em0, Some c ∈ EventEmitter.listeners event em →
                  body' c data em0 = Normal tt em0).
  { intros c em0 Hc. unfold body', EventEmitter.wrapper_body.
    rewrite decide_False; [by apply Hq|]. by intros ->. }
  split_and!.
  - rewrite (emit_one_change body' fuel event data em1
               (EventEmitter.listeners event em) wrapper [] em2
               (EventEmitter.listeners event em ++ [None]) []).
    + done.
    + exact Hl1.
    + intros c Hc. by apply Hq'.
    + unfold body', EventEmitter.wrapper_body. by rewrite decide_True, Hcb.
    + apply off_events.
    + by rewrite app_nil_r.
    + rewrite length_app. simpl. lia.
    + intros c Hc. by apply elem_of_nil in Hc.
    + simpl. lia.
  - rewrite !listenerCount_listeners. unfold set_size.
    rewrite Hl2, live_app. simpl. by rewrite app_nil_r.
  - rewrite (emit_quiet body' fuel event data em2).
    + rewrite Hl2, live_app. simpl. by rewrite app_nil_r.
    + intros c Hc. rewrite Hl2 in Hc. apply elem_of_app in Hc as [Hc|Hc].
      * by apply Hq'.
      * apply list_elem_of_singleton in Hc. discriminate.
    + rewrite Hl2, length_app. simpl. lia.
Qed.

Lemma once_fires_once_witness :
  EventEmitter.emit (EventEmitter.wrapper_body Scenario.quiet_body "test" 5 8) 5 "test" 7%Z
    (EventEmitter.once "test" 5 8 Scenario.two_listeners).2
  = Some ([(1, 7%Z); (2, 7%Z); (8, 7%Z)],
          Normal tt (EventEmitter.off "test" 8
                       (EventEmitter.once "test" 5 8 Scenario.two_listeners).2)).
Proof.
  apply (once_fires_once Scenario.quiet_body "test" 5 8 Scenario.two_listeners 5 7%Z).
  - repeat apply on_listeners. apply new_wf.
  - vm_compute. intros Hin.
    repeat (apply elem_of_cons in Hin as [Hin|Hin]; [discriminate|]).
    by apply elem_of_nil in Hin.
  - reflexivity.
  - reflexivity.
  - vm_compute. lia.
Defined.

(** X8: a [once] registration whose callback throws stays registered.  The
    new function object calls [off] only after the callback has returned:
    when the callback throws, [emit] throws, the object is still among the
    listeners, and the listener count is one more than before [once]. *)
Theorem once_throwing_stays {T : Type}
    (body : EventEmitter.EventCallback → T → EventEmitter.emitter →
            completion EventEmitter.emitter unit)
    (event : string) (callback wrapper : EventEmitter.EventCallback)
    (em : EventEmitter.emitter) (fuel : nat) (data : T) (e : exn) :
  EventEmitter.emitter_wf em →
  Some wrapper ∉ EventEmitter.listeners event em →
  (∀ c em0, Some c ∈ EventEmitter.listeners event em → body c data em0 = Normal tt em0) →
  (∀ em0, body callback data em0 = Throws e em0) →
  length (EventEmitter.listeners event em) < fuel →
  let body' := EventEmitter.wrapper_body body event callback wrapper in
  let em1 := (EventEmitter.once event callback wrapper em).2 in
  EventEmitter.emit body' fuel event data em1
  = Some ((λ cb, (cb, data)) <$> (live (EventEmitter.listeners event em) ++ [wrapper]),
          Throws e em1)
  ∧ Some wrapper ∈ EventEmitter.listeners event em1
  ∧ EventEmitter.listenerCount event em1 = S (EventEmitter.listenerCount event em).
Proof.
  intros Hwf Hnew Hq Hcb Hfuel body' em1.
  destruct (on_listeners event wrapper em Hwf) as [Hl Hwf1].
  assert (Hl1 : EventEmitter.listeners event em1
                = EventEmitter.listeners event em ++ [Some wrapper]).
  { unfold em1, EventEmitter.once. rewrite Hl. unfold set_add.
    destruct (set_has wrapper _) eqn:Hhas; [by apply set_has_true in Hhas | done]. }
  split_and!.
  - apply (emit_throw body' fuel event data em1 (EventEmitter.listeners event em)
             wrapper [] e em1); [done | | | done].
    + intros c Hc. unfold body', EventEmitter.wrapper_body.
      rewrite decide_False; [by apply Hq|]. by intros ->.
    + unfold body', EventEmitter.wrapper_body. by rewrite decide_True, Hcb.
  - rewrite Hl1. apply elem_of_app. right. by apply list_elem_of_singleton.
  - rewrite !listenerCount_listeners. unfold set_size.
    rewrite Hl1, live_app, length_app. simpl. lia.
Qed.

Lemma once_throwing_stays_witness :
  EventEmitter.emit (EventEmitter.wrapper_body Fixture.nine_throws "test" 9 8) 5 "test" 7%Z
    (EventEmitter.once "test" 9 8 Scenario.two_listeners).2
  = Some ([(1, 7%Z); (2, 7%Z); (8, 7%Z)],
          Throws "boom" (EventEmitter.once "test" 9 8 Scenario.two_listeners).2).
Proof.
  apply (once_throwing_stays Fixture.nine_throws "test" 9 8 Scenario.two_listeners 5 7%Z).
  - repeat apply on_listeners. apply new_wf.
  - vm_compute. intros Hin.
    repeat (apply elem_of_cons in Hin as [Hin|Hin]; [discriminate|]).
    by apply elem_of_nil in Hin.
  - intros c em0 Hin. vm_compute in Hin.
    repeat (apply elem_of_cons in Hin as [Hin|Hin]; [by simplify_eq|]).
    by apply elem_of_nil in Hin.
  - reflexivity.
  - vm_compute. lia.
Defined.

(** X9: a listener registered during an [emit] for the same event is called
    in that same pass.  When one listener's callback registers a callback
    that was not registered (all other callbacks returning without
    touching the emitter), [emit] calls the listeners that were there, in
    their order, and then the added callback. *)
Theorem listener_added_during_emit {T : Type}
    (body : EventEmitter.EventCallback → T → EventEmitter.emitter →
            completion EventEmitter.emitter unit)
    (fuel : nat) (event : string) (data : T) (em : EventEmitter.emitter)
    (c added : EventEmitter.EventCallback) :
  EventEmitter.emitter_wf em →
  Some c ∈ EventEmitter.listeners event em →
  Some added ∉ EventEmitter.listeners event em →
  (∀ c' em0, c' ≠ c → body c' data em0 = Normal tt em0) →
  (∀ em0, body c data em0 = Normal tt (EventEmitter.on event added em0).2) →
  S (length (EventEmitter.listeners event em)) < fuel →
  EventEmitter.emit body fuel event data em
  = Some ((λ cb, (cb, data)) <$> (live (EventEmitter.listeners event em) ++ [added]),
          Normal tt (EventEmitter.on event added em).2).
Proof.
  intros Hwf Hc Hnew Hq Hadd Hfuel.
  apply list_elem_of_split in Hc as (pre & post & Hd).
  pose proof (listeners_wf event em Hwf) as Hnd. unfold set_wf in Hnd.
  rewrite Hd, live_app in Hnd. simpl in Hnd.
  apply NoDup_app in Hnd as (_ & Hpre & Hnd). apply NoDup_cons in Hnd as [Hpost _].
  destruct (on_listeners event added em Hwf) as [Hl _].
  assert (Hl' : EventEmitter.listeners event (EventEmitter.on event added em).2
                = (pre ++ [Some c]) ++ (post ++ [Some added])).
  { rewrite Hl, Hd. unfold set_add.
    destruct (set_has added _) eqn:Hhas.
    - apply set_has_true in Hhas. by rewrite <- Hd in Hhas.
    - by rewrite <- !app_assoc. }
  rewrite (emit_one_change body fuel event data em pre c post
             (EventEmitter.on event added em).2 (pre ++ [Some c]) (post ++ [Some added])).
  - rewrite Hd, !live_app. simpl. by rewrite <- !app_assoc.
  - done.
  - intros c' Hc'. apply Hq. intros ->. apply (Hpre c); [by apply elem_of_live | by left].
  - apply Hadd.
  - apply on_events_present. by eapply listeners_nonempty.
  - done.
  - rewrite length_app. simpl. lia.
  - intros c' Hc'. apply Hq. intros ->. apply elem_of_app in Hc' as [Hc'|Hc'].
    + by apply Hpost, elem_of_live.
    + apply list_elem_of_singleton in Hc'. simplify_eq. apply Hnew. rewrite Hd.
      apply elem_of_app. right. by left.
  - rewrite Hd, !length_app in Hfuel. rewrite length_app. simpl in *. lia.
Qed.

Lemma listener_added_during_emit_witness :
  EventEmitter.emit Fixture.one_adds_four 5 "test" 7%Z Scenario.three_listeners
  = Some ([(1, 7%Z); (2, 7%Z); (3, 7%Z); (4, 7%Z)],
          Normal tt (EventEmitter.on "test" 4 Scenario.three_listeners).2).
Proof.
  apply (listener_added_during_emit Fixture.one_adds_four 5 "test" 7%Z
           Scenario.three_listeners 1 4).
  - repeat apply on_listeners. apply new_wf.
  - vm_compute. repeat constructor.
  - vm_compute. intros Hin.
    repeat (apply elem_of_cons in Hin as [Hin|Hin]; [discriminate|]).
    by apply elem_of_nil in Hin.
  - intros c' em0 Hne. unfold Fixture.one_adds_four. by rewrite decide_False.
  - reflexivity.
  - vm_compute. lia.
Defined.

(** ** ObservableStore, continued *)

(** X10: [unsubscribe] stops the notifications of one observer.  It leaves
    the state alone; when the observer is not subscribed it changes
    nothing, and a second [unsubscribe] changes nothing more; afterwards a
    [setState] that changes the state (with observers that return and
    leave the observer set alone) calls the other observers, in their
    order, and not this one. *)
Theorem unsubscribe_stops_notifications {T : Type} `{StrictEquality T}
    (update : ObservableStore.Observer → T → SetData ObservableStore.Observer →
              completion (SetData ObservableStore.Observer) unit)
    (observer : ObservableStore.Observer) (s : ObservableStore.store T) :
  let s' := ObservableStore.unsubscribe observer s in
  (Some observer ∉ ObservableStore.observers s → s' = s)
  ∧ ObservableStore.unsubscribe observer s' = s'
  ∧ ObservableStore.getState s' = ObservableStore.getState s
  ∧ ∀ fuel newState v,
      ObservableStore.next_state newState (ObservableStore.state s)
      = ObservableStore.Returns v →
      strict_equal v (ObservableStore.state s) = false →
      (∀ o, Some o ∈ ObservableStore.observers s' →
         update o v (ObservableStore.observers s') = Normal tt (ObservableStore.observers s')) →
      length (ObservableStore.observers s) < fuel →
      ObservableStore.setState update fuel newState s'
      = Some ((λ o, (o, v))
                <$> filter (λ o, o ≠ observer) (live (ObservableStore.observers s)),
              Normal tt {| ObservableStore.observers := ObservableStore.observers s';
                           ObservableStore.state := v |}).
Proof.
  intros s'. split_and!.
  - intros Hnot. unfold s', ObservableStore.unsubscribe.
    rewrite set_delete_absent by done. by destruct s.
  - unfold s', ObservableStore.unsubscribe. simpl. by rewrite set_delete_idemp.
  - done.
  - intros fuel newState v Hv Hne Hq Hfuel. unfold ObservableStore.setState.
    cbn [ObservableStore.state ObservableStore.observers s' ObservableStore.unsubscribe].
    rewrite Hv. cbn [ObservableStore.state ObservableStore.observers].
    rewrite Hne. cbn [negb]. rewrite <- live_set_delete.
    apply (notify_quiet update fuel v
             {| ObservableStore.observers := set_delete observer (ObservableStore.observers s);
                ObservableStore.state := v |}).
    + exact Hq.
    + simpl. unfold set_delete. by rewrite length_fmap.
Qed.

Lemma unsubscribe_stops_notifications_witness :
  ObservableStore.setState Scenario.quiet_update 3 (ObservableStore.Literal 5%Z)
    (ObservableStore.unsubscribe 1 Scenario.counter_store)
  = Some ([(2, 5%Z)],
          Normal tt {| ObservableStore.observers := [None; Some 2];
                       ObservableStore.state := 5%Z |}).
Proof.
  destruct (unsubscribe_stops_notifications Scenario.quiet_update 1 Scenario.counter_store)
    as (_ & _ & _ & Hset).
  apply (Hset 3 (ObservableStore.Literal 5%Z) 5%Z);
    [reflexivity | reflexivity | reflexivity | simpl; lia].
Defined.

(** X11: subscribing an observer that is already subscribed replays the
    state once more but does not register it a second time.  Both
    [subscribe] calls call [update] with the current state; the observer
    set after the second call is the set after the first; and a following
    change of state calls the observer exactly once. *)
Theorem subscribe_again_replays {T : Type} `{StrictEquality T}
    (update : ObservableStore.Observer → T → SetData ObservableStore.Observer →
              completion (SetData ObservableStore.Observer) unit)
    (observer : ObservableStore.Observer) (s : ObservableStore.store T) :
  (∀ o d r, update o d r = Normal tt r) →
  set_wf (ObservableStore.observers s) →
  let first := ObservableStore.subscribe update observer s in
  let second := ObservableStore.subscribe update observer (state_of first.2) in
  first.1 = [(observer, ObservableStore.state s)]
  ∧ second.1 = [(observer, ObservableStore.state s)]
  ∧ state_of second.2 = state_of first.2
  ∧ ∀ fuel v,
      strict_equal v (ObservableStore.state s) = false →
      length (ObservableStore.observers (state_of second.2)) < fuel →
      ∃ calls s',
        ObservableStore.setState update fuel (ObservableStore.Literal v) (state_of second.2)
        = Some (calls, Normal tt s')
        ∧ filter (λ c : ObservableStore.Observer * T, c.1 = observer) calls
          = [(observer, v)].
Proof.
  intros Hq Hwf first second.
  assert (H1 : first = ([(observer, ObservableStore.state s)],
                        Normal tt {| ObservableStore.observers :=
                                       set_add observer (ObservableStore.observers s);
                                     ObservableStore.state := ObservableStore.state s |})).
  { unfold first, ObservableStore.subscribe. simpl. by rewrite Hq. }
  assert (H2 : second = first).
  { unfold second. rewrite H1. unfold ObservableStore.subscribe. simpl.
    by rewrite Hq, set_add_idemp. }
  rewrite H2, H1. simpl. split_and!; [done | done | done |].
  intros fuel v Hne Hfuel. eexists _, _. unfold ObservableStore.setState. simpl.
  rewrite Hne. cbn [negb]. split.
  - apply (notify_quiet update fuel v
             {| ObservableStore.observers := set_add observer (ObservableStore.observers s);
                ObservableStore.state := v |}); [|done].
    intros o _. apply Hq.
  - simpl. apply calls_once.
    + by apply set_add_wf.
    + apply elem_of_live, set_add_elem.
Qed.

Lemma subscribe_again_replays_witness :
  (ObservableStore.subscribe Scenario.quiet_update 1
     (state_of (ObservableStore.subscribe Scenario.quiet_update 1
                  (ObservableStore.create 0%Z)).2)).1
  = [(1, 0%Z)].
Proof.
  apply (subscribe_again_replays Scenario.quiet_update 1 (ObservableStore.create 0%Z)).
  - reflexivity.
  - apply NoDup_nil_2.
Defined.

(** ** Maps, continued *)

Section more_map_facts.
Context {K V : Type} `{EqDecision K}.
Implicit Types (d : MapData K V) (k : K) (v : V).

Lemma map_has_false k d :
  map_has k d = false ↔ ∀ v, Some (k, v) ∉ d.
Proof.
  split.
  - intros Hhas v Hin.
    assert (map_has k d = true) as Htrue by (apply map_has_true; eauto). congruence.
  - intros Hnot. destruct (map_has k d) eqn:Hhas; [|done].
    apply map_has_true in Hhas as [v Hin]. by destruct (Hnot v).
Qed.

Lemma map_replace_absent k (e' : option (K * V)) d :
  map_has k d = false → (λ e, if key_is k e then e' else e) <$> d = d.
Proof.
  rewrite map_has_false. induction d as [|e d IH]; intros Hnot; simpl; [done|].
  f_equal.
  - destruct e as [[k0 v0]|]; simpl; [|done]. case_bool_decide; [subst|done].
    destruct (Hnot v0). by left.
  - apply IH. intros v Hin. apply (Hnot v). by right.
Qed.

Lemma map_delete_absent k d : map_has k d = false → map_delete k d = d.
Proof. apply map_replace_absent. Qed.

Lemma map_has_delete k d : map_has k (map_delete k d) = false.
Proof.
  apply map_has_false. intros v Hin. unfold map_delete in Hin.
  apply list_elem_of_fmap in Hin as ([[k0 v0]|] & Heq & _); simpl in Heq; [|done].
  case_bool_decide; simplify_eq.
Qed.

Lemma live_map_delete k d :
  live (map_delete k d) = filter (λ e : K * V, e.1 ≠ k) (live d).
Proof.
  unfold map_delete. induction d as [|[[k0 v0]|] d IH]; simpl; [done | | done].
  rewrite filter_cons. simpl. case_bool_decide; simpl.
  - subst. by rewrite decide_False by (intros H; by apply H).
  - rewrite decide_True by done. by f_equal.
Qed.

Lemma filter_key_length (l : list (K * V)) k :
  NoDup l.*1 → k ∈ l.*1 →
  S (length (filter (λ e : K * V, e.1 ≠ k) l)) = length l.
Proof.
  induction l as [|[k0 v0] l IH]; simpl; intros Hnd Hin; [by apply elem_of_nil in Hin|].
  apply NoDup_cons in Hnd as [Hk0 Hnd]. rewrite filter_cons. simpl.
  destruct (decide (k0 = k)) as [->|Hne].
  - rewrite decide_False by (intros H; by apply H). f_equal.
    clear IH Hin Hnd. induction l as [|[k1 v1] l IH]; [done|].
    simpl in Hk0. apply not_elem_of_cons in Hk0 as [Hne Hk0].
    rewrite filter_cons. simpl. rewrite decide_True by done. simpl. f_equal. by apply IH.
  - rewrite decide_True by done. simpl. f_equal.
    apply elem_of_cons in Hin as [->|Hin]; [done | by apply IH].
Qed.

Lemma map_has_keys k d : map_has k d = true ↔ k ∈ (live d).*1.
Proof.
  rewrite map_has_true, list_elem_of_fmap. split.
  - intros [v Hin]. exists (k, v). split; [done | by apply elem_of_live].
  - intros ([k0 v] & -> & Hin). exists v. by apply elem_of_live.
Qed.

Lemma map_has_app k d1 d2 : map_has k (d1 ++ d2) = map_has k d1 || map_has k d2.
Proof. unfold map_has. apply existsb_app. Qed.
End more_map_facts.

(** ** NewsPublisher, continued *)

(** X12: [unsubscribe] removes the subscriber filed under an id.  With no
    subscriber under the id the publisher is left as it is, and a second
    [unsubscribe] changes nothing more; with one, the subscriber count
    drops by one.  The log is not touched.  A following [publish] (with
    [onNews] functions that return and leave the map alone) delivers to the
    interested subscribers filed under the other ids, in their order, so
    no subscriber with that id is called. *)
Theorem unsubscribe_removes_subscriber
    (onNews_body : nat → NewsArticle.t → MapData string NewsSubscriber.t →
                   completion (MapData string NewsSubscriber.t) unit)
    (subscriberId : string) (p : NewsPublisher.publisher) :
  let p' := NewsPublisher.unsubscribe subscriberId p in
  (map_has subscriberId (NewsPublisher.subscribers p) = false → p' = p)
  ∧ NewsPublisher.unsubscribe subscriberId p' = p'
  ∧ (NewsPublisher.publisher_wf p →
     map_has subscriberId (NewsPublisher.subscribers p) = true →
     S (NewsPublisher.getSubscriberCount p') = NewsPublisher.getSubscriberCount p)
  ∧ NewsPublisher.getArticles p' = NewsPublisher.getArticles p
  ∧ ∀ fuel now article,
      (∀ k sub, Some (k, sub) ∈ NewsPublisher.subscribers p' →
         NewsPublisher.interested sub (ArticleInput.category article) = true →
         onNews_body (NewsSubscriber.onNews sub)
           (NewsPublisher.newArticle article now p') (NewsPublisher.subscribers p')
         = Normal tt (NewsPublisher.subscribers p')) →
      length (NewsPublisher.subscribers p) < fuel →
      ∃ calls p'',
        NewsPublisher.publish onNews_body fuel now article p'
        = Some (calls, Normal (NewsPublisher.newArticle article now p') p'')
        ∧ calls = NewsPublisher.calls_for article (NewsPublisher.newArticle article now p')
                    (filter (λ e : string * NewsSubscriber.t, e.1 ≠ subscriberId)
                       (live (NewsPublisher.subscribers p)))
        ∧ (NewsPublisher.publisher_wf p →
           ∀ sub a, (sub, a) ∈ calls → NewsSubscriber.id sub ≠ subscriberId).
Proof.
  intros p'. split_and!.
  - intros Hhas. unfold p', NewsPublisher.unsubscribe.
    rewrite map_delete_absent by done. by destruct p.
  - unfold p', NewsPublisher.unsubscribe. simpl.
    by rewrite (map_delete_absent _ _ (map_has_delete _ _)).
  - intros [Hkeys _] Hhas. unfold NewsPublisher.getSubscriberCount, map_size. simpl.
    rewrite live_map_delete. apply filter_key_length; [done | by apply map_has_keys].
  - done.
  - intros fuel now article Hq Hfuel. eexists _, _. split; [|split].
    + apply publish_quiet; [done|]. simpl. unfold map_delete. by rewrite length_fmap.
    + simpl. by rewrite live_map_delete.
    + intros [_ Hid] sub a Hin. apply elem_of_calls_for in Hin as (_ & _ & k & Hin).
      simpl in Hin. rewrite live_map_delete in Hin.
      apply list_elem_of_filter in Hin as [Hne Hin]. simpl in Hne.
      apply elem_of_live in Hin. by rewrite (Hid _ _ Hin).
Qed.

Lemma unsubscribe_removes_subscriber_witness :
  S (NewsPublisher.getSubscriberCount (NewsPublisher.unsubscribe "a" Scenario.alice_and_bob))
  = NewsPublisher.getSubscriberCount Scenario.alice_and_bob
  ∧ NewsPublisher.unsubscribe "z" Scenario.alice_and_bob = Scenario.alice_and_bob.
Proof.
  destruct (unsubscribe_removes_subscriber Scenario.quiet_onNews "a" Scenario.alice_and_bob)
    as (_ & _ & Hcount & _).
  split.
  - apply Hcount; [|reflexivity]. repeat apply subscribe_wf. apply new_publisher_wf.
  - apply (proj1 (unsubscribe_removes_subscriber Scenario.quiet_onNews "z"
                    Scenario.alice_and_bob)).
    reflexivity.
Defined.

(** X13: [subscribe] with an id that is not registered adds the subscriber
    at the end of the delivery order: the subscriber count grows by one,
    and a following [publish] (with [onNews] functions that return and
    leave the map alone) delivers to the interested earlier subscribers in
    their order and then, if it is interested, to the new one. *)
Theorem subscribe_appends_subscriber
    (onNews_body : nat → NewsArticle.t → MapData string NewsSubscriber.t →
                   completion (MapData string NewsSubscriber.t) unit)
    (subscriber : NewsSubscriber.t) (p : NewsPublisher.publisher) :
  map_has (NewsSubscriber.id subscriber) (NewsPublisher.subscribers p) = false →
  let p' := (NewsPublisher.subscribe subscriber p).2 in
  NewsPublisher.getSubscriberCount p' = S (NewsPublisher.getSubscriberCount p)
  ∧ live (NewsPublisher.subscribers p')
    = live (NewsPublisher.subscribers p) ++ [(NewsSubscriber.id subscriber, subscriber)]
  ∧ ∀ fuel now article,
      (∀ k sub, Some (k, sub) ∈ NewsPublisher.subscribers p' →
         NewsPublisher.interested sub (ArticleInput.category article) = true →
         onNews_body (NewsSubscriber.onNews sub)
           (NewsPublisher.newArticle article now p') (NewsPublisher.subscribers p')
         = Normal tt (NewsPublisher.subscribers p')) →
      length (NewsPublisher.subscribers p') < fuel →
      ∃ p'',
        NewsPublisher.publish onNews_body fuel now article p'
        = Some (NewsPublisher.calls_for article (NewsPublisher.newArticle article now p')
                  (live (NewsPublisher.subscribers p))
                ++ (if NewsPublisher.interested subscriber (ArticleInput.category article)
                    then [(subscriber, NewsPublisher.newArticle article now p')]
                    else []),
                Normal (NewsPublisher.newArticle article now p') p'').
Proof.
  intros Hhas p'.
  assert (Hlive : live (NewsPublisher.subscribers p')
                  = live (NewsPublisher.subscribers p)
                    ++ [(NewsSubscriber.id subscriber, subscriber)]).
  { unfold p'. simpl. unfold map_set. by rewrite Hhas, live_app. }
  split_and!; [| done |].
  - unfold NewsPublisher.getSubscriberCount, map_size.
    rewrite Hlive, length_app. simpl. lia.
  - intros fuel now article Hq Hfuel. eexists.
    rewrite (publish_quiet onNews_body fuel now article p' Hq Hfuel), Hlive.
    unfold NewsPublisher.calls_for. rewrite filter_app, fmap_app, filter_cons. simpl.
    by destruct (NewsPublisher.interested subscriber _).
Qed.

Lemma subscribe_appends_subscriber_witness :
  NewsPublisher.getSubscriberCount
    (NewsPublisher.subscribe Fixture.carol Scenario.alice_and_bob).2
  = S (NewsPublisher.getSubscriberCount Scenario.alice_and_bob).
Proof.
  apply (subscribe_appends_subscriber Scenario.quiet_onNews Fixture.carol
           Scenario.alice_and_bob).
  reflexivity.
Defined.

(** X14: replacing a subscriber keeps its place in the delivery order,
    unsubscribing and subscribing again moves it to the end.  When the
    subscriber map holds a subscriber under an id, [subscribe] with that id
    puts the new subscriber at the old one's position; [unsubscribe]
    followed by [subscribe] puts it after all the others. *)
Theorem resubscribe_position
    (p : NewsPublisher.publisher) (old replacement : NewsSubscriber.t)
    (pre post : MapData string NewsSubscriber.t) :
  NewsPublisher.publisher_wf p →
  NewsPublisher.subscribers p
  = pre ++ Some (NewsSubscriber.id replacement, old) :: post →
  live (NewsPublisher.subscribers (NewsPublisher.subscribe replacement p).2)
  = live pre ++ (NewsSubscriber.id replacement, replacement) :: live post
  ∧ live (NewsPublisher.subscribers
            (NewsPublisher.subscribe replacement
               (NewsPublisher.unsubscribe (NewsSubscriber.id replacement) p)).2)
    = live pre ++ live post ++ [(NewsSubscriber.id replacement, replacement)].
Proof.
  intros [Hkeys _] Hd. set (k := NewsSubscriber.id replacement) in *.
  unfold map_wf in Hkeys. rewrite Hd, live_app, fmap_app in Hkeys. simpl in Hkeys.
  apply NoDup_app in Hkeys as (_ & Hpre & Hkeys). apply NoDup_cons in Hkeys as [Hpost _].
  assert (Hhpre : map_has k pre = false).
  { destruct (map_has k pre) eqn:Hhas; [|done]. apply map_has_keys in Hhas.
    destruct (Hpre k Hhas). by left. }
  assert (Hhpost : map_has k post = false).
  { destruct (map_has k post) eqn:Hhas; [|done]. by apply map_has_keys in Hhas. }
  split.
  - simpl. unfold map_set. rewrite Hd, map_has_app. simpl.
    rewrite bool_decide_eq_true_2 by done. rewrite orb_true_r, fmap_app. simpl.
    rewrite bool_decide_eq_true_2 by done.
    rewrite !map_replace_absent by done. by rewrite live_app.
  - simpl. unfold map_set. rewrite map_has_delete. rewrite Hd. unfold map_delete.
    rewrite fmap_app. simpl. rewrite bool_decide_eq_true_2 by done.
    rewrite !map_replace_absent by done. rewrite !live_app. simpl.
    by rewrite <- app_assoc.
Qed.

Lemma resubscribe_position_witness :
  live (NewsPublisher.subscribers
          (NewsPublisher.subscribe Scenario.alice2 Scenario.alice_and_bob).2)
  = [("a", Scenario.alice2); ("b", Scenario.bob)]
  ∧ live (NewsPublisher.subscribers
            (NewsPublisher.subscribe Scenario.alice2
               (NewsPublisher.unsubscribe "a" Scenario.alice_and_bob)).2)
    = [("b", Scenario.bob); ("a", Scenario.alice2)].
Proof.
  apply (resubscribe_position Scenario.alice_and_bob Scenario.alice Scenario.alice2
           [] [Some ("b", Scenario.bob)]).
  - repeat apply subscribe_wf. apply new_publisher_wf.
  - reflexivity.
Defined.

(** ** [get] after [set] *)

Section map_get_facts.
Context {K V : Type} `{EqDecision K}.
Implicit Types (d : MapData K V) (k : K) (v : V).

Lemma map_get_absent k d : map_has k d = false → map_get k d = None.
Proof.
  intros Hhas. unfold map_get.
  destruct (filter _ (live d)) as [|[k0 v0] l] eqn:Hf; [done|].
  assert (Hin : (k0, v0) ∈ filter (λ e : K * V, e.1 = k) (live d)) by (rewrite Hf; by left).
  apply list_elem_of_filter in Hin as [Hk Hin]. simpl in Hk. subst.
  apply elem_of_live in Hin. by destruct (proj1 (map_has_false _ _) Hhas v0).
Qed.

Lemma map_get_set_eq k v d : map_get k (map_set k v d) = Some v.
Proof.
  unfold map_set. destruct (map_has k d) eqn:Hhas.
  - unfold map_get. induction d as [|[[k0 v0]|] d IH]; simpl in *; [done | |].
    + case_bool_decide; simpl in *.
      * subst. rewrite filter_cons. simpl. by rewrite decide_True.
      * rewrite filter_cons. simpl. rewrite decide_False by done. by apply IH.
    + by apply IH.
  - pose proof (map_get_absent k d Hhas) as Hnone. unfold map_get in *.
    rewrite live_app, filter_app. simpl. rewrite filter_cons. simpl.
    rewrite decide_True by done.
    destruct (filter _ (live d)); [done | discriminate].
Qed.

Lemma map_get_set_ne k k' v d : k' ≠ k → map_get k' (map_set k v d) = map_get k' d.
Proof.
  intros Hne. unfold map_set, map_get. destruct (map_has k d).
  - f_equal. f_equal. induction d as [|[[k0 v0]|] d IH]; simpl; [done | | done].
    case_bool_decide; simpl; rewrite !filter_cons; simpl.
    + subst. rewrite !decide_False by congruence. apply IH.
    + destruct (decide (k0 = k')); [f_equal|]; apply IH.
  - rewrite live_app, filter_app. simpl. rewrite filter_cons. simpl.
    rewrite decide_False by (intros H1; by apply Hne). by rewrite filter_nil, app_nil_r.
Qed.
End map_get_facts.

(** ** StockTicker *)

Section ticker_facts.
Import StockTicker.
Context {number : Type}.
Variable minus : number → number → number.
Variable zero : number.
Variable observer_body :
  StockObserver → StockPrice number → gmap string (SetData StockObserver) →
  completion (gmap string (SetData StockObserver)) unit.
Implicit Types (t : ticker number) (o : StockObserver).

Lemma watchers_unwatch symbol o t :
  watchers symbol (observers (unwatch symbol o t))
  = set_delete o (watchers symbol (observers t)).
Proof.
  unfold unwatch, watchers. destruct (observers t !! symbol) as [d|] eqn:Hd; simpl.
  - by rewrite lookup_insert_eq.
  - by rewrite Hd.
Qed.

Lemma unwatch_absent symbol o t :
  Some o ∉ watchers symbol (observers t) → unwatch symbol o t = t.
Proof.
  unfold unwatch, watchers. destruct (observers t !! symbol) as [d|] eqn:Hd; [|done].
  intros Hnot. rewrite set_delete_absent by done. rewrite insert_id by done.
  by destruct t.
Qed.

Lemma updatePrice_quiet fuel now symbol p t :
  let stock := {| symbol := symbol; price := p;
                  change := match getPrice symbol t with
                            | Some previous => minus p (price previous)
                            | None => zero
                            end;
                  timestamp := now |} in
  (∀ o, Some o ∈ watchers symbol (observers t) →
        observer_body o stock (observers t) = Normal tt (observers t)) →
  length (watchers symbol (observers t)) < fuel →
  updatePrice minus zero observer_body fuel now symbol p t
  = Some ((λ o, (o, stock)) <$> live (watchers symbol (observers t)),
          Normal tt {| observers := observers t;
                       prices := map_set symbol stock (prices t) |}).
Proof.
  intros stock Hq Hfuel. unfold updatePrice. fold (getPrice symbol t). fold stock.
  destruct (observers t !! symbol) as [d|] eqn:Hd.
  - by rewrite (forEach_quiet (watchers symbol) (λ o, observer_body o stock)
                  (observers t) fuel Hq Hfuel).
  - unfold watchers. by rewrite Hd.
Qed.
End ticker_facts.

(** X15: [updatePrice] records the price with its change.  Whatever the
    observers do, once [updatePrice] has completed (normally or with an
    observer's exception) [getPrice] of the symbol is the new record: the
    symbol, the price, the time, and as change the difference from the
    price recorded before, or 0 when the symbol had no price; the prices
    of the other symbols are as before. *)
Theorem updatePrice_records_price {number : Type}
    (minus : number → number → number) (zero : number)
    (observer_body : StockTicker.StockObserver → StockTicker.StockPrice number →
                     gmap string (SetData StockTicker.StockObserver) →
                     completion (gmap string (SetData StockTicker.StockObserver)) unit)
    (fuel : nat) (now : Z) (symbol : string) (price : number)
    (t : StockTicker.ticker number) calls c :
  StockTicker.updatePrice minus zero observer_body fuel now symbol price t
  = Some (calls, c) →
  StockTicker.getPrice symbol (state_of c)
  = Some {| StockTicker.symbol := symbol;
            StockTicker.price := price;
            StockTicker.change :=
              match StockTicker.getPrice symbol t with
              | Some previous => minus price (StockTicker.price previous)
              | None => zero
              end;
            StockTicker.timestamp := now |}
  ∧ ∀ other, other ≠ symbol →
      StockTicker.getPrice other (state_of c) = StockTicker.getPrice other t.
Proof.
  unfold StockTicker.updatePrice, StockTicker.getPrice. intros Hup.
  assert (Hps : StockTicker.prices (state_of c)
    = map_set symbol
        {| StockTicker.symbol := symbol; StockTicker.price := price;
           StockTicker.change :=
             match map_get symbol (StockTicker.prices t) with
             | Some previous => minus price (StockTicker.price previous)
             | None => zero
             end;
           StockTicker.timestamp := now |} (StockTicker.prices t)).
  { destruct (StockTicker.observers t !! symbol); [|by simplify_eq].
    destruct (forEach _ _ _ _) as [[vs [[] m|e m]]|]; by simplify_eq. }
  rewrite Hps. split; [apply map_get_set_eq|].
  intros other Hne. by apply map_get_set_ne.
Qed.

Lemma updatePrice_records_price_witness :
  ∃ calls c,
    StockTicker.updatePrice Z.sub 0%Z Fixture.quiet_observer 3 200 "AAPL" 17900%Z
      (state_of (StockTicker.watch Fixture.quiet_observer "AAPL" 1
                   (StockTicker.new (number:=Z))).2)
    = Some (calls, c)
    ∧ StockTicker.getPrice "AAPL" (state_of c)
      = Some {| StockTicker.symbol := "AAPL"; StockTicker.price := 17900%Z;
                StockTicker.change := 0%Z; StockTicker.timestamp := 200 |}.
Proof.
  destruct (StockTicker.updatePrice Z.sub 0%Z Fixture.quiet_observer 3 200 "AAPL" 17900%Z
              (state_of (StockTicker.watch Fixture.quiet_observer "AAPL" 1
                           (StockTicker.new (number:=Z))).2))
    as [[calls c]|] eqn:Hup; [|discriminate].
  exists calls, c. split; [reflexivity|].
  destruct (updatePrice_records_price _ _ _ _ _ _ _ _ _ _ Hup) as [Hget _].
  rewrite Hget. reflexivity.
Defined.

(** X16: [watch] replays the current price.  When the symbol has a price,
    [watch] calls the new observer once, with that price, as part of the
    call; when it has none, [watch] calls nobody.  The prices are not
    touched, and (for an observer that returns and leaves [observers]
    alone) the observer is among the watchers of the symbol afterwards and
    the function returned is [unwatch] for this symbol and observer. *)
Theorem watch_replays_current_price {number : Type}
    (observer_body : StockTicker.StockObserver → StockTicker.StockPrice number →
                     gmap string (SetData StockTicker.StockObserver) →
                     completion (gmap string (SetData StockTicker.StockObserver)) unit)
    (symbol : string) (observer : StockTicker.StockObserver)
    (t : StockTicker.ticker number) :
  let r := StockTicker.watch observer_body symbol observer t in
  r.1 = match StockTicker.getPrice symbol t with
        | Some currentPrice => [(observer, currentPrice)]
        | None => []
        end
  ∧ StockTicker.prices (state_of r.2) = StockTicker.prices t
  ∧ ((∀ stock m, observer_body observer stock m = Normal tt m) →
     ∃ t', r.2 = Normal (StockTicker.unwatch symbol observer) t'
       ∧ Some observer ∈ StockTicker.watchers symbol (StockTicker.observers t')
       ∧ ∀ other, other ≠ symbol →
           StockTicker.watchers other (StockTicker.observers t')
           = StockTicker.watchers other (StockTicker.observers t)).
Proof.
  intros r. unfold r, StockTicker.watch, StockTicker.getPrice.
  destruct (map_get symbol (StockTicker.prices t)) as [p|]; simpl.
  - split_and!; [done | by destruct (observer_body _ _ _) |].
    intros Hq. rewrite Hq. simpl. eexists. split; [done|]. simpl.
    unfold StockTicker.watchers. rewrite lookup_insert_eq. split; [apply set_add_elem|].
    intros other Hne. rewrite lookup_insert_ne by done.
    destruct (StockTicker.observers t !! symbol); [done|]. by rewrite lookup_insert_ne.
  - split_and!; [done | done |]. intros _. eexists. split; [done|]. simpl.
    unfold StockTicker.watchers. rewrite lookup_insert_eq. split; [apply set_add_elem|].
    intros other Hne. rewrite lookup_insert_ne by done.
    destruct (StockTicker.observers t !! symbol); [done|]. by rewrite lookup_insert_ne.
Qed.

Lemma watch_replays_current_price_witness :
  ∃ t', (StockTicker.watch Fixture.quiet_observer "AAPL" 3 Fixture.two_watchers).2
        = Normal (StockTicker.unwatch "AAPL" 3) t'
    ∧ Some 3 ∈ StockTicker.watchers "AAPL" (StockTicker.observers t')
    ∧ ∀ other, other ≠ "AAPL" →
        StockTicker.watchers other (StockTicker.observers t')
        = StockTicker.watchers other (StockTicker.observers Fixture.two_watchers).
Proof.
  apply (proj2 (proj2 (watch_replays_current_price Fixture.quiet_observer "AAPL" 3
                         Fixture.two_watchers))).
  reflexivity.
Defined.

(** With a price on record, [watch] calls the new observer with it. *)
Example watch_after_update_example :
  (λ r, StockTicker.watch Fixture.quiet_observer "AAPL" 3 (state_of r.2))
    <$> StockTicker.updatePrice Z.sub 0%Z Fixture.quiet_observer 3 200 "AAPL" 17900%Z
          Fixture.two_watchers
  = Some ([(3, {| StockTicker.symbol := "AAPL"; StockTicker.price := 17900%Z;
                  StockTicker.change := 0%Z; StockTicker.timestamp := 200 |})],
          StockTicker.with_prices
            [Some ("AAPL", {| StockTicker.symbol := "AAPL"; StockTicker.price := 17900%Z;
                              StockTicker.change := 0%Z; StockTicker.timestamp := 200 |})]
            (StockTicker.unwatch "AAPL" 3)
            (Normal tt (<["AAPL" := [Some 1; Some 3]]>
                          (StockTicker.observers Fixture.two_watchers)))).
Proof. reflexivity. Qed.

(** X17: [updatePrice] notifies the watchers of the symbol, and only them.
    With observers that return and leave [observers] alone, [updatePrice]
    returns normally after calling each watcher of the symbol once, in the
    order of their [watch] calls, with the new price record; an observer
    that watches other symbols only is not called. *)
Theorem updatePrice_notifies_watchers {number : Type}
    (minus : number → number → number) (zero : number)
    (observer_body : StockTicker.StockObserver → StockTicker.StockPrice number →
                     gmap string (SetData StockTicker.StockObserver) →
                     completion (gmap string (SetData StockTicker.StockObserver)) unit)
    (fuel : nat) (now : Z) (symbol : string) (price : number)
    (t : StockTicker.ticker number) :
  (∀ o stock m, observer_body o stock m = Normal tt m) →
  length (StockTicker.watchers symbol (StockTicker.observers t)) < fuel →
  ∃ calls t' stock,
    StockTicker.updatePrice minus zero observer_body fuel now symbol price t
    = Some (calls, Normal tt t')
    ∧ StockTicker.getPrice symbol t' = Some stock
    ∧ calls = (λ o, (o, stock))
                <$> live (StockTicker.watchers symbol (StockTicker.observers t))
    ∧ StockTicker.observers t' = StockTicker.observers t
    ∧ ∀ o, Some o ∉ StockTicker.watchers symbol (StockTicker.observers t) →
           ∀ stock', (o, stock') ∉ calls.
Proof.
  intros Hq Hfuel. eexists _, _, _. split; [|split_and!].
  - apply updatePrice_quiet; [|done]. intros o _. apply Hq.
  - unfold StockTicker.getPrice. simpl. apply map_get_set_eq.
  - done.
  - done.
  - intros o Hnot stock' Hin. apply list_elem_of_fmap in Hin as (o' & Heq & Hin).
    simplify_eq. by apply Hnot, elem_of_live.
Qed.

Lemma updatePrice_notifies_watchers_witness :
  ∃ calls t' stock,
    StockTicker.updatePrice Z.sub 0%Z Fixture.quiet_observer 3 200 "AAPL" 17900%Z
      Fixture.two_watchers
    = Some (calls, Normal tt t')
    ∧ StockTicker.getPrice "AAPL" t' = Some stock
    ∧ calls = [(1, stock)].
Proof.
  destruct (updatePrice_notifies_watchers Z.sub 0%Z Fixture.quiet_observer 3 200 "AAPL"
              17900%Z Fixture.two_watchers)
    as (calls & t' & stock & Hup & Hget & Hcalls & _).
  - reflexivity.
  - vm_compute. lia.
  - exists calls, t', stock. split_and!; [exact Hup | exact Hget | exact Hcalls].
Defined.

(** X18: [unwatch] stops the notifications of one observer for one symbol.
    When the observer does not watch the symbol (in particular when nobody
    ever watched it) the ticker is left as it is, and a second [unwatch]
    changes nothing more; the watchers of other symbols and all prices are
    untouched; and a following [updatePrice] of the symbol (with observers
    that return and leave [observers] alone) calls the other watchers, in
    their order, and not this one. *)
Theorem unwatch_stops_notifications {number : Type}
    (minus : number → number → number) (zero : number)
    (observer_body : StockTicker.StockObserver → StockTicker.StockPrice number →
                     gmap string (SetData StockTicker.StockObserver) →
                     completion (gmap string (SetData StockTicker.StockObserver)) unit)
    (symbol : string) (observer : StockTicker.StockObserver)
    (t : StockTicker.ticker number) :
  let t' := StockTicker.unwatch symbol observer t in
  (Some observer ∉ StockTicker.watchers symbol (StockTicker.observers t) → t' = t)
  ∧ StockTicker.unwatch symbol observer t' = t'
  ∧ StockTicker.prices t' = StockTicker.prices t
  ∧ (∀ other, other ≠ symbol →
       StockTicker.watchers other (StockTicker.observers t')
       = StockTicker.watchers other (StockTicker.observers t))
  ∧ ∀ fuel now price,
      (∀ o stock m, observer_body o stock m = Normal tt m) →
      length (StockTicker.watchers symbol (StockTicker.observers t)) < fuel →
      ∃ t'' stock,
        StockTicker.updatePrice minus zero observer_body fuel now symbol price t'
        = Some ((λ o, (o, stock))
                  <$> filter (λ o, o ≠ observer)
                        (live (StockTicker.watchers symbol (StockTicker.observers t))),
                Normal tt t'').
Proof.
  intros t'. split_and!.
  - apply unwatch_absent.
  - apply unwatch_absent. unfold t'. rewrite watchers_unwatch. apply set_delete_not_elem.
  - unfold t', StockTicker.unwatch. by destruct (StockTicker.observers t !! symbol).
  - intros other Hne. unfold t', StockTicker.unwatch, StockTicker.watchers.
    destruct (StockTicker.observers t !! symbol); [|done]. simpl.
    by rewrite lookup_insert_ne.
  - intros fuel now price Hq Hfuel. eexists _, _.
    rewrite <- live_set_delete, <- watchers_unwatch. fold t'.
    apply updatePrice_quiet.
    + intros o _. apply Hq.
    + unfold t'. rewrite watchers_unwatch. unfold set_delete. by rewrite length_fmap.
Qed.

Lemma unwatch_stops_notifications_witness :
  StockTicker.unwatch "GOOGL" 1 Fixture.two_watchers = Fixture.two_watchers
  ∧ ∃ t'' stock,
      StockTicker.updatePrice Z.sub 0%Z Fixture.quiet_observer 3 200 "AAPL" 17900%Z
        (StockTicker.unwatch "AAPL" 1 Fixture.two_watchers)
      = Some ((λ o, (o, stock))
                <$> filter (λ o, o ≠ 1)
                      (live (StockTicker.watchers "AAPL"
                               (StockTicker.observers Fixture.two_watchers))),
              Normal tt t'').
Proof.
  split.
  - apply (proj1 (unwatch_stops_notifications Z.sub 0%Z Fixture.quiet_observer "GOOGL" 1
                    Fixture.two_watchers)).
    vm_compute. intros Hin. by apply elem_of_nil in Hin.
  - destruct (unwatch_stops_notifications Z.sub 0%Z Fixture.quiet_observer "AAPL" 1
                Fixture.two_watchers) as (_ & _ & _ & _ & Hup).
    apply (Hup 3 200%Z 17900%Z); [reflexivity | vm_compute; lia].
Defined.

(** ** FormValidator *)

(** Assignment to a property: the property is made or overwritten
    unless the key is "__proto__" and the object has no own property of
    that name. *)
Lemma lookup_assign {V} (k : string) (v : V) (o : gmap string V) g :
  assign k v o !! g
  = if decide (g = k ∧ (k ≠ "__proto__" ∨ is_Some (o !! k))) then Some v else o !! g.
Proof.
  unfold assign. destruct (decide (k = "__proto__")) as [Hk|Hk].
  - destruct (o !! k) as [w|] eqn:Hok.
    + destruct (decide (g = k)) as [->|Hne].
      * rewrite lookup_insert_eq, decide_True; [done|]. split; [done|]. right. by eexists.
      * rewrite lookup_insert_ne by done. rewrite decide_False; [done|]. by intros [? _].
    + rewrite decide_False; [done|]. intros [_ [?|[w Hw]]]; [done|discriminate].
  - destruct (decide (g = k)) as [->|Hne].
    + rewrite lookup_insert_eq, decide_True; [done|]. split; [done|]. by left.
    + rewrite lookup_insert_ne by done. rewrite decide_False; [done|]. by intros [? _].
Qed.

Lemma assign_ordinary {V} (k : string) (v : V) (o : gmap string V) :
  k ≠ "__proto__" → assign k v o = <[k := v]> o.
Proof. intros Hk. unfold assign. by rewrite decide_False. Qed.

Lemma assign_proto {V} (v : V) (o : gmap string V) :
  o !! "__proto__" = None → assign "__proto__" v o = o.
Proof. intros Hk. unfold assign. by rewrite decide_True, Hk. Qed.


Section form_facts.
Import FormValidator.
Implicit Types (f : form) (field : string).

Lemma validateField_spec field f :
  validateField field f
  = {| observers := observers f;
       state :=
         FormState.mk (FormState.values (state f))
           (assign field
              (validation_of field
                 (default EmptyString (FormState.values (state f) !! field)) f)
              (FormState.validations (state f)))
           (FormState.isValid (state f)) (FormState.isDirty (state f));
       validators := validators f |}.
Proof.
  unfold validateField, validation_of.
  by destruct (FormState.values (state f) !! field).
Qed.

Lemma validation_of_ext field value f f' :
  validators f' = validators f → validation_of field value f' = validation_of field value f.
Proof. intros Hv. unfold validation_of, field_validators. by rewrite Hv. Qed.

(** Validating a list of fields: each field of the list gets the record
    for its current value (except "__proto__", under which a record is
    only overwritten, never made), the other records stay. *)
Lemma validate_fields_spec fields : ∀ f,
  observers (validate_fields fields f) = observers f
  ∧ validators (validate_fields fields f) = validators f
  ∧ FormState.values (state (validate_fields fields f)) = FormState.values (state f)
  ∧ FormState.isDirty (state (validate_fields fields f)) = FormState.isDirty (state f)
  ∧ ∀ g, FormState.validations (state (validate_fields fields f)) !! g
         = if decide (g ∈ fields
                      ∧ (g ≠ "__proto__"
                         ∨ is_Some (FormState.validations (state f) !! g)))
           then Some (validation_of g
                        (default EmptyString (FormState.values (state f) !! g)) f)
           else FormState.validations (state f) !! g.
Proof.
  induction fields as [|field fields IH] using rev_ind; intros f.
  - simpl. by split_and!.
  - unfold validate_fields in *. rewrite foldl_app. cbn [foldl].
    destruct (IH f) as (Ho & Hv & Hvals & Hd & Hval).
    rewrite validateField_spec. simpl. rewrite Ho, Hv, Hvals, Hd.
    split_and!; try done. intros g. rewrite lookup_assign.
    assert (Hfiled : field ≠ "__proto__"
                     ∨ is_Some (FormState.validations
                                  (state (foldl (λ f field, validateField field f) f fields))
                                !! field)
                     ↔ field ≠ "__proto__"
                       ∨ is_Some (FormState.validations (state f) !! field)).
    { rewrite Hval. case_decide as Hc; [|done].
      split; [intros _; by destruct Hc | intros _; right; by eexists]. }
    destruct (decide (g = field)) as [->|Hne].
    + case_decide as Hc1.
      * rewrite decide_True.
        -- f_equal. by apply validation_of_ext.
        -- split; [apply elem_of_app; right; by left | by apply Hfiled, Hc1].
      * rewrite Hval. case_decide as Hc2.
        -- destruct Hc1. split; [done|]. apply Hfiled. by destruct Hc2.
        -- rewrite decide_False; [done|]. intros [_ Hf].
           apply Hc1. split; [done | by apply Hfiled].
    + rewrite decide_False by (by intros [? _]). rewrite Hval.
      case_decide as Hc.
      * rewrite decide_True; [done|]. destruct Hc as [Hin Hf].
        split; [apply elem_of_app; by left | done].
      * rewrite decide_False; [done|]. intros [Hin Hf]. apply Hc. split; [|done].
        apply elem_of_app in Hin as [Hin|Hin]; [done|].
        by apply list_elem_of_singleton in Hin.
Qed.

(** The order in which the fields are validated does not matter. *)
Lemma validate_fields_perm fields fields' f :
  fields ≡ₚ fields' → validate_fields fields' f = validate_fields fields f.
Proof.
  intros Hperm.
  destruct (validate_fields_spec fields f) as (Ho & Hv & Hvals & Hd & Hval).
  destruct (validate_fields_spec fields' f) as (Ho' & Hv' & Hvals' & Hd' & Hval').
  assert (Hvalid : ∀ fs, FormState.isValid (state (validate_fields fs f))
                         = FormState.isValid (state f)).
  { clear. intros fs. induction fs as [|x fs IH] using rev_ind; [done|].
    unfold validate_fields in *. rewrite foldl_app. cbn [foldl].
    rewrite validateField_spec. simpl. exact IH. }
  destruct (validate_fields fields f) as [o [vals vs iv d] va] eqn:H1.
  destruct (validate_fields fields' f) as [o' [vals' vs' iv' d'] va'] eqn:H2.
  simpl in *. subst. f_equal. f_equal.
  - apply map_eq. intros g. rewrite Hval, Hval'.
    destruct (decide (g ∈ fields
                      ∧ (g ≠ "__proto__"
                         ∨ is_Some (FormState.validations (state f) !! g))))
      as [Hc|Hc].
    + by rewrite decide_True
        by (destruct Hc; split; [by rewrite <- Hperm | done]).
    + by rewrite decide_False
        by (intros [Hin ?]; apply Hc; split; [by rewrite Hperm | done]).
  - pose proof (Hvalid fields) as E1. pose proof (Hvalid fields') as E2.
    rewrite H1 in E1. rewrite H2 in E2. simpl in *. congruence.
Qed.

Lemma validation_of_ok field value f :
  ValidationResult.field (validation_of field value f) = field
  ∧ (ValidationResult.isValid (validation_of field value f) = true
     ↔ ValidationResult.errors (validation_of field value f) = []).
Proof.
  unfold validation_of. simpl. split; [done|].
  by destruct (mjoin _).
Qed.

(** [updateFormValidity] puts the form's flag right. *)
Lemma updateFormValidity_ok f :
  (∀ g r, FormState.validations (state f) !! g = Some r →
     ValidationResult.field r = g
     ∧ (ValidationResult.isValid r = true ↔ ValidationResult.errors r = [])) →
  state_ok (state (updateFormValidity f)).
Proof.
  intros Hrec. split; [exact Hrec|]. simpl. rewrite bool_decide_eq_true. split.
  - intros Hall g r Hg. apply (Hrec g r Hg). by apply (Hall g r).
  - intros Hall g r Hg. apply (Hrec g r Hg). by apply (Hall g r).
Qed.

Section with_observers.
Variable observer_body :
  FormObserver → FormState.t → SetData FormObserver →
  completion (SetData FormObserver) unit.

(** Notification changes nothing but the observer set. *)
Lemma notifyObservers_state fuel f calls c :
  notifyObservers observer_body fuel f = Some (calls, c) →
  state (state_of c) = state f ∧ validators (state_of c) = validators f.
Proof.
  unfold notifyObservers.
  destruct (forEach _ _ _ _) as [[vs [[] r|e r]]|]; intros Hn; by simplify_eq.
Qed.

Lemma notifyObservers_quiet fuel f :
  (∀ o, Some o ∈ observers f →
        observer_body o (state f) (observers f) = Normal tt (observers f)) →
  length (observers f) < fuel →
  notifyObservers observer_body fuel f
  = Some ((λ o, (o, state f)) <$> live (observers f), Normal tt f).
Proof.
  intros Hq Hfuel. unfold notifyObservers.
  rewrite (forEach_quiet id (λ o, observer_body o (state f)) (observers f) fuel Hq Hfuel).
  simpl. by destruct f.
Qed.

Lemma notifyObservers_finishes fuel f n :
  (∀ o st r, length (state_of (observer_body o st r)) ≤ length r) →
  length (observers f) ≤ n → n < fuel →
  ∃ calls c, notifyObservers observer_body fuel f = Some (calls, c)
             ∧ length (observers (state_of c)) ≤ n.
Proof.
  intros Hlen Hn Hfuel. unfold notifyObservers.
  destruct (forEach_from_finishes id (λ o, observer_body o (state f)) fuel 0 (observers f))
    as [[vs c] Hw]; [intros o r; apply Hlen | simpl; lia |].
  unfold forEach. rewrite Hw.
  pose proof (forEach_from_invariant id (λ o, observer_body o (state f))
                (λ r, length r ≤ n) fuel 0 (observers f) vs c) as Hinv.
  simpl in Hinv. eexists _, _. split; [done|].
  destruct c as [[] r|e r]; simpl in *; apply Hinv; try done;
    intros o r' Hr'; (etrans; [apply Hlen | done]).
Qed.
End with_observers.
End form_facts.

(** X19: [setValue] stores the value and validates the field.  The call
    completes when the observers never lengthen the observer set, and
    whatever the observers do, once it has completed the state is as
    follows.  For a field name other than "__proto__" it holds the new
    value for the field (the other values as before), is dirty, and
    holds for the field a validation record whose errors are the messages
    of the field's validators on the new value, in the order in which
    [addValidator] registered them (the other records as before); the
    form is valid exactly when this record has no errors and the other
    records are valid.  Under the name "__proto__", on a form that has no
    value and no record of that name, nothing is stored and no record is
    filed: the values and the records are as before, and the state is
    dirty. *)
Theorem setValue_validates
    (observer_body : FormValidator.FormObserver → FormState.t →
                     SetData FormValidator.FormObserver →
                     completion (SetData FormValidator.FormObserver) unit)
    (fuel : nat) (field value : string) (f : FormValidator.form) :
  let errors := mjoin ((λ validator : FormValidator.Validator, validator value)
                         <$> FormValidator.field_validators field f) in
  (∀ calls c,
     FormValidator.setValue observer_body fuel field value f = Some (calls, c) →
     let st := FormValidator.getState (state_of c) in
     (field ≠ "__proto__" →
        FormState.values st = <[field := value]> (FormState.values (FormValidator.state f))
        ∧ FormState.isDirty st = true
        ∧ FormState.validations st
          = <[field := ValidationResult.mk field (bool_decide (errors = [])) errors]>
              (FormState.validations (FormValidator.state f))
        ∧ (FormState.isValid st = true
           ↔ errors = []
             ∧ ∀ g r, g ≠ field →
                 FormState.validations (FormValidator.state f) !! g = Some r →
                 ValidationResult.isValid r = true))
     ∧ (field = "__proto__" →
        FormState.values (FormValidator.state f) !! field = None →
        FormState.validations (FormValidator.state f) !! field = None →
        FormState.values st = FormState.values (FormValidator.state f)
        ∧ FormState.isDirty st = true
        ∧ FormState.validations st = FormState.validations (FormValidator.state f)
        ∧ (FormState.isValid st = true
           ↔ ∀ g r, FormState.validations (FormValidator.state f) !! g = Some r →
                    ValidationResult.isValid r = true)))
  ∧ ((∀ o st r, length (state_of (observer_body o st r)) ≤ length r) →
     length (FormValidator.observers f) < fuel →
     is_Some (FormValidator.setValue observer_body fuel field value f))
  ∧ (∀ validator,
       FormValidator.field_validators field (FormValidator.addValidator field validator f)
       = FormValidator.field_validators field f ++ [validator])
  ∧ (∀ other validator, other ≠ field →
       FormValidator.field_validators field (FormValidator.addValidator other validator f)
       = FormValidator.field_validators field f).
Proof.
  intros errors. split_and!.
  - intros calls c Hset st. unfold FormValidator.setValue in Hset.
    apply notifyObservers_state in Hset as [Hst _].
    unfold st, FormValidator.getState. rewrite Hst. clear Hst.
    rewrite validateField_spec.
    cbn [FormValidator.updateFormValidity FormValidator.state FormValidator.observers
         FormValidator.validators FormState.values FormState.validations
         FormState.isValid FormState.isDirty].
    split.
    + intros Hfield. rewrite !assign_ordinary by done. rewrite lookup_insert_eq.
      cbn [default from_option id].
      assert (Hrec : FormValidator.validation_of field value
                       {| FormValidator.observers := FormValidator.observers f;
                          FormValidator.state :=
                            FormState.mk (<[field := value]>
                                            (FormState.values (FormValidator.state f)))
                              (FormState.validations (FormValidator.state f))
                              (FormState.isValid (FormValidator.state f)) true;
                          FormValidator.validators := FormValidator.validators f |}
                     = ValidationResult.mk field (bool_decide (errors = [])) errors).
      { unfold FormValidator.validation_of, FormValidator.field_validators. cbn.
        fold (FormValidator.field_validators field f). fold errors. by destruct errors. }
      rewrite Hrec. split_and!; [done | done | done |].
      rewrite bool_decide_eq_true. split.
      * intros Hall. split.
        -- pose proof (Hall field _ (lookup_insert_eq _ _ _)) as Hv. cbn in Hv.
           by apply bool_decide_eq_true in Hv.
        -- intros g r Hne Hg. apply (Hall g r). by rewrite lookup_insert_ne.
      * intros [Herr Hall] g r Hg.
        apply lookup_insert_Some in Hg as [[<- <-]|[Hne Hg]].
        -- cbn. by apply bool_decide_eq_true.
        -- by apply (Hall g r).
    + intros -> Hvalue Hrecord.
      rewrite (assign_proto _ _ Hvalue), (assign_proto _ _ Hrecord).
      split_and!; [done | done | done |]. by rewrite bool_decide_eq_true.
  - intros Hlen Hfuel. unfold FormValidator.setValue.
    match goal with
    | |- is_Some (FormValidator.notifyObservers _ _ ?g) =>
        destruct (notifyObservers_finishes observer_body fuel g
                    (length (FormValidator.observers f)) Hlen)
          as (calls & c & -> & _); [by rewrite validateField_spec | done | done]
    end.
  - intros validator. unfold FormValidator.field_validators, FormValidator.addValidator.
    cbn. by rewrite lookup_insert_eq.
  - intros other validator Hne.
    unfold FormValidator.field_validators, FormValidator.addValidator. cbn.
    by rewrite lookup_insert_ne.
Qed.

Lemma setValue_validates_witness :
  ∃ calls c,
    FormValidator.setValue Fixture.quiet_form_observer 1 "email" " " Fixture.login_form
    = Some (calls, c)
    ∧ FormState.validations (FormValidator.getState (state_of c))
      = {[ "email" := ValidationResult.mk "email" false ["Email is required"] ]}
    ∧ FormState.isValid (FormValidator.getState (state_of c)) = false.
Proof.
  destruct (setValue_validates Fixture.quiet_form_observer 1 "email" " "
              Fixture.login_form) as (Hstate & Hfinishes & _).
  destruct Hfinishes as [[calls c] Hset]; [reflexivity | simpl; lia |].
  exists calls, c. split; [exact Hset|].
  destruct (Hstate calls c Hset) as [Hfield _].
  destruct Hfield as (_ & _ & Hval & Hvalid); [discriminate|].
  split; [by rewrite Hval|].
  destruct (FormState.isValid _); [|done].
  by destruct (proj1 Hvalid eq_refl) as [Herr _].
Defined.

(** [setValue("__proto__", "x")] on a new form stores no value and files
    no record. *)
Example setValue_proto_example :
  (λ r, FormValidator.getState (state_of r.2))
    <$> FormValidator.setValue Fixture.quiet_form_observer 1 "__proto__" "x"
          (FormValidator.create ∅)
  = Some (FormState.mk ∅ ∅ true true).
Proof. reflexivity. Qed.

(** X20: the form's validity flag is always right.  For a form made by the
    constructor and any client (validators added, values set, all fields
    validated, resets, subscriptions and unsubscriptions in any order,
    with observers that may throw), after the run every validation record
    is filed under its own field and is valid exactly when it has no
    errors, and the form is valid exactly when no record has an error.
    The run does complete when the observers never lengthen the observer
    set. *)
Theorem form_validity_invariant
    (observer_body : FormValidator.FormObserver → FormState.t →
                     SetData FormValidator.FormObserver →
                     completion (SetData FormValidator.FormObserver) unit)
    (fuel : nat) (cs : list FormValidator.call) (initialValues : gmap string string) :
  (∀ f', FormValidator.run_calls observer_body fuel cs
           (FormValidator.create initialValues) = Some f' →
         FormValidator.state_ok (FormValidator.getState f'))
  ∧ ((∀ o st r, length (state_of (observer_body o st r)) ≤ length r) →
     length cs < fuel →
     is_Some (FormValidator.run_calls observer_body fuel cs
                (FormValidator.create initialValues))).
Proof.
  split.
  - assert (Hgen : ∀ f f', FormValidator.state_ok (FormValidator.state f) →
              FormValidator.run_calls observer_body fuel cs f = Some f' →
              FormValidator.state_ok (FormValidator.state f')).
    { induction cs as [|c cs IH]; intros f f' Hok Hrun; simpl in Hrun; [by simplify_eq|].
      destruct c as [field v|field value| |values|o|o].
      - eapply IH; [|exact Hrun]; exact Hok.
      - destruct (FormValidator.setValue _ _ _ _ _) as [[calls c]|] eqn:Hset; [|done].
        simpl in Hrun. eapply IH; [|exact Hrun].
        unfold FormValidator.setValue in Hset.
        apply notifyObservers_state in Hset as [-> _].
        apply updateFormValidity_ok. rewrite validateField_spec.
        cbn [FormValidator.state FormState.validations].
        intros g r Hg. rewrite lookup_assign in Hg. case_decide as Hc.
        + destruct Hc as [-> _]. simplify_eq. apply validation_of_ok.
        + by apply Hok.
      - destruct (FormValidator.validateAll _ _ _) as [[calls c]|] eqn:Hall; [|done].
        simpl in Hrun. eapply IH; [|exact Hrun].
        unfold FormValidator.validateAll in Hall.
        apply notifyObservers_state in Hall as [-> _].
        apply updateFormValidity_ok. intros g r Hg.
        destruct (validate_fields_spec
                    (map_to_list (FormState.values (FormValidator.state f))).*1 f)
          as (_ & _ & _ & _ & Hval).
        rewrite Hval in Hg. case_decide; [|by apply Hok].
        simplify_eq. apply validation_of_ok.
      - destruct (FormValidator.reset _ _ _ _) as [[calls c]|] eqn:Hreset; [|done].
        simpl in Hrun. eapply IH; [|exact Hrun].
        unfold FormValidator.reset in Hreset.
        apply notifyObservers_state in Hreset as [-> _]. cbn.
        split; cbn; [intros g r Hg; by rewrite lookup_empty in Hg|].
        split; [intros _ g r Hg; by rewrite lookup_empty in Hg | done].
      - eapply IH; [|exact Hrun]. unfold FormValidator.subscribe. cbn.
        by destruct (observer_body _ _ _).
      - eapply IH; [|exact Hrun]; exact Hok. }
    intros f' Hrun. eapply Hgen; [|exact Hrun]. cbn.
    split; cbn; [intros g r Hg; by rewrite lookup_empty in Hg|].
    split; [intros _ g r Hg; by rewrite lookup_empty in Hg | done].
  - intros Hlen Hfuel.
    assert (Hgen : ∀ f, length (FormValidator.observers f) + length cs < fuel →
              is_Some (FormValidator.run_calls observer_body fuel cs f)).
    { clear Hfuel. induction cs as [|c cs IH]; intros f Hfuel; simpl in *; [done|].
      destruct c as [field v|field value| |values|o|o].
      - apply IH. simpl. lia.
      - destruct (notifyObservers_finishes observer_body fuel
                    (FormValidator.updateFormValidity
                       (FormValidator.validateField field
                          {| FormValidator.observers := FormValidator.observers f;
                             FormValidator.state :=
                               FormState.mk
                                 (assign field value
                                    (FormState.values (FormValidator.state f)))
                                 (FormState.validations (FormValidator.state f))
                                 (FormState.isValid (FormValidator.state f)) true;
                             FormValidator.validators := FormValidator.validators f |}))
                    (length (FormValidator.observers f)) Hlen)
          as (calls & c & Hn & Hc); [done | lia |].
        unfold FormValidator.setValue. rewrite Hn. simpl. apply IH. lia.
      - destruct (notifyObservers_finishes observer_body fuel
                    (FormValidator.updateFormValidity
                       (FormValidator.validate_fields
                          (map_to_list (FormState.values (FormValidator.state f))).*1 f))
                    (length (FormValidator.observers f)) Hlen)
          as (calls & c & Hn & Hc); [|lia|].
        { simpl. by destruct (validate_fields_spec
            (map_to_list (FormState.values (FormValidator.state f))).*1 f) as (-> & _). }
        unfold FormValidator.validateAll. rewrite Hn. simpl. apply IH. lia.
      - destruct (notifyObservers_finishes observer_body fuel
                    {| FormValidator.observers := FormValidator.observers f;
                       FormValidator.state := FormState.mk values ∅ true false;
                       FormValidator.validators := FormValidator.validators f |}
                    (length (FormValidator.observers f)) Hlen)
          as (calls & c & Hn & Hc); [done | lia |].
        unfold FormValidator.reset. rewrite Hn. simpl. apply IH. lia.
      - apply IH. unfold FormValidator.subscribe. simpl.
        pose proof (Hlen o (FormValidator.state f)
                      (set_add o (FormValidator.observers f))) as Hle.
        assert (length (set_add o (FormValidator.observers f))
                ≤ S (length (FormValidator.observers f))) as Hadd.
        { unfold set_add. destruct (set_has _ _); rewrite ?length_app; simpl; lia. }
        destruct (observer_body _ _ _); simpl in *; lia.
      - apply IH. simpl. unfold set_delete. rewrite length_fmap. lia. }
    apply Hgen. simpl. lia.
Qed.

Lemma form_validity_invariant_witness :
  ∃ f', FormValidator.run_calls Fixture.quiet_form_observer 5
          [FormValidator.CallSubscribe 1; FormValidator.CallSetValue "email" " ";
           FormValidator.CallValidateAll]
          (FormValidator.create ∅) = Some f'
    ∧ FormValidator.state_ok (FormValidator.getState f').
Proof.
  destruct (form_validity_invariant Fixture.quiet_form_observer 5
              [FormValidator.CallSubscribe 1; FormValidator.CallSetValue "email" " ";
               FormValidator.CallValidateAll] ∅) as [Hok Hfin].
  destruct Hfin as [f' Hrun]; [reflexivity | simpl; lia |].
  exists f'. split; [exact Hrun | by apply Hok].
Defined.

(** X21: [validateAll] validates the fields that have a value, and no
    others.  Once it has completed, every field with a value has the
    validation record of its validators on that value, and every field
    without a value has the record it had (if any): validators registered
    for a field that has no value are not run.  Values and the dirty flag
    are not touched.  (The one name under which a value gets no record is
    "__proto__": a record is never made under that name, only
    overwritten.) *)
Theorem validateAll_validates_fields_with_values
    (observer_body : FormValidator.FormObserver → FormState.t →
                     SetData FormValidator.FormObserver →
                     completion (SetData FormValidator.FormObserver) unit)
    (fuel : nat) (f : FormValidator.form) calls c :
  FormValidator.validateAll observer_body fuel f = Some (calls, c) →
  let st := FormValidator.getState (state_of c) in
  FormState.values st = FormState.values (FormValidator.state f)
  ∧ FormState.isDirty st = FormState.isDirty (FormValidator.state f)
  ∧ (∀ g value, FormState.values (FormValidator.state f) !! g = Some value →
       g ≠ "__proto__"
       ∨ is_Some (FormState.validations (FormValidator.state f) !! g) →
       FormState.validations st !! g = Some (FormValidator.validation_of g value f))
  ∧ (∀ g, FormState.values (FormValidator.state f) !! g = None →
       FormState.validations st !! g
       = FormState.validations (FormValidator.state f) !! g)
  ∧ (FormState.validations (FormValidator.state f) !! "__proto__" = None →
     FormState.validations st !! "__proto__" = None).
Proof.
  intros Hall st. unfold FormValidator.validateAll in Hall.
  apply notifyObservers_state in Hall as [Hst _].
  unfold st, FormValidator.getState. rewrite Hst. clear Hst. cbn.
  destruct (validate_fields_spec
              (map_to_list (FormState.values (FormValidator.state f))).*1 f)
    as (_ & _ & Hvals & Hd & Hval).
  split_and!; [done | done | | |].
  - intros g value Hg Hfiled. rewrite Hval, decide_True, Hg; [done|].
    split; [|done]. apply list_elem_of_fmap. exists (g, value). split; [done|].
    by apply elem_of_map_to_list.
  - intros g Hg. rewrite Hval, decide_False; [done|]. intros [Hin _].
    apply list_elem_of_fmap in Hin as ([g' value] & -> & Hin).
    apply elem_of_map_to_list in Hin. simpl in Hg. congruence.
  - intros Hnone. rewrite Hval, decide_False; [done|].
    intros [_ [Hne|[r Hr]]]; [done | congruence].
Qed.

Lemma validateAll_validates_fields_with_values_witness :
  ∃ calls c,
    FormValidator.validateAll Fixture.quiet_form_observer 1 Fixture.login_form
    = Some (calls, c)
    ∧ FormState.validations (FormValidator.getState (state_of c)) !! "email" = None.
Proof.
  destruct (FormValidator.validateAll Fixture.quiet_form_observer 1 Fixture.login_form)
    as [[calls c]|] eqn:Hall; [|discriminate].
  exists calls, c. split; [reflexivity|].
  destruct (validateAll_validates_fields_with_values _ _ _ _ _ Hall)
    as (_ & _ & _ & Hnone & _).
  rewrite Hnone; reflexivity.
Defined.

(** A form with a [required] validator on a field that has no value
    passes [validateAll] as valid. *)
Example validateAll_missing_field_example :
  (λ r, FormValidator.getState (state_of r.2))
    <$> FormValidator.validateAll Fixture.quiet_form_observer 1 Fixture.login_form
  = Some (FormState.mk ∅ ∅ true false).
Proof. reflexivity. Qed.

(** X22: [reset] starts the state over and keeps the rest.  Once it has
    completed the state holds the given values, no validation record, is
    valid and not dirty; the validators are those registered before; and
    (with observers that return and leave the observer set alone) every
    observer has been called once, in order, with the new state. *)
Theorem reset_starts_over
    (observer_body : FormValidator.FormObserver → FormState.t →
                     SetData FormValidator.FormObserver →
                     completion (SetData FormValidator.FormObserver) unit)
    (fuel : nat) (values : gmap string string) (f : FormValidator.form) :
  (∀ calls c,
     FormValidator.reset observer_body fuel values f = Some (calls, c) →
     FormValidator.getState (state_of c) = FormState.mk values ∅ true false
     ∧ FormValidator.validators (state_of c) = FormValidator.validators f)
  ∧ ((∀ o st r, observer_body o st r = Normal tt r) →
     length (FormValidator.observers f) < fuel →
     FormValidator.reset observer_body fuel values f
     = Some ((λ o, (o, FormState.mk values ∅ true false))
               <$> live (FormValidator.observers f),
             Normal tt {| FormValidator.observers := FormValidator.observers f;
                          FormValidator.state := FormState.mk values ∅ true false;
                          FormValidator.validators := FormValidator.validators f |})).
Proof.
  split.
  - intros calls c Hreset. unfold FormValidator.reset, FormValidator.getState in *.
    by apply notifyObservers_state in Hreset as [-> ->].
  - intros Hq Hfuel. unfold FormValidator.reset.
    apply (notifyObservers_quiet observer_body fuel
             {| FormValidator.observers := FormValidator.observers f;
                FormValidator.state := FormState.mk values ∅ true false;
                FormValidator.validators := FormValidator.validators f |}); [|done].
    intros o _. apply Hq.
Qed.

Lemma reset_starts_over_witness :
  ∃ calls c,
    FormValidator.reset Fixture.quiet_form_observer 1 {[ "email" := "a@b.c" ]}
      Fixture.login_form = Some (calls, c)
    ∧ FormValidator.getState (state_of c)
      = FormState.mk {[ "email" := "a@b.c" ]} ∅ true false
    ∧ FormValidator.validators (state_of c) = FormValidator.validators Fixture.login_form.
Proof.
  destruct (FormValidator.reset Fixture.quiet_form_observer 1 {[ "email" := "a@b.c" ]}
              Fixture.login_form) as [[calls c]|] eqn:Hreset; [|discriminate].
  exists calls, c. split; [reflexivity|].
  by apply (proj1 (reset_starts_over Fixture.quiet_form_observer 1 {[ "email" := "a@b.c" ]}
                     Fixture.login_form)) in Hreset.
Defined.



(** ** The common validators *)

Section trim_facts.
Import FormValidator.

Lemma trimStart_empty s :
  trimStart s = EmptyString
  ↔ Forall (λ a, is_space a = true) (String.list_ascii_of_string s).
Proof.
  induction s as [|a s IH]; simpl; [by split|].
  destruct (is_space a) eqn:Ha.
  - rewrite IH. split; [by constructor | by inversion 1].
  - split; [done|]. inversion 1; congruence.
Qed.

Lemma trimEnd_empty s :
  trimEnd s = EmptyString
  ↔ Forall (λ a, is_space a = true) (String.list_ascii_of_string s).
Proof.
  induction s as [|a s IH]; simpl; [by split|].
  destruct (trimEnd s) eqn:Hs.
  - destruct (is_space a) eqn:Ha.
    + split; [|done]. intros _. constructor; [done | by apply IH].
    + split; [done|]. inversion 1; congruence.
  - split; [done|]. inversion 1 as [|?? _ Hall]; subst. by apply IH in Hall.
Qed.

Lemma trimStart_cases s :
  trimStart s = EmptyString
  ∨ ∃ a r, trimStart s = String a r ∧ is_space a = false.
Proof.
  induction s as [|a s IH]; simpl; [by left|].
  destruct (is_space a) eqn:Ha; [done|]. right. eauto.
Qed.

Lemma exists_not_space (l : list Ascii.ascii) :
  ¬ Forall (λ a, is_space a = true) l → ∃ a, a ∈ l ∧ is_space a = false.
Proof.
  induction l as [|a l IH]; intros Hnot; [by destruct Hnot|].
  destruct (is_space a) eqn:Ha.
  - destruct IH as (x & Hin & Hx).
    + intros Hall. apply Hnot. by constructor.
    + exists x. split; [by right | done].
  - exists a. split; [by left | done].
Qed.

Lemma trim_empty s :
  trim s = EmptyString
  ↔ Forall (λ a, is_space a = true) (String.list_ascii_of_string s).
Proof.
  unfold trim. rewrite <- trimStart_empty. split.
  - intros Ht. destruct (trimStart_cases s) as [Hs|(a & r & Hs & Ha)]; [done|].
    rewrite Hs in Ht. apply trimEnd_empty in Ht. simpl in Ht.
    inversion Ht; congruence.
  - intros ->. done.
Qed.
End trim_facts.

(** X24: [required] rejects blank values.  It returns no error exactly when
    the value has a character that is not white space; for a value that is
    empty or made of white space only it returns the one message
    "<fieldName> is required". *)
Theorem required_rejects_blank (fieldName value : string) :
  (FormValidator.required fieldName value = []
   ↔ ∃ a, a ∈ String.list_ascii_of_string value ∧ FormValidator.is_space a = false)
  ∧ (FormValidator.required fieldName value = []
     ∨ FormValidator.required fieldName value = [fieldName +:+ " is required"]).
Proof.
  unfold FormValidator.required.
  pose proof (trim_empty value) as Ht.
  destruct (FormValidator.trim value) as [|a r].
  - split; [|by right]. split; [done|]. intros (a & Hin & Ha).
    pose proof (proj1 Ht eq_refl) as Hall. rewrite Forall_forall in Hall.
    rewrite (Hall a Hin) in Ha. discriminate.
  - split; [|by left]. split; [|done]. intros _.
    destruct (decide (Forall (λ a, FormValidator.is_space a = true)
                        (String.list_ascii_of_string value))) as [Hall|Hnot].
    + by apply Ht in Hall.
    + by apply exists_not_space.
Qed.

(** ** Regular expressions *)

Section regex_facts.
Import RegExp.

Lemma nullable_lang r : nullable r = true ↔ lang r [].
Proof.
  split.
  - induction r as [| |p|r1 IH1 r2 IH2|r1 IH1 r2 IH2|r IH]; simpl; intros Hn; try done.
    + constructor.
    + apply andb_true_iff in Hn as [H1 H2].
      apply (lang_cat r1 r2 [] []); auto.
    + apply orb_true_iff in Hn as [H1|H2]; [apply lang_alt_l | apply lang_alt_r]; auto.
    + constructor.
  - intros Hl. remember [] as s eqn:Hs.
    induction Hl as [|p a Hp|r1 r2 s1 s2 _ IH1 _ IH2|r1 r2 s _ IH|r1 r2 s _ IH
                     | r | r s1 s2 _ _ _ _]; simpl; try done.
    + apply app_eq_nil in Hs as [-> ->]. by rewrite IH1, IH2.
    + by rewrite IH.
    + rewrite IH by done. apply orb_true_r.
Qed.

Lemma lang_star_cons_inv r a s :
  lang (Star r) (a :: s) →
  ∃ s1 s2, s = s1 ++ s2 ∧ lang r (a :: s1) ∧ lang (Star r) s2.
Proof.
  intros Hl. remember (Star r) as r' eqn:Hr. remember (a :: s) as s' eqn:Hs.
  revert Hr Hs.
  induction Hl as [| | | | | |r0 s1 s2 H1 _ H2 IH2]; intros Hr Hs; try done.
  simplify_eq. destruct s1 as [|a1 s1]; simpl in Hs.
  - by apply IH2.
  - simplify_eq. eauto.
Qed.

Lemma deriv_lang r : ∀ a s, lang (deriv a r) s ↔ lang r (a :: s).
Proof.
  induction r as [| |p|r1 IH1 r2 IH2|r1 IH1 r2 IH2|r IH]; intros a s; simpl.
  - split; inversion 1.
  - split; inversion 1.
  - destruct (p a) eqn:Hp.
    + split; inversion 1; subst; [by constructor | constructor].
    + split; inversion 1; congruence.
  - assert (Hcat : lang (Cat (deriv a r1) r2) s
                   ↔ ∃ s1 s2, s = s1 ++ s2 ∧ lang r1 (a :: s1) ∧ lang r2 s2).
    { split.
      - inversion 1; subst. eexists _, _. split; [done|]. split; [by apply IH1 | done].
      - intros (s1 & s2 & -> & H1 & H2). constructor; [by apply IH1 | done]. }
    assert (Hsplit : lang (Cat r1 r2) (a :: s)
                     ↔ (lang r1 [] ∧ lang r2 (a :: s))
                       ∨ ∃ s1 s2, s = s1 ++ s2 ∧ lang r1 (a :: s1) ∧ lang r2 s2).
    { split.
      - inversion 1 as [| |? ? s1 s2 H1 H2 Heq| | | |]; subst.
        destruct s1 as [|a1 s1]; simpl in *; subst; [by left|].
        simplify_eq. right. eauto.
      - intros [[H1 H2]|(s1 & s2 & -> & H1 & H2)].
        + by apply (lang_cat r1 r2 [] (a :: s)).
        + by apply (lang_cat r1 r2 (a :: s1) s2). }
    rewrite Hsplit. destruct (nullable r1) eqn:Hn.
    + split.
      * inversion 1; subst; [right; by apply Hcat | left].
        split; [by apply nullable_lang | by apply IH2].
      * intros [[_ H2]|H]; [apply lang_alt_r; by apply IH2 | apply lang_alt_l; by apply Hcat].
    + rewrite Hcat. split; [by right|]. intros [[H1 _]|H]; [|done].
      apply nullable_lang in H1. congruence.
  - split.
    + inversion 1; subst; [apply lang_alt_l; by apply IH1 | apply lang_alt_r; by apply IH2].
    + inversion 1; subst; [apply lang_alt_l; by apply IH1 | apply lang_alt_r; by apply IH2].
  - split.
    + inversion 1; subst. apply (lang_star_cons r (a :: _)); [by apply IH | done].
    + intros Hl. apply lang_star_cons_inv in Hl as (s1 & s2 & -> & H1 & H2).
      constructor; [by apply IH | done].
Qed.

(** [test] decides the language. *)
Lemma test_lang s : ∀ r, test r s = true ↔ lang r (String.list_ascii_of_string s).
Proof.
  induction s as [|a s IH]; intros r; simpl.
  - apply nullable_lang.
  - rewrite IH. apply deriv_lang.
Qed.

Lemma lang_star_class p s :
  lang (Star (Class p)) s ↔ Forall (λ a, p a = true) s.
Proof.
  split.
  - intros Hl. remember (Star (Class p)) as r eqn:Hr. revert Hr.
    induction Hl as [| | | | | |r0 s1 s2 H1 _ H2 IH2]; intros Hr; try done.
    simplify_eq. inversion H1; subst. constructor; [done | by apply IH2].
  - induction 1 as [|a s Ha _ IH]; [constructor|].
    apply (lang_star_cons (Class p) [a] s); [by constructor | done].
Qed.

Lemma lang_plus_class p s :
  lang (Plus (Class p)) s ↔ s ≠ [] ∧ Forall (λ a, p a = true) s.
Proof.
  unfold Plus. split.
  - inversion 1 as [| |? ? s1 s2 H1 H2| | | |]; subst. inversion H1; subst.
    split; [done|]. constructor; [done | by apply lang_star_class].
  - intros [Hne Hall]. destruct Hall as [|a s Ha Hall]; [done|].
    apply (lang_cat (Class p) (Star (Class p)) [a] s);
      [by constructor | by apply lang_star_class].
Qed.

Lemma lang_class_cat p r s :
  lang (Cat (Class p) r) s ↔ ∃ a s', s = a :: s' ∧ p a = true ∧ lang r s'.
Proof.
  split.
  - inversion 1 as [| |? ? s1 s2 H1 H2| | | |]; subst. inversion H1; subst. eauto.
  - intros (a & s' & -> & Hp & Hr). apply (lang_cat (Class p) r [a] s'); [by constructor | done].
Qed.

Lemma lang_cat_inv r1 r2 s :
  lang (Cat r1 r2) s ↔ ∃ s1 s2, s = s1 ++ s2 ∧ lang r1 s1 ∧ lang r2 s2.
Proof.
  split.
  - inversion 1; subst. eauto.
  - intros (s1 & s2 & -> & H1 & H2). by constructor.
Qed.
End regex_facts.

(** X25: what [validators.email] accepts.  It returns no error exactly
    when the value is a local part, an at sign, a domain head, a dot and a
    rest, the three parts being non-empty and free of white space and at
    signs (dots are allowed in all three).  So an accepted value has no
    white space and exactly one at sign; every other value gets the one
    message "Invalid email format". *)
Theorem email_accepts (value : string) :
  (Validators.email value = []
   ↔ ∃ a b c,
       String.list_ascii_of_string value
       = a ++ Validators.char "@" :: b ++ Validators.char "." :: c
       ∧ a ≠ [] ∧ b ≠ [] ∧ c ≠ []
       ∧ Forall (λ x, Validators.plain x = true) (a ++ b ++ c))
  ∧ (Validators.email value = [] →
     Forall (λ x, FormValidator.is_space x = false) (String.list_ascii_of_string value)
     ∧ length (filter (λ x, x = Validators.char "@") (String.list_ascii_of_string value)) = 1)
  ∧ (Validators.email value = [] ∨ Validators.email value = ["Invalid email format"]).
Proof.
  assert (Hiff : Validators.email value = []
    ↔ ∃ a b c,
        String.list_ascii_of_string value
        = a ++ Validators.char "@" :: b ++ Validators.char "." :: c
        ∧ a ≠ [] ∧ b ≠ [] ∧ c ≠ []
        ∧ Forall (λ x, Validators.plain x = true) (a ++ b ++ c)).
  { unfold Validators.email.
    pose proof (test_lang value Validators.emailRegex) as Ht.
    assert (Hl : RegExp.lang Validators.emailRegex (String.list_ascii_of_string value)
      ↔ ∃ a b c,
          String.list_ascii_of_string value
          = a ++ Validators.char "@" :: b ++ Validators.char "." :: c
          ∧ a ≠ [] ∧ b ≠ [] ∧ c ≠ []
          ∧ Forall (λ x, Validators.plain x = true) (a ++ b ++ c)).
    { unfold Validators.emailRegex. rewrite lang_cat_inv. split.
      - intros (a & s2 & -> & Ha & H2). apply lang_plus_class in Ha as [Hane Ha].
        apply lang_class_cat in H2 as (x & s3 & -> & Hx & H3).
        apply Ascii.eqb_eq in Hx as ->.
        apply lang_cat_inv in H3 as (b & s4 & -> & Hb & H4).
        apply lang_plus_class in Hb as [Hbne Hb].
        apply lang_class_cat in H4 as (y & c & -> & Hy & Hc).
        apply Ascii.eqb_eq in Hy as ->.
        apply lang_plus_class in Hc as [Hcne Hc].
        exists a, b, c. split_and!; try done. by rewrite !Forall_app.
      - intros (a & b & c & -> & Hane & Hbne & Hcne & Hall).
        rewrite !Forall_app in Hall. destruct Hall as (Ha & Hb & Hc).
        exists a, (Validators.char "@" :: b ++ Validators.char "." :: c).
        split_and!; [done | by apply lang_plus_class |].
        apply lang_class_cat. eexists _, _. split_and!; [done | by apply Ascii.eqb_eq |].
        apply lang_cat_inv. exists b, (Validators.char "." :: c).
        split_and!; [done | by apply lang_plus_class |].
        apply lang_class_cat. eexists _, _. split_and!; [done | by apply Ascii.eqb_eq |].
        by apply lang_plus_class. }
    rewrite <- Hl, <- Ht. by destruct (RegExp.test _ _). }
  split_and!; [done | |].
  - intros Hok. apply Hiff in Hok as (a & b & c & -> & _ & _ & _ & Hall).
    assert (Hplain : ∀ l, Forall (λ x, Validators.plain x = true) l →
      Forall (λ x, FormValidator.is_space x = false) l
      ∧ filter (λ x, x = Validators.char "@") l = []).
    { induction 1 as [|x l Hx _ [IH1 IH2]]; [done|].
      unfold Validators.plain in Hx. apply andb_true_iff in Hx as [Hs Hat].
      apply negb_true_iff in Hs, Hat. apply Ascii.eqb_neq in Hat.
      split; [by constructor|]. by rewrite filter_cons, decide_False. }
    rewrite !Forall_app in Hall. destruct Hall as (Ha & Hb & Hc).
    destruct (Hplain a Ha) as [Sa Fa], (Hplain b Hb) as [Sb Fb], (Hplain c Hc) as [Sc Fc].
    split.
    + rewrite Forall_app, Forall_cons, Forall_app, Forall_cons. split_and!; done.
    + rewrite filter_app, filter_cons, decide_True, filter_app, filter_cons by done.
      rewrite decide_False by done. by rewrite Fa, Fb, Fc.
  - unfold Validators.email. destruct (RegExp.test _ _); auto.
Qed.

(** Some values [validators.email] accepts and rejects. *)
Example email_example :
  Validators.email <$> ["user@example.com"; "a@b"; "a b@c.d"; "a@@b.c"; "a@b.c."]
  = [[]; ["Invalid email format"]; ["Invalid email format"];
     ["Invalid email format"]; []].
Proof. reflexivity. Qed.

(** * The singletons *)

(** ** Maps: [clear], and [set] on a new key *)

Section map_clear_facts.
Context {K V : Type} `{EqDecision K}.
Implicit Types (d : MapData K V) (k : K) (v : V).

Lemma live_map_clear d : live (map_clear d) = [].
Proof. unfold map_clear. induction d as [|e d IH]; simpl; [done | exact IH]. Qed.

Lemma map_has_clear k d : map_has k (map_clear d) = false.
Proof. unfold map_clear. induction d as [|e d IH]; simpl; [done | exact IH]. Qed.

Lemma map_set_absent k v d :
  map_has k d = false → map_set k v d = d ++ [Some (k, v)].
Proof. intros Hhas. unfold map_set. by rewrite Hhas. Qed.

Lemma map_set_wf k v d : map_wf d → map_wf (map_set k v d).
Proof.
  unfold map_wf. intros Hwf. destruct (map_has k d) eqn:Hhas.
  - by rewrite map_set_present_keys.
  - rewrite map_set_absent by done. rewrite live_app, fmap_app. simpl.
    apply NoDup_app. split_and!; [done | | apply NoDup_singleton].
    intros k0 Hin Hin'. apply list_elem_of_singleton in Hin' as ->.
    by apply (map_has_false_keys k d).
Qed.

Lemma emptied_map_wf d d' : emptied d d' → map_wf d → map_wf d'.
Proof.
  unfold map_wf. intros He Hwf.
  eapply sublist_NoDup; [exact Hwf | apply fmap_sublist; by apply emptied_live].
Qed.

(** In a well-formed map [delete] empties one entry. *)
Lemma map_delete_at (d : list (option (K * V))) : ∀ i k v,
  map_wf d → d !! i = Some (Some (k, v)) → map_delete k d = <[i := None]> d.
Proof.
  unfold map_wf. induction d as [|e d IH]; intros i k v Hwf Hi; [done|].
  destruct i as [|i]; simpl in *.
  - injection Hi as ->. simpl in *. rewrite bool_decide_eq_true_2 by done.
    f_equal. apply NoDup_cons in Hwf as [Hk _].
    apply map_delete_absent. destruct (map_has k d) eqn:Hhas; [|done].
    by apply map_has_keys in Hhas.
  - assert (Hin : k ∈ (live d).*1).
    { apply map_has_keys, map_has_true. exists v. by eapply list_elem_of_lookup_2. }
    unfold map_delete. simpl. f_equal.
    + destruct e as [[k0 v0]|]; simpl in *; [|done].
      apply NoDup_cons in Hwf as [Hk0 _]. case_bool_decide; [by subst | done].
    + apply (IH i k v); [|done]. destruct e as [[k0 v0]|]; simpl in *; [|done].
      by apply NoDup_cons in Hwf as [_ Hwf].
Qed.
End map_clear_facts.

(** ** ConfigurationManager *)

Section config_facts.
Import ConfigurationManager.
Context {unknown : Type}.
Implicit Types (m : manager unknown).

Lemma filter_key_absent (l : list (string * unknown)) k :
  k ∉ l.*1 → filter (λ e : string * unknown, e.1 = k) l = [].
Proof.
  induction l as [|[k0 v0] l IH]; simpl; intros Hk; [done|].
  apply not_elem_of_cons in Hk as [Hne Hk]. rewrite filter_cons. simpl.
  rewrite decide_False by done. by apply IH.
Qed.

Lemma fromEntries_lookup (l : list (string * unknown)) : ∀ (o : gmap string unknown) k,
  NoDup l.*1 →
  foldl (λ o e, <[e.1 := e.2]> o) o l !! k
  = match head (filter (λ e : string * unknown, e.1 = k) l) with
    | Some e => Some e.2
    | None => o !! k
    end.
Proof.
  induction l as [|[k0 v0] l IH]; intros o k Hnd; simpl; [done|].
  apply NoDup_cons in Hnd as [Hk0 Hnd]. rewrite (IH _ _ Hnd), filter_cons. simpl.
  destruct (decide (k0 = k)) as [->|Hne]; simpl.
  - rewrite (filter_key_absent l k Hk0). simpl. by rewrite lookup_insert_eq.
  - destruct (head _); [done|]. by rewrite lookup_insert_ne.
Qed.

Lemma getAll_lookup m k : map_wf (config m) → getAll m !! k = get k m.
Proof.
  intros Hwf. unfold getAll, get, map_get. rewrite fromEntries_lookup by done.
  rewrite lookup_empty. by destruct (head _).
Qed.

Lemma reset_entries (str : string → unknown) (num : Z → unknown) m :
  live (config (reset str num m))
  = [("apiUrl", str "https://api.example.com"); ("timeout", num 5000%Z);
     ("maxRetries", num 3%Z)].
Proof.
  unfold reset. cbn [config].
  rewrite (map_set_absent "apiUrl") by apply map_has_clear.
  rewrite (map_set_absent "timeout")
    by (rewrite map_has_app, map_has_clear; reflexivity).
  rewrite (map_set_absent "maxRetries")
    by (rewrite !map_has_app, map_has_clear; reflexivity).
  rewrite !live_app, live_map_clear. reflexivity.
Qed.
End config_facts.

(** X26: [reset] does not go back to the configuration the constructor
    makes.  Whatever was stored, after [reset] the manager holds exactly
    [apiUrl], [timeout] and [maxRetries] with their default values, in
    that order; [theme] and [language], which a new manager has
    ("light" and "en"), are gone. *)
Theorem reset_keeps_three_defaults {unknown : Type}
    (str : string → unknown) (num : Z → unknown)
    (m : ConfigurationManager.manager unknown) :
  live (ConfigurationManager.config (ConfigurationManager.reset str num m))
  = [("apiUrl", str "https://api.example.com"); ("timeout", num 5000%Z);
     ("maxRetries", num 3%Z)]
  ∧ ConfigurationManager.get "theme" (ConfigurationManager.reset str num m) = None
  ∧ ConfigurationManager.get "language" (ConfigurationManager.reset str num m) = None
  ∧ ConfigurationManager.get "theme" (ConfigurationManager.create str num)
    = Some (str "light")
  ∧ ConfigurationManager.get "language" (ConfigurationManager.create str num)
    = Some (str "en").
Proof.
  split_and!; [apply reset_entries | | | reflexivity | reflexivity];
    unfold ConfigurationManager.get, map_get; by rewrite reset_entries.
Qed.

(** X27: [get] after [set].  In a manager whose map holds every key once,
    [set] followed by [get] of the same key gives the value just stored,
    the other keys read as before, the object [getAll] returns has under
    every key what [get] returns, and the map still holds every key
    once. *)
Theorem config_get_after_set {unknown : Type}
    (m : ConfigurationManager.manager unknown) (key : string) (value : unknown) :
  map_wf (ConfigurationManager.config m) →
  ConfigurationManager.get key (ConfigurationManager.set key value m) = Some value
  ∧ (∀ other, other ≠ key →
       ConfigurationManager.get other (ConfigurationManager.set key value m)
       = ConfigurationManager.get other m)
  ∧ (∀ k, ConfigurationManager.getAll (ConfigurationManager.set key value m) !! k
          = ConfigurationManager.get k (ConfigurationManager.set key value m))
  ∧ map_wf (ConfigurationManager.config (ConfigurationManager.set key value m)).
Proof.
  intros Hwf.
  assert (Hwf' : map_wf (ConfigurationManager.config (ConfigurationManager.set key value m)))
    by (by apply map_set_wf).
  split_and!; [apply map_get_set_eq | | | done].
  - intros other Hne. by apply map_get_set_ne.
  - intros k. by apply getAll_lookup.
Qed.

Lemma config_get_after_set_witness :
  ConfigurationManager.get "timeout"
    (ConfigurationManager.set "timeout" (Fixture.Number 250%Z) Fixture.dark_config)
  = Some (Fixture.Number 250%Z)
  ∧ ConfigurationManager.getAll
      (ConfigurationManager.set "timeout" (Fixture.Number 250%Z) Fixture.dark_config)
    !! "theme" = Some (Fixture.Text "dark").
Proof.
  assert (Hwf : map_wf (ConfigurationManager.config Fixture.dark_config)).
  { unfold map_wf. apply (bool_decide_unpack _). vm_compute. exact I. }
  destruct (config_get_after_set Fixture.dark_config "timeout" (Fixture.Number 250%Z) Hwf)
    as (Hget & _ & Hall & _).
  split; [exact Hget|]. rewrite Hall. reflexivity.
Defined.

(** ** Logger *)

Section logger_facts.
Import Logger.
Variable toISOString : Z → string.

Lemma slice_from_end_cap {A} (n : nat) (l : list A) :
  0 < n →
  (if n <? length l then slice_from_end n l else l) = slice_from_end n l.
Proof.
  intros Hn. unfold slice_from_end. destruct n as [|n]; [lia|].
  destruct (Nat.ltb_spec (S n) (length l)) as [Hlt|Hle]; [done|].
  by replace (length l - S n) with 0 by lia.
Qed.

Lemma slice_from_end_length {A} (n : nat) (l : list A) :
  0 < n → length (slice_from_end n l) ≤ n.
Proof.
  intros Hn. unfold slice_from_end. destruct n as [|n]; [lia|].
  rewrite length_drop. lia.
Qed.

Lemma slice_from_end_snoc {A} (n : nat) (l : list A) (x : A) :
  0 < n →
  slice_from_end n (slice_from_end n l ++ [x]) = slice_from_end n (l ++ [x]).
Proof.
  intros Hn. unfold slice_from_end. destruct n as [|n]; [lia|].
  rewrite !length_app, length_drop. simpl.
  destruct (decide (length l ≤ S n)) as [Hle|Hgt].
  - replace (length l - S n) with 0 by lia. simpl.
    by replace (length l - 0) with (length l) by lia.
  - rewrite !drop_app_le by (rewrite ?length_drop; lia).
    rewrite drop_drop. f_equal. f_equal. lia.
Qed.

Lemma log_logs lvl message context now l :
  logs (log toISOString lvl message context now l).2
  = (if levelPriority (level l) <=? levelPriority lvl
     then slice_from_end maxLogs (logs l ++ [LogEntry.mk lvl message now context])
     else logs l)
  ∧ level (log toISOString lvl message context now l).2 = level l.
Proof.
  unfold log, shouldLog.
  destruct (levelPriority (level l) <=? levelPriority lvl); cbn [negb snd logs level];
    [|done].
  split; [|done]. apply slice_from_end_cap. unfold maxLogs. lia.
Qed.

Lemma run_calls_logs calls : ∀ l sofar,
  logs l = slice_from_end maxLogs sofar →
  logs (run_calls toISOString calls l).2
  = slice_from_end maxLogs (accepted calls (level l) sofar).
Proof.
  induction calls as [|[lvl|lvl message context now|] calls IH]; intros l sofar Hl.
  - done.
  - apply (IH (setLevel lvl l) sofar). exact Hl.
  - cbn [run_calls accepted].
    destruct (log_logs lvl message context now l) as [Hlogs Hlevel].
    destruct (log toISOString lvl message context now l) as [out l1].
    specialize (IH l1). destruct (run_calls toISOString calls l1) as [outs l2].
    cbn [snd] in *. rewrite Hlevel in IH. apply IH. rewrite Hlogs.
    destruct (levelPriority (level l) <=? levelPriority lvl); [|exact Hl].
    rewrite Hl. apply slice_from_end_snoc. unfold maxLogs. lia.
  - apply (IH (clearLogs l) []). unfold slice_from_end, maxLogs. reflexivity.
Qed.
End logger_facts.

(** X28: the logger keeps the most recent 1000 accepted entries.  After
    any run of [setLevel], [debug]/[info]/[warn]/[error] and [clearLogs]
    calls on a new logger, [getLogs()] returns the last 1000 of the
    entries that were logged, since the last [clearLogs], at a level not
    below the level in force at the time of the call, oldest first; it
    never returns more than 1000. *)
Theorem logger_keeps_latest_accepted (toISOString : Z → string)
    (calls : list Logger.call) :
  Logger.getLogs None (Logger.run_calls toISOString calls Logger.new).2
  = slice_from_end Logger.maxLogs (Logger.accepted calls LogLevel.info [])
  ∧ length (Logger.getLogs None (Logger.run_calls toISOString calls Logger.new).2)
    ≤ Logger.maxLogs.
Proof.
  assert (H : Logger.getLogs None (Logger.run_calls toISOString calls Logger.new).2
    = slice_from_end Logger.maxLogs (Logger.accepted calls LogLevel.info [])).
  { apply (run_calls_logs toISOString calls Logger.new []). reflexivity. }
  split; [exact H|]. rewrite H. apply slice_from_end_length. unfold Logger.maxLogs. lia.
Qed.

(** ** CacheManager *)

Section cache_facts.
Import CacheManager.
Context {unknown : Type}.
Implicit Types (m : manager unknown) (d : MapData string (CacheEntry.t unknown)).

Lemma cleanup_walk now fuel : ∀ i (d : list (option (string * CacheEntry.t unknown))),
  map_wf d → length d - i < fuel →
  ∃ vs, forEach_from (λ d, d) (drop_expired now) fuel i d
        = Some (vs, Normal tt (take i d ++ (swept now <$> drop i d))).
Proof.
  induction fuel as [|fuel IH]; intros i d Hwf Hfuel; [lia|]. cbn [forEach_from].
  destruct (d !! i) as [[[k entry]|]|] eqn:Hi.
  - pose proof (lookup_lt_Some _ _ _ Hi) as Hlt.
    change (drop_expired now (k, entry) d)
      with (Normal (S := MapData string (CacheEntry.t unknown)) tt
              (if (CacheEntry.expiresAt entry <? now)%Z then map_delete k d else d)).
    cbn beta iota.
    destruct (CacheEntry.expiresAt entry <? now)%Z eqn:Hexp.
    + rewrite (map_delete_at d i k entry Hwf Hi).
      destruct (IH (S i) (<[i := None]> d)) as [vs Hvs].
      { pose proof (map_delete_emptied k d) as He.
        rewrite (map_delete_at d i k entry Hwf Hi) in He.
        by apply (emptied_map_wf d). }
      { rewrite length_insert. lia. }
      rewrite Hvs. eexists. f_equal. f_equal. f_equal.
      rewrite take_insert_lt, drop_insert_lt by lia.
      rewrite (take_S_r _ _ _ Hi), (drop_S _ _ _ Hi). simpl. rewrite Hexp.
      rewrite insert_app_r_alt by (rewrite length_take; lia).
      rewrite length_take. replace (i - i `min` length d) with 0 by lia. simpl.
      by rewrite <- app_assoc.
    + destruct (IH (S i) d Hwf) as [vs Hvs]; [lia|].
      rewrite Hvs. eexists. f_equal. f_equal. f_equal.
      rewrite (take_S_r _ _ _ Hi), (drop_S _ _ _ Hi). simpl. rewrite Hexp.
      by rewrite <- app_assoc.
  - pose proof (lookup_lt_Some _ _ _ Hi) as Hlt.
    destruct (IH (S i) d Hwf) as [vs Hvs]; [lia|].
    rewrite Hvs. eexists. f_equal. f_equal. f_equal.
    rewrite (take_S_r _ _ _ Hi), (drop_S _ _ _ Hi). simpl.
    by rewrite <- app_assoc.
  - apply lookup_ge_None in Hi. exists [].
    rewrite take_ge, drop_ge by lia. simpl. by rewrite app_nil_r.
Qed.

Lemma live_swept now d :
  live (swept now <$> d)
  = filter (λ e : string * CacheEntry.t unknown, ¬ (CacheEntry.expiresAt e.2 < now)%Z)
      (live d).
Proof.
  induction d as [|[[k entry]|] d IH]; simpl; [done | | done].
  rewrite filter_cons. simpl.
  destruct (Z.ltb_spec (CacheEntry.expiresAt entry) now) as [Hlt|Hge]; simpl.
  - rewrite decide_False by (intros H; by apply H). exact IH.
  - rewrite decide_True by lia. by f_equal.
Qed.
End cache_facts.

(** X29: how long a cache entry lives.  [set] with a [ttl] other than 0
    makes the entry live for [ttl] milliseconds; with no [ttl], and with
    a [ttl] of 0, for the default TTL.  Up to and including the moment
    of expiry, [get] returns the value and [has] returns true, and
    neither changes the cache; after it, [get] returns undefined, [has]
    returns false, and either one deletes the entry, leaving the entries
    of the other keys as they were. *)
Theorem cache_entry_lifetime {unknown : Type} (m : CacheManager.manager unknown)
    (key : string) (value : unknown) (ttl : option Z) (lifetime now later : Z) :
  (ttl = Some lifetime ∧ lifetime ≠ 0%Z)
  ∨ ((ttl = None ∨ ttl = Some 0%Z) ∧ lifetime = CacheManager.defaultTTL m) →
  ((later ≤ now + lifetime)%Z →
     CacheManager.get key later (CacheManager.set key value ttl now m)
     = (Some value, CacheManager.set key value ttl now m)
     ∧ CacheManager.has key later (CacheManager.set key value ttl now m)
       = (true, CacheManager.set key value ttl now m))
  ∧ ((now + lifetime < later)%Z →
     ∃ m', CacheManager.get key later (CacheManager.set key value ttl now m) = (None, m')
       ∧ CacheManager.has key later (CacheManager.set key value ttl now m) = (false, m')
       ∧ map_has key (CacheManager.cache m') = false
       ∧ live (CacheManager.cache m')
         = filter (λ e : string * CacheEntry.t unknown, e.1 ≠ key)
             (live (CacheManager.cache (CacheManager.set key value ttl now m)))).
Proof.
  intros Httl.
  assert (Hget : map_get key (CacheManager.cache (CacheManager.set key value ttl now m))
    = Some (CacheEntry.mk value (now + lifetime)%Z)).
  { unfold CacheManager.set. cbn [CacheManager.cache]. rewrite map_get_set_eq.
    destruct Httl as [[-> Hne]|[[-> | ->] ->]]; [|done|done].
    by rewrite (proj2 (Z.eqb_neq lifetime 0) Hne). }
  unfold CacheManager.get, CacheManager.has. rewrite Hget. cbn [CacheEntry.expiresAt CacheEntry.value].
  split; intros Hlater.
  - by rewrite (proj2 (Z.ltb_ge _ _) Hlater).
  - rewrite (proj2 (Z.ltb_lt _ _) Hlater). eexists. split_and!; [done | done | |].
    + apply map_has_delete.
    + apply live_map_delete.
Qed.

Lemma cache_entry_lifetime_witness :
  CacheManager.get "a" 300000%Z (CacheManager.set "a" "uno" (Some 0%Z) 0%Z Fixture.small_cache)
  = (Some "uno", CacheManager.set "a" "uno" (Some 0%Z) 0%Z Fixture.small_cache)
  ∧ ∃ m', CacheManager.get "a" 300001%Z
            (CacheManager.set "a" "uno" (Some 0%Z) 0%Z Fixture.small_cache) = (None, m')
          ∧ map_has "a" (CacheManager.cache m') = false.
Proof.
  assert (Httl : (Some 0%Z = Some 300000%Z ∧ 300000%Z ≠ 0%Z)
    ∨ ((Some 0%Z = None ∨ Some 0%Z = Some 0%Z)
       ∧ 300000%Z = CacheManager.defaultTTL Fixture.small_cache)).
  { right. split; [by right | reflexivity]. }
  split.
  - apply (cache_entry_lifetime Fixture.small_cache "a" "uno" (Some 0%Z) 300000 0 300000 Httl).
    lia.
  - destruct (proj2 (cache_entry_lifetime Fixture.small_cache "a" "uno" (Some 0%Z)
                       300000 0 300001 Httl)) as (m' & Hget & _ & Hhas & _); [lia|].
    exists m'. by split.
Defined.

(** X30: [cleanup] removes exactly the expired entries.  On a cache whose
    map holds every key once, the walk over the entries, which deletes
    while it iterates, comes to an end; afterwards the cache holds the
    entries whose expiry time is not before [now], in their old order. *)
Theorem cleanup_drops_expired {unknown : Type} (m : CacheManager.manager unknown)
    (now : Z) (fuel : nat) :
  map_wf (CacheManager.cache m) →
  length (CacheManager.cache m) < fuel →
  ∃ m', CacheManager.cleanup fuel now m = Some m'
    ∧ live (CacheManager.cache m')
      = filter (λ e : string * CacheEntry.t unknown, ¬ (CacheEntry.expiresAt e.2 < now)%Z)
          (live (CacheManager.cache m))
    ∧ CacheManager.defaultTTL m' = CacheManager.defaultTTL m.
Proof.
  intros Hwf Hfuel. unfold CacheManager.cleanup, forEach.
  destruct (cleanup_walk now fuel 0 (CacheManager.cache m) Hwf) as [vs Hvs]; [lia|].
  replace (forEach_from _ _ fuel 0 (CacheManager.cache m))
    with (Some (vs, Normal (S := MapData string (CacheEntry.t unknown)) tt
                      (take 0 (CacheManager.cache m)
                       ++ (CacheManager.swept now <$> drop 0 (CacheManager.cache m)))))
    by (symmetry; exact Hvs).
  eexists. split_and!; [done | | done].
  cbn [CacheManager.cache state_of]. rewrite take_0, drop_0. simpl. apply live_swept.
Qed.

Lemma cleanup_drops_expired_witness :
  ∃ m', CacheManager.cleanup 3 20%Z Fixture.small_cache = Some m'
    ∧ (live (CacheManager.cache m')).*1 = ["b"].
Proof.
  assert (Hwf : map_wf (CacheManager.cache Fixture.small_cache)).
  { unfold map_wf. apply (bool_decide_unpack _). vm_compute. exact I. }
  assert (Hfuel : length (CacheManager.cache Fixture.small_cache) < 3).
  { vm_compute. lia. }
  destruct (cleanup_drops_expired Fixture.small_cache 20%Z 3 Hwf Hfuel)
    as (m' & Hc & Hlive & _).
  exists m'. split; [exact Hc|]. rewrite Hlive. reflexivity.
Defined.
